(** * Partition pruner of Kudu: a shallow embedding of
    [src/kudu/common/partition_pruner.{h,cc}] and the properties of its
    cursor, its range-set builder and its initialisation. *)

From Stdlib Require Import List NArith ZArith Lia Bool String.
From Stdlib.Strings Require Import Byte.
From stdpp Require Import base list gmap strings.

Set Default Proof Using "Type".
Local Open Scope list_scope.

(** ** Byte strings

    [std::string] holds raw bytes; its relational operators compare the
    bytes as unsigned values, lexicographically, a proper prefix being
    smaller ([std::string::compare]). *)

Abbreviation bytes := (list byte).

Fixpoint str_compare (a b : bytes) : comparison :=
  match a, b with
  | [], [] => Eq
  | [], _ :: _ => Lt
  | _ :: _, [] => Gt
  | x :: a', y :: b' =>
      match N.compare (Byte.to_N x) (Byte.to_N y) with
      | Eq => str_compare a' b'
      | c => c
      end
  end.

(** [a < b], [a <= b], [a > b], [a >= b], [a != b] and [a.empty()]. *)
Definition str_lt (a b : bytes) : bool :=
  match str_compare a b with Lt => true | _ => false end.
Definition str_le (a b : bytes) : bool :=
  match str_compare a b with Gt => false | _ => true end.
Definition str_gt (a b : bytes) : bool :=
  match str_compare a b with Gt => true | _ => false end.
Definition str_ge (a b : bytes) : bool :=
  match str_compare a b with Lt => false | _ => true end.
Definition str_ne (a b : bytes) : bool :=
  match str_compare a b with Eq => false | _ => true end.
Definition str_empty (a : bytes) : bool :=
  match a with [] => true | _ => false end.

(** ** Outcomes of fallible code

    [CHECK] failures abort the process ([Fatal]); indexing a vector out of
    range or calling [back()] on an empty vector has no defined result
    ([Undefined]). *)

Inductive outcome (A : Type) : Type :=
| Ok (a : A)
| Fatal
| Undefined.
Arguments Ok {A} a.
Arguments Fatal {A}.
Arguments Undefined {A}.

Definition bind {A B : Type} (m : outcome A) (k : A -> outcome B) : outcome B :=
  match m with
  | Ok a => k a
  | Fatal => Fatal
  | Undefined => Undefined
  end.

Notation "x <-- m ;; k" := (bind m (fun x => k))
  (at level 100, m at next level, right associativity).

(** ** The pruner's private data (partition_pruner.h) *)

Record RangeBounds := {
  lower : bytes;
  upper : bytes
}.

(** [end] is reserved in Rocq: the field [end] of the source is [end_]. *)
Record PartitionKeyRange := {
  start : bytes;
  end_ : bytes
}.

Record RangeBoundsAndPartitionKeyRanges := {
  range_bounds : RangeBounds;
  partition_key_ranges : list PartitionKeyRange
}.

(** The member [range_bounds_to_partition_key_ranges_]: each vector is kept
    in storage order, so [partition_key_ranges] is the reverse of the
    ascending order and its last element is the next range to scan. *)
Abbreviation pruner := (list RangeBoundsAndPartitionKeyRanges).

(** The accessors of [Partition] that the pruner reads. *)
Record Partition := {
  range_key_start : bytes;
  range_key_end : bytes;
  partition_key_start : bytes;
  partition_key_end : bytes
}.

(** ** The cursor *)

Definition NumRangesRemaining (p : pruner) : nat :=
  fold_left (fun num_ranges range => num_ranges + length (partition_key_ranges range)) p 0.

Definition HasMorePartitionKeyRanges (p : pruner) : bool :=
  negb (NumRangesRemaining p =? 0).

(** [back()] of an empty vector is undefined. *)
Definition back {A : Type} (v : list A) : outcome A :=
  match last v with
  | Some x => Ok x
  | None => Undefined
  end.

Definition NextPartitionKey (p : pruner) : outcome bytes :=
  if HasMorePartitionKeyRanges p then
    b <-- back p ;;
    r <-- back (partition_key_ranges b) ;;
    Ok (start r)
  else Fatal.

(** The loop of [RemovePartitionKeyRange] over one vector, from [rbegin()]
    to [rend()].  [n] is the distance of the reverse iterator's base from
    [begin()]: the iterator designates [v[n-1]].  [pop_back] removes the
    last element of the vector, whichever element the iterator designates,
    and the iterator then moves on by one position. *)
Fixpoint remove_loop (upper_bound : bytes) (n : nat) (v : list PartitionKeyRange)
  : list PartitionKeyRange :=
  match n with
  | 0 => v
  | S i =>
      match v !! i with
      | None => v
      | Some range =>
          if str_le upper_bound (start range) then v
          else if str_empty (end_ range) || str_lt upper_bound (end_ range) then
            remove_loop upper_bound i
              (<[i := {| start := upper_bound; end_ := end_ range |}]> v)
          else remove_loop upper_bound i (removelast v)
      end
  end.

Definition RemovePartitionKeyRange (upper_bound : bytes) (p : pruner) : pruner :=
  if str_empty upper_bound then []
  else
    map (fun b => {| range_bounds := range_bounds b;
                     partition_key_ranges :=
                       remove_loop upper_bound (length (partition_key_ranges b))
                                   (partition_key_ranges b) |}) p.

(** [std::lower_bound(first, last, value, comp)] over the sequence [s]:
    the halving search, with [first] and [len] as in the library's loop.
    [len] decreases at every turn, so [length s] turns are enough. *)
Fixpoint lower_bound_loop {A : Type} (fuel : nat) (s : list A) (comp : A -> bool)
    (first len : nat) : nat :=
  match fuel with
  | 0 => first
  | S fuel' =>
      if len =? 0 then first
      else
        let half := len / 2 in
        let middle := first + half in
        match s !! middle with
        | None => first
        | Some x =>
            if comp x then lower_bound_loop fuel' s comp (middle + 1) (len - half - 1)
            else lower_bound_loop fuel' s comp first half
        end
  end.

Definition lower_bound {A : Type} (s : list A) (comp : A -> bool) : nat :=
  lower_bound_loop (length s) s comp 0 (length s).

(** The comparator of [ShouldPrune]: true if [scan_range < partition]. *)
Definition scan_range_before (partition : Partition) (scan_range : PartitionKeyRange) : bool :=
  negb (str_empty (end_ scan_range)) && str_le (end_ scan_range) (partition_key_start partition).

(** The test that makes [ShouldPrune] move on to the next element. *)
Definition belongs_to_other_range (rb : RangeBounds) (partition : Partition) : bool :=
  negb (str_empty (lower rb)) && str_ne (range_key_start partition) (lower rb) &&
  negb (str_empty (upper rb)) && str_ne (range_key_end partition) (upper rb).

(** One turn of the loop of [ShouldPrune]: [true] when the turn reaches the
    end of the body (or [continue]), [false] when it returns [false]. *)
Definition bucket_rejects (partition : Partition) (b : RangeBoundsAndPartitionKeyRanges) : bool :=
  if belongs_to_other_range (range_bounds b) partition then true
  else
    let rseq := rev (partition_key_ranges b) in
    match rseq !! lower_bound rseq (scan_range_before partition) with
    | None => true
    | Some range =>
        negb (str_empty (partition_key_end partition)) &&
        str_le (partition_key_end partition) (start range)
    end.

Fixpoint ShouldPrune (p : pruner) (partition : Partition) : bool :=
  match p with
  | [] => true
  | b :: rest => if bucket_rejects partition b then ShouldPrune rest partition else false
  end.

(** ** The collaborators of the pruner

    The schema, the scan specification, the key encoders and [key_util]
    are declared outside [partition_pruner.cc]; the pruner only consumes
    them.  Their data is given as records, their functions as the fields
    of the class [Collaborators]. *)

(** [ColumnId] wraps a 32-bit integer. *)
Abbreviation ColumnId := Z.

(** A cell value, as a [const void*] designates it. *)
Abbreviation raw := bytes.

(** Modelled from the spec: the predicate kinds of [column_predicate.h], as
    the data model of the specification lists them. *)
Inductive PredicateType : Type :=
| Equality
| InList
| Range
| IsNotNull
| IsNull
| None_.

Record ColumnPredicate := {
  predicate_type : PredicateType;
  raw_lower : raw;
  raw_values : list raw
}.

Record EncodedKey := {
  encoded_key : bytes;
  raw_keys : list raw
}.

Record ScanSpec := {
  predicates : gmap string ColumnPredicate;
  lower_bound_key : option EncodedKey;
  exclusive_upper_bound_key : option EncodedKey;
  lower_bound_partition_key : bytes;
  exclusive_upper_bound_partition_key : bytes;
  CanShortCircuit : bool
}.

Module HashDimension.
Record t := {
  column_ids : list ColumnId;
  num_buckets : nat;
  seed : N
}.
End HashDimension.

Abbreviation HashSchema := (list HashDimension.t).

Module RangeSchema.
Record t := {
  column_ids : list ColumnId
}.
End RangeSchema.

Module RangeWithHashSchema.
Record t := {
  lower : bytes;
  upper : bytes;
  hash_schema : HashSchema
}.
End RangeWithHashSchema.

Record PartitionSchema := {
  hash_schema_ : HashSchema;
  range_schema_ : RangeSchema.t;
  ranges_with_hash_schemas_ : list RangeWithHashSchema.t
}.

(** A [ContiguousRow]: one cell per key column. *)
Abbreviation Row := (list raw).

Class Collaborators := {
  Schema : Type;
  (** [schema.num_key_columns()] *)
  num_key_columns : Schema -> nat;
  (** [schema.column_id(idx)] *)
  column_id : Schema -> nat -> ColumnId;
  (** [schema.find_column_by_id(id)]; [None] is [Schema::kColumnNotFound] *)
  find_column_by_id : Schema -> ColumnId -> option nat;
  (** [schema.column_by_id(id).name()] *)
  column_name : Schema -> ColumnId -> string;
  (** [GetKeyEncoder<string>(schema.column_by_id(id).type_info())
        .Encode(value, is_last, &buffer)]: the buffer after the call *)
  Encode : Schema -> ColumnId -> raw -> bool -> bytes -> bytes;
  (** [schema.column(idx).type_info()->IsMinValue(value)] *)
  IsMinValue : Schema -> nat -> raw -> bool;
  (** [key_util::EncodeKey(col_idxs, row, &buffer)]: the buffer after the call *)
  EncodeKey : Schema -> list nat -> Row -> bytes -> bytes;
  (** [key_util::IncrementPrimaryKey(&row, num_columns, &arena)]: the
      result and the row after the call *)
  IncrementPrimaryKey : Schema -> Row -> nat -> bool * Row;
  (** [key_util::PushLowerBoundKeyPredicates(col_idxs, predicates, &row, &arena)] *)
  PushLowerBoundKeyPredicates :
    Schema -> list nat -> gmap string ColumnPredicate -> Row -> nat * Row;
  (** [key_util::PushUpperBoundKeyPredicates(col_idxs, predicates, &row, &arena)] *)
  PushUpperBoundKeyPredicates :
    Schema -> list nat -> gmap string ColumnPredicate -> Row -> nat * Row;
  (** [PartitionSchema::HashValueForEncodedColumns(encoded, hash_dimension)] *)
  HashValueForEncodedColumns : bytes -> HashDimension.t -> nat
}.

(** Modelled from the spec: the key encoder of [UINT32] (key_encoder.h), by
    which bucket numbers enter a partition key, appends the value as four
    bytes, big-endian. *)
Definition byte_of_N (n : N) : byte :=
  match Byte.of_N (n mod 256) with
  | Some b => b
  | None => x00
  end.

Definition be32 (v : N) : bytes :=
  [byte_of_N (v / 16777216); byte_of_N (v / 65536); byte_of_N (v / 256); byte_of_N v].

Definition hash_encoder_Encode (v : N) (buffer : bytes) : bytes :=
  buffer ++ be32 v.

(** Arithmetic of [uint32_t]. *)
Definition uint32_add (a b : N) : N := (a + b) mod 4294967296.

Section Pruner.
Context `{C : Collaborators}.

(** *** The anonymous namespace *)

Fixpoint prefix_loop (schema : Schema) (col_idx : nat) (range_columns : list ColumnId) : bool :=
  match range_columns with
  | [] => true
  | id :: rest =>
      if negb (column_id schema col_idx =? id)%Z then false
      else prefix_loop schema (S col_idx) rest
  end.

Definition AreRangeColumnsPrefixOfPrimaryKey (schema : Schema) (range_columns : list ColumnId)
  : outcome bool :=
  if length range_columns <=? num_key_columns schema then
    Ok (prefix_loop schema 0 range_columns)
  else Fatal.

(** The [memcpy] loop: the cells [col_idxs] of [row] receive the raw values
    of [key]. *)
Fixpoint copy_cells (key : EncodedKey) (col_idxs : list nat) (row : Row) : outcome Row :=
  match col_idxs with
  | [] => Ok row
  | idx :: rest =>
      match raw_keys key !! idx with
      | None => Undefined
      | Some v => copy_cells key rest (<[idx := v]> row)
      end
  end.

(** The loop on [min_suffix], over the columns [idxs]. *)
Fixpoint min_suffix_loop (schema : Schema) (key : EncodedKey) (idxs : list nat)
    (min_suffix : bool) : outcome bool :=
  match idxs with
  | [] => Ok min_suffix
  | idx :: rest =>
      match raw_keys key !! idx with
      | None => Undefined
      | Some v => min_suffix_loop schema key rest (min_suffix && IsMinValue schema idx v)
      end
  end.

(** A row over a fresh buffer: the cells hold nothing yet. *)
Definition fresh_row (schema : Schema) : Row :=
  replicate (num_key_columns schema) [].

(** The result is the pair of [*range_key_start] and [*range_key_end] after
    the call.  [Init] calls the function with at most as many range columns
    as there are key columns, so the cells that [memcpy] writes exist. *)
Definition EncodeRangeKeysFromPrimaryKeyBounds (schema : Schema) (scan_spec : ScanSpec)
    (num_range_columns : nat) (range_key_start range_key_end : bytes)
  : outcome (bytes * bytes) :=
  match lower_bound_key scan_spec, exclusive_upper_bound_key scan_spec with
  | None, None => Ok (range_key_start, range_key_end)
  | lo, up =>
      if num_range_columns =? num_key_columns schema then
        let range_key_start :=
          match lo with Some key => encoded_key key | None => range_key_start end in
        let range_key_end :=
          match up with Some key => encoded_key key | None => range_key_end end in
        Ok (range_key_start, range_key_end)
      else
        let col_idxs := seq 0 num_range_columns in
        let row := fresh_row schema in
        st <-- match lo with
               | Some key =>
                   row <-- copy_cells key col_idxs row ;;
                   Ok (row, EncodeKey schema col_idxs row range_key_start)
               | None => Ok (row, range_key_start)
               end ;;
        let '(row, range_key_start) := st in
        match up with
        | Some key =>
            row <-- copy_cells key col_idxs row ;;
            min_suffix <-- min_suffix_loop schema key
                             (seq num_range_columns
                                  (num_key_columns schema - num_range_columns)) true ;;
            if negb min_suffix then
              let '(incremented, row) := IncrementPrimaryKey schema row num_range_columns in
              if negb incremented then Ok (range_key_start, range_key_end)
              else Ok (range_key_start, EncodeKey schema col_idxs row range_key_end)
            else Ok (range_key_start, EncodeKey schema col_idxs row range_key_end)
        | None => Ok (range_key_start, range_key_end)
        end
  end.

Fixpoint find_col_idxs (schema : Schema) (range_columns : list ColumnId) (col_idxs : list nat)
  : outcome (list nat) :=
  match range_columns with
  | [] => Ok col_idxs
  | column :: rest =>
      match find_column_by_id schema column with
      | None => Fatal
      | Some col_idx =>
          if col_idx <? num_key_columns schema then
            find_col_idxs schema rest (col_idxs ++ [col_idx])
          else Fatal
      end
  end.

Definition EncodeRangeKeysFromPredicates (schema : Schema)
    (predicates : gmap string ColumnPredicate) (range_columns : list ColumnId)
    (range_key_start range_key_end : bytes) : outcome (bytes * bytes) :=
  col_idxs <-- find_col_idxs schema range_columns [] ;;
  let row := fresh_row schema in
  let '(pushed, row) := PushLowerBoundKeyPredicates schema col_idxs predicates row in
  let range_key_start :=
    if 0 <? pushed then EncodeKey schema col_idxs row range_key_start else range_key_start in
  let '(pushed, row) := PushUpperBoundKeyPredicates schema col_idxs predicates row in
  let range_key_end :=
    if 0 <? pushed then EncodeKey schema col_idxs row range_key_end else range_key_end in
  Ok (range_key_start, range_key_end).

(** *** [PruneHashComponent] *)

(** The values of an equality or in-list predicate; [CHECK] fails on any
    other kind. *)
Definition predicate_values (predicate : ColumnPredicate) : outcome (list raw) :=
  match predicate_type predicate with
  | Equality => Ok [raw_lower predicate]
  | InList => Ok (raw_values predicate)
  | _ => Fatal
  end.

(** The two nested loops that replicate every encoded string by the values
    of the predicate. *)
Definition replicate_encoded (schema : Schema) (id : ColumnId) (is_last : bool)
    (encoded_strings : list bytes) (values : list raw) : list bytes :=
  flat_map (fun encoded_string =>
              map (fun predicate_value => Encode schema id predicate_value is_last encoded_string)
                  values)
           encoded_strings.

(** The loop over [hash_dimension.column_ids], from offset [col_offset]. *)
Fixpoint column_loop (schema : Schema) (scan_spec : ScanSpec) (num_columns col_offset : nat)
    (columns : list ColumnId) (encoded_strings : list bytes) : outcome (list bytes) :=
  match columns with
  | [] => Ok encoded_strings
  | id :: rest =>
      match predicates scan_spec !! column_name schema id with
      | None => Fatal
      | Some predicate =>
          values <-- predicate_values predicate ;;
          column_loop schema scan_spec num_columns (S col_offset) rest
            (replicate_encoded schema id (col_offset + 1 =? num_columns) encoded_strings values)
      end
  end.

(** The loop that sets [hash_bucket_bitset[hash_value]]; the index is not
    checked by the code. *)
Fixpoint set_buckets (hash_dimension : HashDimension.t) (encoded_strings : list bytes)
    (hash_bucket_bitset : list bool) : outcome (list bool) :=
  match encoded_strings with
  | [] => Ok hash_bucket_bitset
  | encoded_string :: rest =>
      let hash_value := HashValueForEncodedColumns encoded_string hash_dimension in
      if hash_value <? length hash_bucket_bitset then
        set_buckets hash_dimension rest (<[hash_value := true]> hash_bucket_bitset)
      else Undefined
  end.

Definition PruneHashComponent (hash_dimension : HashDimension.t) (schema : Schema)
    (scan_spec : ScanSpec) : outcome (list bool) :=
  let hash_bucket_bitset := replicate (HashDimension.num_buckets hash_dimension) false in
  encoded_strings <-- column_loop schema scan_spec
                        (length (HashDimension.column_ids hash_dimension)) 0
                        (HashDimension.column_ids hash_dimension) [[]] ;;
  set_buckets hash_dimension encoded_strings hash_bucket_bitset.

(** *** [ConstructPartitionKeyRanges] *)

(** The test under which the loop on [can_prune] does not [break]. *)
Definition has_value_predicate (schema : Schema) (scan_spec : ScanSpec) (id : ColumnId) : bool :=
  match predicates scan_spec !! column_name schema id with
  | None => false
  | Some predicate =>
      match predicate_type predicate with
      | Equality | InList => true
      | _ => false
      end
  end.

Fixpoint bitsets_loop (schema : Schema) (scan_spec : ScanSpec) (hash_schema : HashSchema)
    (hash_bucket_bitsets : list (list bool)) : outcome (list (list bool)) :=
  match hash_schema with
  | [] => Ok hash_bucket_bitsets
  | hash_dimension :: rest =>
      let can_prune :=
        forallb (has_value_predicate schema scan_spec)
                (HashDimension.column_ids hash_dimension) in
      if can_prune then
        hash_bucket_bitset <-- PruneHashComponent hash_dimension schema scan_spec ;;
        bitsets_loop schema scan_spec rest (hash_bucket_bitsets ++ [hash_bucket_bitset])
      else
        bitsets_loop schema scan_spec rest
          (hash_bucket_bitsets ++ [replicate (HashDimension.num_buckets hash_dimension) true])
  end.

(** [std::find(x.begin(), x.end(), false) != x.end()] *)
Definition has_cleared_bit (x : list bool) : bool := existsb negb x.

(** [distance(rbegin, find_if(rbegin, rend, ...))] over the sequence read
    from [rbegin]. *)
Fixpoint distance_find_if (rs : list (list bool)) : nat :=
  match rs with
  | [] => 0
  | x :: rest => if has_cleared_bit x then 0 else S (distance_find_if rest)
  end.

Definition constrained_index_of (range_bounds : RangeBounds)
    (hash_bucket_bitsets : list (list bool)) (hash_schema_size : nat) : nat :=
  if negb (str_empty (lower range_bounds)) || negb (str_empty (upper range_bounds)) then
    hash_schema_size
  else hash_schema_size - distance_find_if (rev hash_bucket_bitsets).

(** The loop over [bucket]; [buckets_bitset] is what remains of the bitset
    from position [bucket] on.  A bitset has [num_buckets] bits, a 32-bit
    count, so the counter itself does not wrap. *)
Fixpoint bucket_loop (is_last : bool) (partition_key_range : PartitionKeyRange)
    (buckets_bitset : list bool) (bucket : N)
    (new_partition_key_ranges : list PartitionKeyRange) : list PartitionKeyRange :=
  match buckets_bitset with
  | [] => new_partition_key_ranges
  | bit :: rest =>
      if negb bit then
        bucket_loop is_last partition_key_range rest (bucket + 1) new_partition_key_ranges
      else
        let bucket_upper := if is_last then uint32_add bucket 1 else bucket in
        let lower := hash_encoder_Encode bucket (start partition_key_range) in
        let upper := hash_encoder_Encode bucket_upper (end_ partition_key_range) in
        bucket_loop is_last partition_key_range rest (bucket + 1)
          (new_partition_key_ranges ++ [{| start := lower; end_ := upper |}])
  end.

(** The loop over the working set [partition_key_ranges]. *)
Fixpoint ranges_loop (is_last : bool) (buckets_bitset : list bool)
    (partition_key_ranges new_partition_key_ranges : list PartitionKeyRange)
  : list PartitionKeyRange :=
  match partition_key_ranges with
  | [] => new_partition_key_ranges
  | partition_key_range :: rest =>
      ranges_loop is_last buckets_bitset rest
        (bucket_loop is_last partition_key_range buckets_bitset 0 new_partition_key_ranges)
  end.

Definition is_last_component (range_bounds : RangeBounds) (constrained_index hash_idx : nat)
  : bool :=
  (hash_idx + 1 =? constrained_index) && str_empty (upper range_bounds).

(** The loop over [hash_idx < constrained_index]; [bitsets] is what remains
    of [hash_bucket_bitsets] from position [hash_idx] on, and
    [constrained_index] is at most the number of bitsets. *)
Fixpoint hash_loop (range_bounds : RangeBounds) (constrained_index hash_idx : nat)
    (bitsets : list (list bool)) (partition_key_ranges : list PartitionKeyRange)
  : list PartitionKeyRange :=
  match bitsets with
  | [] => partition_key_ranges
  | buckets_bitset :: rest =>
      if hash_idx <? constrained_index then
        let is_last := is_last_component range_bounds constrained_index hash_idx in
        hash_loop range_bounds constrained_index (S hash_idx) rest
          (ranges_loop is_last buckets_bitset partition_key_ranges [])
      else partition_key_ranges
  end.

Definition append_range_bounds (range_bounds : RangeBounds) (range : PartitionKeyRange)
  : PartitionKeyRange :=
  {| start := start range ++ lower range_bounds; end_ := end_ range ++ upper range_bounds |}.

(** The loop that removes the ranges past the scan's upper bound partition
    key, from [rbegin()] to [rend()]; [n] and [pop_back] are as in
    [remove_loop]. *)
Fixpoint trim_loop (bound : bytes) (n : nat) (v : list PartitionKeyRange)
  : list PartitionKeyRange :=
  match n with
  | 0 => v
  | S i =>
      match v !! i with
      | None => v
      | Some range =>
          if negb (str_empty (end_ range)) && str_ge bound (end_ range) then v
          else if str_le bound (start range) then trim_loop bound i (removelast v)
          else trim_loop bound i (<[i := {| start := start range; end_ := bound |}]> v)
      end
  end.

Definition ConstructPartitionKeyRanges (schema : Schema) (scan_spec : ScanSpec)
    (hash_schema : HashSchema) (range_bounds : RangeBounds)
  : outcome (list PartitionKeyRange) :=
  hash_bucket_bitsets <-- bitsets_loop schema scan_spec hash_schema [] ;;
  let constrained_index :=
    constrained_index_of range_bounds hash_bucket_bitsets (length hash_schema) in
  let partition_key_ranges :=
    hash_loop range_bounds constrained_index 0 hash_bucket_bitsets
              [{| start := []; end_ := [] |}] in
  let partition_key_ranges := map (append_range_bounds range_bounds) partition_key_ranges in
  let bound := exclusive_upper_bound_partition_key scan_spec in
  if negb (str_empty bound) then
    Ok (trim_loop bound (length partition_key_ranges) partition_key_ranges)
  else Ok partition_key_ranges.

(** *** [Init] *)

(** The first part of [Init]: [scan_range_lower_bound] and
    [scan_range_upper_bound]. *)
Definition scan_range_bounds (schema : Schema) (partition_schema : PartitionSchema)
    (scan_spec : ScanSpec) : outcome (bytes * bytes) :=
  let range_columns := RangeSchema.column_ids (range_schema_ partition_schema) in
  match range_columns with
  | [] => Ok ([], [])
  | _ :: _ =>
      is_prefix <-- AreRangeColumnsPrefixOfPrimaryKey schema range_columns ;;
      if is_prefix then
        EncodeRangeKeysFromPrimaryKeyBounds schema scan_spec (length range_columns) [] []
      else
        EncodeRangeKeysFromPredicates schema (predicates scan_spec) range_columns [] []
  end.

(** Whether the loop over [ranges_with_hash_schemas_] stores [range]. *)
Definition range_is_stored (scan_range_lower_bound scan_range_upper_bound : bytes)
    (range : RangeWithHashSchema.t) : bool :=
  if str_empty scan_range_lower_bound && str_empty scan_range_upper_bound then true
  else if str_empty scan_range_lower_bound then
    if str_gt scan_range_upper_bound (RangeWithHashSchema.lower range) then true else false
  else if str_empty scan_range_upper_bound then
    if str_empty (RangeWithHashSchema.upper range) ||
       str_lt scan_range_lower_bound (RangeWithHashSchema.upper range) then true else false
  else
    if (str_empty (RangeWithHashSchema.upper range) ||
        str_lt scan_range_lower_bound (RangeWithHashSchema.upper range)) &&
       str_gt scan_range_upper_bound (RangeWithHashSchema.lower range) then true else false.

Fixpoint store_loop (scan_range_lower_bound scan_range_upper_bound : bytes)
    (ranges : list RangeWithHashSchema.t)
    (range_bounds : list RangeBounds) (hash_schemas_per_range : list HashSchema)
  : list RangeBounds * list HashSchema :=
  match ranges with
  | [] => (range_bounds, hash_schemas_per_range)
  | range :: rest =>
      if range_is_stored scan_range_lower_bound scan_range_upper_bound range then
        store_loop scan_range_lower_bound scan_range_upper_bound rest
          (range_bounds ++ [{| lower := RangeWithHashSchema.lower range;
                               upper := RangeWithHashSchema.upper range |}])
          (hash_schemas_per_range ++ [RangeWithHashSchema.hash_schema range])
      else
        store_loop scan_range_lower_bound scan_range_upper_bound rest
          range_bounds hash_schemas_per_range
  end.

(** The loop over [i < hash_schemas_per_range.size()]: the two vectors have
    the same size and are read side by side. *)
Fixpoint construct_loop (schema : Schema) (scan_spec : ScanSpec)
    (scan_range_lower_bound scan_range_upper_bound : bytes)
    (range_bounds : list RangeBounds) (hash_schemas_per_range : list HashSchema)
  : outcome pruner :=
  match hash_schemas_per_range, range_bounds with
  | hash_schema :: hash_schemas, range_bounds_i :: bounds_rest =>
      let bounds :=
        if str_empty scan_range_lower_bound && str_empty scan_range_upper_bound then
          {| lower := lower range_bounds_i; upper := upper range_bounds_i |}
        else {| lower := scan_range_lower_bound; upper := scan_range_upper_bound |} in
      partition_key_ranges <-- ConstructPartitionKeyRanges schema scan_spec hash_schema bounds ;;
      rest <-- construct_loop schema scan_spec scan_range_lower_bound scan_range_upper_bound
                 bounds_rest hash_schemas ;;
      Ok ({| range_bounds := range_bounds_i;
             partition_key_ranges := rev partition_key_ranges |} :: rest)
  | _, _ => Ok []
  end.

(** [Init] on a freshly constructed pruner: the result is the member
    [range_bounds_to_partition_key_ranges_] after the call. *)
Definition Init (schema : Schema) (partition_schema : PartitionSchema) (scan_spec : ScanSpec)
  : outcome pruner :=
  if CanShortCircuit scan_spec then Ok []
  else
    bounds <-- scan_range_bounds schema partition_schema scan_spec ;;
    let '(scan_range_lower_bound, scan_range_upper_bound) := bounds in
    p <-- match ranges_with_hash_schemas_ partition_schema with
          | [] =>
              partition_key_ranges <--
                ConstructPartitionKeyRanges schema scan_spec (hash_schema_ partition_schema)
                  {| lower := scan_range_lower_bound; upper := scan_range_upper_bound |} ;;
              Ok [{| range_bounds := {| lower := []; upper := [] |};
                     partition_key_ranges := rev partition_key_ranges |}]
          | ranges =>
              let '(range_bounds, hash_schemas_per_range) :=
                store_loop scan_range_lower_bound scan_range_upper_bound ranges [] [] in
              construct_loop schema scan_spec scan_range_lower_bound scan_range_upper_bound
                range_bounds hash_schemas_per_range
          end ;;
    if negb (str_empty (lower_bound_partition_key scan_spec)) then
      Ok (RemovePartitionKeyRange (lower_bound_partition_key scan_spec) p)
    else Ok p.

End Pruner.

(** ** Reading the cursor

    The ranges of an element in ascending order, and the whole cursor in
    that order. *)

Definition ascending_ranges (b : RangeBoundsAndPartitionKeyRanges) : list PartitionKeyRange :=
  rev (partition_key_ranges b).

Definition cursor_ranges (p : pruner) : list PartitionKeyRange :=
  flat_map ascending_ranges p.

(** [all_pairs R l]: [R x y] holds whenever [x] comes before [y] in [l]. *)
Fixpoint all_pairs {A : Type} (R : A -> A -> bool) (l : list A) : bool :=
  match l with
  | [] => true
  | x :: rest => forallb (R x) rest && all_pairs R rest
  end.

(** [starts_ascending l]: the [start] keys of [l] increase strictly. *)
Definition starts_ascending (l : list PartitionKeyRange) : bool :=
  all_pairs (fun r r' => str_lt (start r) (start r')) l.

(** [range_before r r']: [r] is bounded, ends no later than [r'] starts and
    starts before it. *)
Definition range_before (r r' : PartitionKeyRange) : bool :=
  negb (str_empty (end_ r)) && str_le (end_ r) (start r') && str_lt (start r) (start r').

(** [ranges_sorted l]: the ranges of [l] are disjoint and in ascending
    order. *)
Definition ranges_sorted (l : list PartitionKeyRange) : bool :=
  all_pairs range_before l.

(** The invariant of the cursor: in every element the ranges, read in
    ascending order, are disjoint and sorted. *)
Definition cursor_sorted (p : pruner) : bool :=
  forallb (fun b => ranges_sorted (ascending_ranges b)) p.

(** Bucket counts are 32-bit. *)
Definition buckets_fit (hash_schema : HashSchema) : Prop :=
  Forall (fun d => (N.of_nat (HashDimension.num_buckets d) < 4294967296)%N) hash_schema.

Definition partition_schema_fits (partition_schema : PartitionSchema) : Prop :=
  buckets_fit (hash_schema_ partition_schema) /\
  Forall (fun r => buckets_fit (RangeWithHashSchema.hash_schema r))
         (ranges_with_hash_schemas_ partition_schema).

(** ** The operations as the specification words them *)

(** [next]: the [start] of the last range of the last non-empty element. *)
Definition next_spec (p : pruner) : option bytes :=
  match last (filter (fun b => partition_key_ranges b <> []) p) with
  | Some b => start <$> last (partition_key_ranges b)
  | None => None
  end.

(** [advance_past] on the ranges of one element, smallest [start] first. *)
Fixpoint advance_ranges_spec (upper : bytes) (ranges : list PartitionKeyRange)
  : list PartitionKeyRange :=
  match ranges with
  | [] => []
  | range :: rest =>
      if str_le upper (start range) then range :: rest
      else if str_empty (end_ range) || str_lt upper (end_ range) then
        {| start := upper; end_ := end_ range |} :: rest
      else advance_ranges_spec upper rest
  end.

Definition advance_past_spec (upper : bytes) (p : pruner) : pruner :=
  if str_empty upper then []
  else
    map (fun b => {| range_bounds := range_bounds b;
                     partition_key_ranges :=
                       rev (advance_ranges_spec upper (ascending_ranges b)) |}) p.

(** [should_prune]: when an element is skipped, and when it keeps the
    partition alive. *)
Definition bucket_skipped (b : RangeBoundsAndPartitionKeyRanges) (P : Partition) : Prop :=
  (lower (range_bounds b) <> [] /\ range_key_start P <> lower (range_bounds b)) /\
  (upper (range_bounds b) <> [] /\ range_key_end P <> upper (range_bounds b)).

Definition bucket_keeps_alive (b : RangeBoundsAndPartitionKeyRanges) (P : Partition) : Prop :=
  exists range,
    ascending_ranges b !! lower_bound (ascending_ranges b) (scan_range_before P) = Some range /\
    (end_ range = [] \/ str_lt (partition_key_start P) (end_ range) = true) /\
    (partition_key_end P = [] \/ str_lt (start range) (partition_key_end P) = true).

(** [intersects r P]: the range [r] and the partition [P] have a key in
    common, an empty end being unbounded. *)
Definition intersects (r : PartitionKeyRange) (P : Partition) : Prop :=
  (end_ r = [] \/ str_lt (partition_key_start P) (end_ r) = true) /\
  (partition_key_end P = [] \/ str_lt (start r) (partition_key_end P) = true).

(** The range that the binary search of [should_prune] finds: the first
    range, in ascending order, whose [end] is empty or greater than the
    start of the partition. *)
Definition first_not_before (P : Partition) (ranges : list PartitionKeyRange)
  : option PartitionKeyRange :=
  List.find (fun r => str_empty (end_ r) || str_lt (partition_key_start P) (end_ r)) ranges.

(** An element keeps the partition alive when the search finds a range
    and the end of the partition is empty or greater than the [start] of
    that range. *)
Definition keeps_alive_spec (b : RangeBoundsAndPartitionKeyRanges) (P : Partition) : Prop :=
  exists range,
    first_not_before P (ascending_ranges b) = Some range /\
    (partition_key_end P = [] \/ str_lt (start range) (partition_key_end P) = true).

(** [proper_range r]: [r] is unbounded or starts before it ends. *)
Definition proper_range (r : PartitionKeyRange) : bool :=
  str_empty (end_ r) || str_lt (start r) (end_ r).

(** The buckets of a bitset that survive, in ascending order from [bucket]. *)
Fixpoint surviving_buckets (buckets_bitset : list bool) (bucket : N) : list N :=
  match buckets_bitset with
  | [] => []
  | bit :: rest =>
      if bit then bucket :: surviving_buckets rest (bucket + 1)
      else surviving_buckets rest (bucket + 1)
  end.

(** One step of the cross-product enumeration, for the hash dimension [i]
    of [C] constrained ones, [ru] being the upper range bound. *)
Definition cross_product_spec (i C : nat) (ru : bytes) (buckets_bitset : list bool)
    (ranges : list PartitionKeyRange) : list PartitionKeyRange :=
  flat_map (fun r =>
              map (fun b =>
                     let b_upper := if (i =? C - 1) && str_empty ru then (b + 1)%N else b in
                     {| start := start r ++ be32 b; end_ := end_ r ++ be32 b_upper |})
                  (surviving_buckets buckets_bitset 0))
           ranges.

(** The cross-product enumeration: from the working set [ranges], the
    steps for the hash dimensions [i] in [[0, C)] in turn, [B] holding the
    bitsets of the hash dimensions. *)
Definition enumeration_spec (C : nat) (ru : bytes) (B : list (list bool))
    (ranges : list PartitionKeyRange) : list PartitionKeyRange :=
  fold_left (fun working i =>
               match B !! i with
               | Some buckets_bitset => cross_product_spec i C ru buckets_bitset working
               | None => working
               end)
            (seq 0 C) ranges.

(** The overlap test of a range segment against the scan's range bounds. *)
Definition segment_included_spec (range_lower range_upper : bytes)
    (seg : RangeWithHashSchema.t) : bool :=
  let seg_lower := RangeWithHashSchema.lower seg in
  let seg_upper := RangeWithHashSchema.upper seg in
  match range_lower, range_upper with
  | [], [] => true
  | [], _ :: _ => str_gt range_upper seg_lower
  | _ :: _, [] => str_empty seg_upper || str_lt range_lower seg_upper
  | _ :: _, _ :: _ =>
      (str_empty seg_upper || str_lt range_lower seg_upper) && str_gt range_upper seg_lower
  end.

Definition segment_bounds (seg : RangeWithHashSchema.t) : RangeBounds :=
  {| lower := RangeWithHashSchema.lower seg; upper := RangeWithHashSchema.upper seg |}.

(** The intersection of two range bounds, an empty bound being unbounded. *)
Definition intersect_bounds (a b : RangeBounds) : RangeBounds :=
  {| lower := if str_lt (lower a) (lower b) then lower b else lower a;
     upper := if str_empty (upper a) then upper b
              else if str_empty (upper b) then upper a
              else if str_lt (upper a) (upper b) then upper a else upper b |}.

(** ** Auxiliary notions for the proofs *)

(** The [n] low-order base-256 digits of [v], most significant first. *)
Fixpoint be_digits (n : nat) (v : N) : bytes :=
  match n with
  | 0 => []
  | S n' => be_digits n' (v / 256) ++ [byte_of_N v]
  end.

(** The range that the enumeration makes of [r] and the bucket [b]. *)
Definition extend_range (is_last : bool) (r : PartitionKeyRange) (b : N) : PartitionKeyRange :=
  {| start := start r ++ be32 b;
     end_ := end_ r ++ be32 (if is_last then uint32_add b 1 else b) |}.

(** [point_ranges n l]: the ranges of [l] are points, [start] and [end]
    being the same key of [n] bytes, in strictly ascending order. *)
Definition point_ranges (n : nat) (l : list PartitionKeyRange) : Prop :=
  Forall (fun r => end_ r = start r /\ length (start r) = n) l /\
  starts_ascending l = true.

(** [end_before r r']: [r'] is unbounded or ends no earlier than [r]. *)
Definition end_before (r r' : PartitionKeyRange) : bool :=
  str_empty (end_ r') || str_le (end_ r) (end_ r').

(** [ends_ascending l]: the [end] keys of [l] do not decrease, an empty
    one being the greatest. *)
Definition ends_ascending (l : list PartitionKeyRange) : bool :=
  all_pairs end_before l.

Definition cursor_ends_ascending (p : pruner) : bool :=
  forallb (fun b => ends_ascending (ascending_ranges b)) p.

(** The bounds that [Init] gives to [ConstructPartitionKeyRanges] for a
    range segment, as the code has them ([bounds_used]) and as the
    intersection of the scan's bounds with the segment's ([bounds_intersected]). *)
Definition bounds_used (scan_lower scan_upper : bytes) (seg : RangeWithHashSchema.t)
  : RangeBounds :=
  if str_empty scan_lower && str_empty scan_upper then segment_bounds seg
  else {| lower := scan_lower; upper := scan_upper |}.

Definition bounds_intersected (scan_lower scan_upper : bytes) (seg : RangeWithHashSchema.t)
  : RangeBounds :=
  if str_empty scan_lower && str_empty scan_upper then segment_bounds seg
  else intersect_bounds {| lower := scan_lower; upper := scan_upper |} (segment_bounds seg).

(** The runs of a scanner: [scan_trace p keys] when [keys] are the keys
    that successive calls of [NextPartitionKey] return from the cursor [p],
    each call being followed by [RemovePartitionKeyRange] of a key greater
    than the one returned. *)
Inductive scan_trace : pruner -> list bytes -> Prop :=
| scan_trace_nil (p : pruner) : scan_trace p []
| scan_trace_step (p : pruner) (key upper_bound : bytes) (keys : list bytes) :
    NextPartitionKey p = Ok key ->
    str_lt key upper_bound = true ->
    scan_trace (RemovePartitionKeyRange upper_bound p) keys ->
    scan_trace p (key :: keys).

Section InitSpec.
Context `{C : Collaborators}.

(** [built_from schema scan_spec bounds b seg]: the element [b] of the
    cursor carries the bounds of the segment [seg] and the ranges that
    [ConstructPartitionKeyRanges] builds with the segment's hash schema and
    the range bounds [bounds seg], reversed. *)
Definition built_from (schema : Schema) (scan_spec : ScanSpec)
    (bounds : RangeWithHashSchema.t -> RangeBounds)
    (b : RangeBoundsAndPartitionKeyRanges) (seg : RangeWithHashSchema.t) : Prop :=
  range_bounds b = segment_bounds seg /\
  exists v,
    ConstructPartitionKeyRanges schema scan_spec (RangeWithHashSchema.hash_schema seg)
      (bounds seg) = Ok v /\
    partition_key_ranges b = rev v.

(** [init_builds bounds ... p]: [p] is the cursor made of the included
    segments, each built with the bounds [bounds], and then trimmed to the
    scan's lower bound partition key. *)
Definition init_builds (bounds : bytes -> bytes -> RangeWithHashSchema.t -> RangeBounds)
    (schema : Schema) (partition_schema : PartitionSchema) (scan_spec : ScanSpec)
    (scan_lower scan_upper : bytes) (p : pruner) : Prop :=
  exists p0,
    Forall2 (built_from schema scan_spec (bounds scan_lower scan_upper)) p0
      (List.filter (segment_included_spec scan_lower scan_upper)
         (ranges_with_hash_schemas_ partition_schema)) /\
    p = if negb (str_empty (lower_bound_partition_key scan_spec))
        then RemovePartitionKeyRange (lower_bound_partition_key scan_spec) p0
        else p0.

(** The hash values of the dimensions of [hash_schema] are bucket numbers. *)
Definition hash_in_range (hash_schema : HashSchema) : Prop :=
  forall d encoded, In d hash_schema ->
    HashValueForEncodedColumns encoded d < HashDimension.num_buckets d.

(** The states of a pruner: the cursor of a freshly constructed pruner is
    empty, [Init] is called on it once, and [RemovePartitionKeyRange] any
    number of times. *)
Inductive reachable : pruner -> Prop :=
| reachable_fresh : reachable []
| reachable_Init (schema : Schema) (partition_schema : PartitionSchema)
    (scan_spec : ScanSpec) (p : pruner) :
    partition_schema_fits partition_schema ->
    Init schema partition_schema scan_spec = Ok p ->
    reachable p
| reachable_Remove (upper_bound : bytes) (p : pruner) :
    reachable p -> reachable (RemovePartitionKeyRange upper_bound p).

(** The derivation of the upper range key from an exclusive upper primary
    key [key], for [k] range columns that are a proper prefix of the
    primary key: the row of the first [k] columns of [key]; whether the
    columns beyond the prefix all hold the minimum value of their type; and
    the upper range key, an empty key being no bound. *)
Definition prefix_row (schema : Schema) (k : nat) (key : EncodedKey) : Row :=
  take k (raw_keys key) ++ replicate (num_key_columns schema - k) [].

Definition suffix_is_min (schema : Schema) (k : nat) (key : EncodedKey) : bool :=
  forallb (fun idx => IsMinValue schema idx (nth idx (raw_keys key) []))
          (seq k (num_key_columns schema - k)).

Definition range_upper_spec (schema : Schema) (k : nat) (key : EncodedKey) : bytes :=
  if suffix_is_min schema k key then EncodeKey schema (seq 0 k) (prefix_row schema k key) []
  else
    match IncrementPrimaryKey schema (prefix_row schema k key) k with
    | (true, incremented) => EncodeKey schema (seq 0 k) incremented []
    | (false, _) => []
    end.

(** [not_key_column schema id]: the schema has no column [id], or the
    column is not a key column. *)
Definition not_key_column (schema : Schema) (id : ColumnId) : Prop :=
  match find_column_by_id schema id with
  | None => True
  | Some col_idx => num_key_columns schema <= col_idx
  end.

(** The combinations of the values of the predicates on the columns of a
    hash dimension: one value for each column, in the order of the
    columns. *)
Fixpoint value_combinations (values : list (list raw)) : list (list raw) :=
  match values with
  | [] => [[]]
  | column_values :: rest =>
      flat_map (fun v => map (cons v) (value_combinations rest)) column_values
  end.

(** The string that encodes a combination: its values are encoded one
    after another, each with the encoder of its column, the last column of
    the dimension being marked as such. *)
Fixpoint encode_combination (schema : Schema) (columns : list ColumnId)
    (combination : list raw) (buffer : bytes) : bytes :=
  match columns, combination with
  | id :: columns', v :: combination' =>
      encode_combination schema columns' combination'
        (Encode schema id v (match columns' with [] => true | _ :: _ => false end) buffer)
  | _, _ => buffer
  end.

(** [predicate_values_of schema scan_spec columns values]: every column of
    [columns] has an equality or in-list predicate, and [values] holds the
    values of these predicates, column by column. *)
Definition predicate_values_of (schema : Schema) (scan_spec : ScanSpec)
    (columns : list ColumnId) (values : list (list raw)) : Prop :=
  Forall2 (fun id column_values =>
             exists predicate,
               predicates scan_spec !! column_name schema id = Some predicate /\
               ((predicate_type predicate = Equality /\
                 column_values = [raw_lower predicate]) \/
                (predicate_type predicate = InList /\
                 column_values = raw_values predicate)))
          columns values.

End InitSpec.

(** The ranges of [ConstructPartitionKeyRanges] before the loop that trims
    them: the enumeration over the bitsets, and the range bounds appended. *)
Definition untrimmed_ranges (range_bounds : RangeBounds)
    (hash_bucket_bitsets : list (list bool)) (hash_schema_size : nat)
  : list PartitionKeyRange :=
  map (append_range_bounds range_bounds)
      (hash_loop range_bounds
         (constrained_index_of range_bounds hash_bucket_bitsets hash_schema_size) 0
         hash_bucket_bitsets [{| start := []; end_ := [] |}]).

(** [proper_bounds rb]: the range bounds [rb] have no upper bound or a
    lower bound that is smaller. *)
Definition proper_bounds (rb : RangeBounds) : Prop :=
  upper rb = [] \/ str_lt (lower rb) (upper rb) = true.

(** [cursor_proper p]: every range of the cursor is proper. *)
Definition cursor_proper (p : pruner) : bool :=
  forallb (fun b => forallb proper_range (ascending_ranges b)) p.

(** [below bound r]: the range [r] is bounded and lies below [bound]. *)
Definition below (bound : bytes) (r : PartitionKeyRange) : Prop :=
  str_lt (start r) bound = true /\ end_ r <> [] /\ str_le (end_ r) bound = true.

(** The number of buckets of a bitset that survive, and the product of
    these numbers over the first [n] bitsets. *)
Definition num_surviving (buckets_bitset : list bool) : nat :=
  length (surviving_buckets buckets_bitset 0).

Definition product (l : list nat) : nat := fold_right Nat.mul 1 l.

(** ** A small instance of the collaborators, for the examples

    A table whose key columns hold one byte each: a schema is its number of
    key columns, column [i] has identifier [i], a key is encoded by
    concatenating its cells, and every string hashes to bucket 0. *)
Module Example.

Definition is_min_value (v : raw) : bool :=
  forallb (fun b => (Byte.to_N b =? 0)%N) v.

Definition encode_key (col_idxs : list nat) (row : Row) (buffer : bytes) : bytes :=
  buffer ++ concat (map (fun idx => nth idx row []) col_idxs).

(** The successor of the cell [num_columns - 1], without carry. *)
Definition increment_key (row : Row) (num_columns : nat) : bool * Row :=
  match num_columns with
  | 0 => (false, row)
  | S j =>
      match row !! j with
      | Some [b] =>
          match Byte.of_N (Byte.to_N b + 1) with
          | Some b' => (true, <[j := [b']]> row)
          | None => (false, row)
          end
      | _ => (false, row)
      end
  end.

Definition table : Collaborators := {|
  Schema := nat;
  num_key_columns := fun schema => schema;
  column_id := fun _ idx => Z.of_nat idx;
  find_column_by_id := fun _ id => Some (Z.to_nat id);
  column_name := fun _ id => if (id =? 0)%Z then "a"%string else "b"%string;
  Encode := fun _ _ value _ buffer => buffer ++ value;
  IsMinValue := fun _ _ value => is_min_value value;
  EncodeKey := fun _ col_idxs row buffer => encode_key col_idxs row buffer;
  IncrementPrimaryKey := fun _ row num_columns => increment_key row num_columns;
  PushLowerBoundKeyPredicates := fun _ _ _ row => (0, row);
  PushUpperBoundKeyPredicates := fun _ _ _ row => (0, row);
  HashValueForEncodedColumns := fun _ _ => 0
|}.

Definition no_bounds : ScanSpec := {|
  predicates := ∅;
  lower_bound_key := None;
  exclusive_upper_bound_key := None;
  lower_bound_partition_key := [];
  exclusive_upper_bound_partition_key := [];
  CanShortCircuit := false
|}.

(** One hash dimension of two buckets on column 0. *)
Definition two_buckets : HashDimension.t :=
  {| HashDimension.column_ids := [0%Z]; HashDimension.num_buckets := 2;
     HashDimension.seed := 0%N |}.

(** Range partitioning on column 0, with the range segments [segments]. *)
Definition range_on_a (segments : list RangeWithHashSchema.t) : PartitionSchema :=
  {| hash_schema_ := [];
     range_schema_ := {| RangeSchema.column_ids := [0%Z] |};
     ranges_with_hash_schemas_ := segments |}.

Definition segment (lo up : bytes) (hash_schema : HashSchema) : RangeWithHashSchema.t :=
  {| RangeWithHashSchema.lower := lo; RangeWithHashSchema.upper := up;
     RangeWithHashSchema.hash_schema := hash_schema |}.

Definition range (s e : bytes) : PartitionKeyRange := {| start := s; end_ := e |}.

Definition element (lo up : bytes) (ranges : list PartitionKeyRange)
  : RangeBoundsAndPartitionKeyRanges :=
  {| range_bounds := {| lower := lo; upper := up |}; partition_key_ranges := ranges |}.

Definition key (cells : list raw) : EncodedKey :=
  {| encoded_key := concat cells; raw_keys := cells |}.

(** Two range segments, each hashed into two buckets. *)
Definition hashed_segments : PartitionSchema :=
  range_on_a [segment [x01] [x02] [two_buckets]; segment [x02] [x03] [two_buckets]].

(** Two range segments without hash dimensions. *)
Definition plain_segments : PartitionSchema :=
  range_on_a [segment [x01] [x02] []; segment [x02] [x03] []].

(** A scan that stops at the partition key [bound]. *)
Definition up_to (bound : bytes) : ScanSpec := {|
  predicates := ∅;
  lower_bound_key := None;
  exclusive_upper_bound_key := None;
  lower_bound_partition_key := [];
  exclusive_upper_bound_partition_key := bound;
  CanShortCircuit := false
|}.

(** A scan between two primary keys. *)
Definition between (lo up : EncodedKey) : ScanSpec := {|
  predicates := ∅;
  lower_bound_key := Some lo;
  exclusive_upper_bound_key := Some up;
  lower_bound_partition_key := [];
  exclusive_upper_bound_partition_key := [];
  CanShortCircuit := false
|}.

(** One hash dimension of two buckets and range partitioning on column 0. *)
Definition hashed_table : PartitionSchema :=
  {| hash_schema_ := [two_buckets];
     range_schema_ := {| RangeSchema.column_ids := [0%Z] |};
     ranges_with_hash_schemas_ := [] |}.

(** A partition with the range keys [rs], [re] and the partition keys
    [ps], [pe]. *)
Definition partition (rs re ps pe : bytes) : Partition :=
  {| range_key_start := rs; range_key_end := re;
     partition_key_start := ps; partition_key_end := pe |}.

(** The cursor after [Init] on [plain_segments] of a scan that stops at the
    partition key [02]: the ranges of the second segment are all trimmed. *)
Definition first_segment_only : pruner :=
  [element [x01] [x02] [range [x01] [x02]]; element [x02] [x03] []].

(** A cursor of one element with two sorted ranges, in storage order. *)
Definition two_ranges : pruner :=
  [element [] [] [range [x00; x00; x00; x01; x01] [x00; x00; x00; x01; x05];
                  range [x00; x00; x00; x00; x01] [x00; x00; x00; x00; x05]]].

(** A scan with the equality predicate [a = value] and no other
    constraint. *)
Definition a_equals (value : raw) : ScanSpec := {|
  predicates :=
    {[ "a"%string :=
         {| predicate_type := Equality; raw_lower := value; raw_values := [] |} ]};
  lower_bound_key := None;
  exclusive_upper_bound_key := None;
  lower_bound_partition_key := [];
  exclusive_upper_bound_partition_key := [];
  CanShortCircuit := false
|}.

(** A scan between two partition keys. *)
Definition from_to (lo up : bytes) : ScanSpec := {|
  predicates := ∅;
  lower_bound_key := None;
  exclusive_upper_bound_key := None;
  lower_bound_partition_key := lo;
  exclusive_upper_bound_partition_key := up;
  CanShortCircuit := false
|}.

(** A scan with the in-list predicate [a IN values] and no other
    constraint. *)
Definition a_in (values : list raw) : ScanSpec := {|
  predicates :=
    {[ "a"%string :=
         {| predicate_type := InList; raw_lower := []; raw_values := values |} ]};
  lower_bound_key := None;
  exclusive_upper_bound_key := None;
  lower_bound_partition_key := [];
  exclusive_upper_bound_partition_key := [];
  CanShortCircuit := false
|}.

(** One hash dimension of three buckets on column 0. *)
Definition three_buckets : HashDimension.t :=
  {| HashDimension.column_ids := [0%Z]; HashDimension.num_buckets := 3;
     HashDimension.seed := 0%N |}.

(** Two range segments, the first hashed into three buckets and the second
    into two. *)
Definition uneven_segments : PartitionSchema :=
  range_on_a [segment [x01] [x02] [three_buckets]; segment [x02] [x03] [two_buckets]].

(** The table [table] with another hash function: a string hashes to the
    value of its first byte, modulo the number of buckets. *)
Definition first_byte_hash (encoded : bytes) (hash_dimension : HashDimension.t) : nat :=
  match encoded with
  | [] => 0
  | b :: _ => N.to_nat (Byte.to_N b) mod HashDimension.num_buckets hash_dimension
  end.

Definition hashing_table : Collaborators := {|
  Schema := nat;
  num_key_columns := fun schema => schema;
  column_id := fun _ idx => Z.of_nat idx;
  find_column_by_id := fun _ id => Some (Z.to_nat id);
  column_name := fun _ id => if (id =? 0)%Z then "a"%string else "b"%string;
  Encode := fun _ _ value _ buffer => buffer ++ value;
  IsMinValue := fun _ _ value => is_min_value value;
  EncodeKey := fun _ col_idxs row buffer => encode_key col_idxs row buffer;
  IncrementPrimaryKey := fun _ row num_columns => increment_key row num_columns;
  PushLowerBoundKeyPredicates := fun _ _ _ row => (0, row);
  PushUpperBoundKeyPredicates := fun _ _ _ row => (0, row);
  HashValueForEncodedColumns := first_byte_hash
|}.

End Example.

(** * Properties *)

(** ** The order of byte strings *)

Lemma to_N_inj (x y : byte) : Byte.to_N x = Byte.to_N y -> x = y.
Proof.
  intros H. pose proof (Byte.of_to_N x) as Hx. rewrite H, Byte.of_to_N in Hx.
  congruence.
Qed.

Lemma str_compare_refl (a : bytes) : str_compare a a = Eq.
Proof.
  induction a as [|x a IH]; simpl; [reflexivity|].
  rewrite N.compare_refl. exact IH.
Qed.

Lemma str_compare_eq (a b : bytes) : str_compare a b = Eq -> a = b.
Proof.
  revert b. induction a as [|x a IH]; intros [|y b]; simpl; try congruence.
  destruct (N.compare_spec (Byte.to_N x) (Byte.to_N y)) as [E| |]; try congruence.
  intros H. apply to_N_inj in E. f_equal; [exact E|]. apply IH, H.
Qed.

Lemma str_compare_antisym (a b : bytes) : str_compare b a = CompOpp (str_compare a b).
Proof.
  revert b. induction a as [|x a IH]; intros [|y b]; simpl; try reflexivity.
  rewrite (N.compare_antisym (Byte.to_N x) (Byte.to_N y)).
  destruct (Byte.to_N x ?= Byte.to_N y)%N; simpl; auto.
Qed.

Lemma str_compare_lt_trans (a b c : bytes) :
  str_compare a b = Lt -> str_compare b c = Lt -> str_compare a c = Lt.
Proof.
  revert b c. induction a as [|x a IH]; intros [|y b] [|z c]; simpl; try congruence.
  destruct (N.compare_spec (Byte.to_N x) (Byte.to_N y)) as [E|L|G]; try congruence;
    destruct (N.compare_spec (Byte.to_N y) (Byte.to_N z)) as [E'|L'|G']; try congruence;
    intros H1 H2.
  - rewrite E, E', N.compare_refl. eauto.
  - rewrite E. apply N.compare_lt_iff in L'. rewrite L'. reflexivity.
  - rewrite <- E'. apply N.compare_lt_iff in L. rewrite L. reflexivity.
  - assert (Byte.to_N x < Byte.to_N z)%N as L'' by lia.
    apply N.compare_lt_iff in L''. rewrite L''. reflexivity.
Qed.

Lemma str_gt_lt (a b : bytes) : str_gt a b = str_lt b a.
Proof.
  unfold str_gt, str_lt. rewrite (str_compare_antisym a b).
  destruct (str_compare a b); reflexivity.
Qed.

Lemma str_ge_le (a b : bytes) : str_ge a b = str_le b a.
Proof.
  unfold str_ge, str_le. rewrite (str_compare_antisym a b).
  destruct (str_compare a b); reflexivity.
Qed.

Lemma str_le_not_lt (a b : bytes) : str_le a b = negb (str_lt b a).
Proof.
  unfold str_le, str_lt. rewrite (str_compare_antisym a b).
  destruct (str_compare a b); reflexivity.
Qed.

Lemma str_lt_irrefl (a : bytes) : str_lt a a = false.
Proof. unfold str_lt. rewrite str_compare_refl. reflexivity. Qed.

Lemma str_le_refl (a : bytes) : str_le a a = true.
Proof. unfold str_le. rewrite str_compare_refl. reflexivity. Qed.

Lemma str_lt_le (a b : bytes) : str_lt a b = true -> str_le a b = true.
Proof. unfold str_lt, str_le. destruct (str_compare a b); congruence. Qed.

Lemma str_le_cases (a b : bytes) : str_le a b = true -> str_lt a b = true \/ a = b.
Proof.
  unfold str_le, str_lt. destruct (str_compare a b) eqn:E; try congruence; auto.
  right. apply str_compare_eq, E.
Qed.

Lemma str_lt_trans (a b c : bytes) :
  str_lt a b = true -> str_lt b c = true -> str_lt a c = true.
Proof.
  unfold str_lt. destruct (str_compare a b) eqn:E1; try congruence.
  destruct (str_compare b c) eqn:E2; try congruence.
  rewrite (str_compare_lt_trans _ _ _ E1 E2). reflexivity.
Qed.

Lemma str_lt_le_trans (a b c : bytes) :
  str_lt a b = true -> str_le b c = true -> str_lt a c = true.
Proof.
  intros H1 H2. destruct (str_le_cases _ _ H2) as [H | <- ]; [|exact H1].
  eapply str_lt_trans; eassumption.
Qed.

Lemma str_le_lt_trans (a b c : bytes) :
  str_le a b = true -> str_lt b c = true -> str_lt a c = true.
Proof.
  intros H1 H2. destruct (str_le_cases _ _ H1) as [H | -> ]; [|exact H2].
  eapply str_lt_trans; eassumption.
Qed.

Lemma str_le_trans (a b c : bytes) :
  str_le a b = true -> str_le b c = true -> str_le a c = true.
Proof.
  intros H1 H2. destruct (str_le_cases _ _ H1) as [H | -> ]; [|exact H2].
  apply str_lt_le. eapply str_lt_le_trans; eassumption.
Qed.

Lemma str_ne_spec (a b : bytes) : str_ne a b = true <-> a <> b.
Proof.
  unfold str_ne. destruct (str_compare a b) eqn:E.
  - apply str_compare_eq in E. split; [congruence|]. intros H. destruct (H E).
  - split; [|reflexivity]. intros _ ->. rewrite str_compare_refl in E. congruence.
  - split; [|reflexivity]. intros _ ->. rewrite str_compare_refl in E. congruence.
Qed.

Lemma str_empty_spec (a : bytes) : str_empty a = true <-> a = [].
Proof. destruct a; simpl; split; congruence. Qed.

Lemma str_empty_false (a : bytes) : str_empty a = false <-> a <> [].
Proof. destruct a; simpl; split; congruence. Qed.

Lemma str_lt_nonempty (a b : bytes) : str_lt a b = true -> b <> [].
Proof. destruct a, b; unfold str_lt; simpl; congruence. Qed.

Lemma str_compare_app (p x y : bytes) : str_compare (p ++ x) (p ++ y) = str_compare x y.
Proof.
  induction p as [|c p IH]; simpl; [reflexivity|].
  rewrite N.compare_refl. exact IH.
Qed.

Lemma str_compare_app_same_length (p q x y : bytes) :
  length p = length q ->
  str_compare (p ++ x) (q ++ y) =
  match str_compare p q with Eq => str_compare x y | c => c end.
Proof.
  revert q. induction p as [|c p IH]; intros [|d q] Hlen; simpl in *; try congruence.
  destruct (Byte.to_N c ?= Byte.to_N d)%N; auto.
Qed.

Lemma str_lt_app_same_length (p q x y : bytes) :
  length p = length q -> str_lt p q = true -> str_lt (p ++ x) (q ++ y) = true.
Proof.
  intros Hlen. unfold str_lt. rewrite (str_compare_app_same_length p q x y Hlen).
  destruct (str_compare p q); congruence.
Qed.

Lemma str_le_app_r (a x : bytes) : str_le a (a ++ x) = true.
Proof.
  unfold str_le. rewrite <- (app_nil_r a) at 1. rewrite str_compare_app.
  destruct x; reflexivity.
Qed.

(** ** The cursor: counting and reading *)

Lemma NumRangesRemaining_acc (p : pruner) (a : nat) :
  fold_left (fun num_ranges range => num_ranges + length (partition_key_ranges range)) p a =
  a + NumRangesRemaining p.
Proof.
  unfold NumRangesRemaining. revert a.
  induction p as [|b p IH]; intros a; simpl; [lia|].
  rewrite IH, (IH (length _)). lia.
Qed.

Lemma NumRangesRemaining_cons (b : RangeBoundsAndPartitionKeyRanges) (p : pruner) :
  NumRangesRemaining (b :: p) = length (partition_key_ranges b) + NumRangesRemaining p.
Proof. unfold NumRangesRemaining at 1. simpl. apply NumRangesRemaining_acc. Qed.

Lemma NumRangesRemaining_zero (p : pruner) :
  NumRangesRemaining p = 0 <-> Forall (fun b => partition_key_ranges b = []) p.
Proof.
  induction p as [|b p IH]; [split; [constructor|reflexivity]|].
  rewrite NumRangesRemaining_cons. split.
  - intros H. constructor; [|apply IH; lia].
    destruct (partition_key_ranges b); [reflexivity|simpl in H; lia].
  - intros H. inversion H as [|? ? Hb Hp]; subst. rewrite Hb. simpl. apply IH, Hp.
Qed.

Lemma NextPartitionKey_no_more (p : pruner) :
  HasMorePartitionKeyRanges p = false -> NextPartitionKey p = Fatal.
Proof. unfold NextPartitionKey. intros ->. reflexivity. Qed.

Lemma NumRangesRemaining_app (p q : pruner) :
  NumRangesRemaining (p ++ q) = NumRangesRemaining p + NumRangesRemaining q.
Proof.
  induction p as [|b p IH]; [reflexivity|].
  simpl. rewrite !NumRangesRemaining_cons, IH. lia.
Qed.

Lemma last_Some_app {A : Type} (l : list A) (x : A) :
  last l = Some x -> exists l', l = l' ++ [x].
Proof.
  intros H. destruct (last_Some l x) as [[l' ->] _]; [exact H|].
  exists l'. reflexivity.
Qed.

(** When the last element of the cursor holds a range, [NextPartitionKey]
    returns the [start] of the last range of that element. *)
Lemma NextPartitionKey_last (p : pruner) (b : RangeBoundsAndPartitionKeyRanges)
    (r : PartitionKeyRange) :
  last p = Some b -> last (partition_key_ranges b) = Some r ->
  NextPartitionKey p = Ok (start r).
Proof.
  intros Hb Hr. unfold NextPartitionKey, HasMorePartitionKeyRanges, back.
  destruct (last_Some_app _ _ Hb) as [p' Hp].
  destruct (last_Some_app _ _ Hr) as [v' Hv].
  assert (NumRangesRemaining p <> 0) as Hn.
  { rewrite Hp, NumRangesRemaining_app, NumRangesRemaining_cons, Hv, length_app.
    simpl. lia. }
  apply Nat.eqb_neq in Hn. rewrite Hn, Hb. simpl. rewrite Hr. reflexivity.
Qed.

(** What [NextPartitionKey] returns, when it returns. *)
Lemma NextPartitionKey_Ok (p : pruner) (k : bytes) :
  NextPartitionKey p = Ok k ->
  exists b r, last p = Some b /\ last (partition_key_ranges b) = Some r /\ k = start r.
Proof.
  unfold NextPartitionKey, back.
  destruct (HasMorePartitionKeyRanges p); [|discriminate].
  destruct (last p) as [b|] eqn:Hb; [|discriminate]. simpl.
  destruct (last (partition_key_ranges b)) as [r|] eqn:Hr; [|discriminate]. simpl.
  intros [= <-]. exists b, r. auto.
Qed.

(** ** [std::lower_bound] *)

Lemma lower_bound_loop_S {A : Type} (s : list A) (comp : A -> bool) (fuel first len : nat) :
  lower_bound_loop (S fuel) s comp first len =
  if len =? 0 then first
  else match s !! (first + len / 2) with
       | None => first
       | Some x =>
           if comp x
           then lower_bound_loop fuel s comp (first + len / 2 + 1) (len - len / 2 - 1)
           else lower_bound_loop fuel s comp first (len / 2)
       end.
Proof. reflexivity. Qed.

(** The search does not depend on the fuel, once there is enough of it. *)
Lemma lower_bound_loop_fuel {A : Type} (s : list A) (comp : A -> bool)
    (f1 f2 first len : nat) :
  len <= f1 -> len <= f2 ->
  lower_bound_loop f1 s comp first len = lower_bound_loop f2 s comp first len.
Proof.
  revert f2 first len. induction f1 as [|f1 IH]; intros f2 first len H1 H2.
  - assert (len = 0) as -> by lia. destruct f2; reflexivity.
  - destruct f2 as [|f2]; [assert (len = 0) as -> by lia; reflexivity|].
    rewrite !lower_bound_loop_S. destruct (len =? 0) eqn:E; [reflexivity|].
    apply Nat.eqb_neq in E.
    pose proof (Nat.div_lt len 2 ltac:(lia) ltac:(lia)) as Hhalf.
    destruct (s !! (first + len / 2)); [|reflexivity].
    destruct (comp a); apply IH; lia.
Qed.

(** The position that the search returns is the end of the sequence or
    holds an element on which the comparator is false. *)
Lemma lower_bound_loop_found {A : Type} (s : list A) (comp : A -> bool)
    (fuel first len : nat) :
  len <= fuel -> first + len <= length s ->
  (first + len = length s \/ exists x, s !! (first + len) = Some x /\ comp x = false) ->
  lower_bound_loop fuel s comp first len = length s \/
  exists x, s !! lower_bound_loop fuel s comp first len = Some x /\ comp x = false.
Proof.
  revert first len. induction fuel as [|fuel IH]; intros first len Hf Hlen Hinv.
  - assert (len = 0) as -> by lia. simpl. rewrite Nat.add_0_r in Hinv. exact Hinv.
  - rewrite lower_bound_loop_S. destruct (len =? 0) eqn:E.
    + apply Nat.eqb_eq in E. subst len. rewrite Nat.add_0_r in Hinv. exact Hinv.
    + apply Nat.eqb_neq in E.
      pose proof (Nat.div_lt len 2 ltac:(lia) ltac:(lia)) as Hhalf.
      destruct (s !! (first + len / 2)) as [x|] eqn:Hx.
      * destruct (comp x) eqn:Hc.
        -- apply IH; [lia|lia|].
           replace (first + len / 2 + 1 + (len - len / 2 - 1)) with (first + len) by lia.
           exact Hinv.
        -- apply IH; [lia|lia|]. right. eauto.
      * apply lookup_ge_None in Hx. lia.
Qed.

Lemma lower_bound_found {A : Type} (s : list A) (comp : A -> bool) (x : A) :
  s !! lower_bound s comp = Some x -> comp x = false.
Proof.
  intros Hx. unfold lower_bound in *.
  destruct (lower_bound_loop_found s comp (length s) 0 (length s)) as [E|(y & Hy & Hc)];
    [lia|simpl; lia|left; reflexivity| |].
  - rewrite E in Hx. apply lookup_lt_Some in Hx. lia.
  - congruence.
Qed.

(** ** [ShouldPrune] *)

Lemma belongs_to_other_range_spec (b : RangeBoundsAndPartitionKeyRanges) (P : Partition) :
  belongs_to_other_range (range_bounds b) P = true <-> bucket_skipped b P.
Proof.
  unfold belongs_to_other_range, bucket_skipped.
  rewrite !andb_true_iff, !negb_true_iff, !str_empty_false, !str_ne_spec. tauto.
Qed.

Lemma bucket_rejects_spec (b : RangeBoundsAndPartitionKeyRanges) (P : Partition) :
  bucket_rejects P b = true <-> bucket_skipped b P \/ ~ bucket_keeps_alive b P.
Proof.
  unfold bucket_rejects.
  destruct (belongs_to_other_range (range_bounds b) P) eqn:Hskip.
  { apply belongs_to_other_range_spec in Hskip. tauto. }
  assert (~ bucket_skipped b P) as Hns.
  { intros H. apply belongs_to_other_range_spec in H. congruence. }
  unfold bucket_keeps_alive, ascending_ranges. cbv zeta.
  destruct (rev (partition_key_ranges b) !!
              lower_bound (rev (partition_key_ranges b)) (scan_range_before P))
    as [range|] eqn:Hfound.
  - pose proof (lower_bound_found _ _ _ Hfound) as Hcomp.
    unfold scan_range_before in Hcomp.
    rewrite andb_true_iff, negb_true_iff, str_empty_false. split.
    + intros [Hne Hle]. right. intros (r & [= <-] & _ & [He|Hlt]); [congruence|].
      rewrite str_le_not_lt, Hlt in Hle. discriminate.
    + intros [Hs|Hna]; [tauto|].
      destruct (partition_key_end P) as [|c pe] eqn:Hpe.
      { exfalso. apply Hna. exists range. split; [reflexivity|]. split; [|auto].
        destruct (end_ range) as [|d e] eqn:He; [auto|]. right.
        simpl in Hcomp. rewrite str_le_not_lt in Hcomp.
        destruct (str_lt (partition_key_start P) (d :: e)); [reflexivity|discriminate]. }
      split; [congruence|]. rewrite str_le_not_lt.
      destruct (str_lt (start range) (c :: pe)) eqn:Hlt; [|reflexivity].
      exfalso. apply Hna. exists range. split; [reflexivity|]. split; [|auto].
      destruct (end_ range) as [|d e] eqn:He; [auto|]. right.
      simpl in Hcomp. rewrite str_le_not_lt in Hcomp.
      destruct (str_lt (partition_key_start P) (d :: e)); [reflexivity|discriminate].
  - split; [|reflexivity]. intros _. right. intros (r & Hr & _). discriminate.
Qed.

Lemma ShouldPrune_rejects (p : pruner) (P : Partition) :
  ShouldPrune p P = true <-> forall b, In b p -> bucket_rejects P b = true.
Proof.
  induction p as [|b p IH]; simpl.
  - split; [intros _ b []|reflexivity].
  - destruct (bucket_rejects P b) eqn:Hb.
    + rewrite IH. split.
      * intros H b' [<-|Hin]; [exact Hb|apply H, Hin].
      * intros H b' Hin. apply H. right. exact Hin.
    + split; [discriminate|]. intros H.
      rewrite (H b (or_introl eq_refl)) in Hb. discriminate.
Qed.

(** [ShouldPrune] returns true exactly when every element of the cursor
    either is skipped or does not keep the partition alive, in any state of
    the cursor. *)
Lemma ShouldPrune_binary_search (p : pruner) (P : Partition) :
  ShouldPrune p P = true <->
  forall b, In b p -> bucket_skipped b P \/ ~ bucket_keeps_alive b P.
Proof.
  rewrite ShouldPrune_rejects. split; intros H b Hb.
  - apply bucket_rejects_spec, H, Hb.
  - apply bucket_rejects_spec, H, Hb.
Qed.

(** C10. On a cursor without ranges, [ShouldPrune] returns true for every
    partition. *)
Theorem ShouldPrune_empty_cursor (p : pruner) (P : Partition) :
  NumRangesRemaining p = 0 -> ShouldPrune p P = true.
Proof.
  intros H. apply NumRangesRemaining_zero in H.
  induction H as [|b p Hb _ IH]; [reflexivity|].
  simpl. unfold bucket_rejects. rewrite Hb. simpl.
  destruct (belongs_to_other_range (range_bounds b) P); exact IH.
Qed.

(** The cursor is empty after [Init] of a scan that can be short-circuited
    and after [RemovePartitionKeyRange] of an empty key. *)
Lemma empty_cursor_cases `{C : Collaborators} (schema : Schema)
    (partition_schema : PartitionSchema) (scan_spec : ScanSpec) (p : pruner) :
  (CanShortCircuit scan_spec = true -> Init schema partition_schema scan_spec = Ok []) /\
  NumRangesRemaining (RemovePartitionKeyRange [] p) = 0.
Proof. unfold Init. split; [intros ->|]; reflexivity. Qed.

(** ** Lists in which every earlier element is related to every later one *)

Lemma all_pairs_cons {A : Type} (R : A -> A -> bool) (x : A) (l : list A) :
  all_pairs R (x :: l) = true <->
  (forall y, In y l -> R x y = true) /\ all_pairs R l = true.
Proof. simpl. rewrite andb_true_iff, forallb_forall. tauto. Qed.

Lemma all_pairs_app {A : Type} (R : A -> A -> bool) (l1 l2 : list A) :
  all_pairs R (l1 ++ l2) = true <->
  all_pairs R l1 = true /\ all_pairs R l2 = true /\
  (forall x y, In x l1 -> In y l2 -> R x y = true).
Proof.
  induction l1 as [|a l1 IH].
  - simpl. split; [intros H; repeat split; [exact H|intros ? ? []]|tauto].
  - rewrite <- app_comm_cons, !all_pairs_cons, IH. split.
    + intros (Ha & H1 & H2 & H12). repeat split; auto.
      * intros y Hy. apply Ha, in_or_app. auto.
      * intros x y [<-|Hx] Hy; [apply Ha, in_or_app; auto|auto].
    + intros ((Ha & H1) & H2 & H12). repeat split; auto.
      * intros y Hy. apply in_app_or in Hy as [Hy|Hy]; [auto|].
        apply H12; [left; reflexivity|exact Hy].
      * intros x y Hx Hy. apply H12; [right; exact Hx|exact Hy].
Qed.

Section AllPairs.
Context {A B : Type}.

Lemma all_pairs_map (R0 : A -> A -> bool) (R : B -> B -> bool) (f : A -> B) (l : list A) :
  (forall x y, In x l -> In y l -> R0 x y = true -> R (f x) (f y) = true) ->
  all_pairs R0 l = true -> all_pairs R (map f l) = true.
Proof.
  induction l as [|a l IH]; intros Hf Hl; [reflexivity|].
  apply all_pairs_cons in Hl as [Ha Hl]. cbn [map]. apply all_pairs_cons. split.
  - intros y Hy. apply in_map_iff in Hy as (y' & <- & Hy').
    apply Hf; [left; reflexivity|right; exact Hy'|apply Ha, Hy'].
  - apply IH; [|exact Hl]. intros x y Hx Hy. apply Hf; right; assumption.
Qed.

Lemma all_pairs_flat_map (R0 : A -> A -> bool) (R : B -> B -> bool) (f : A -> list B)
    (l : list A) :
  (forall x, In x l -> all_pairs R (f x) = true) ->
  (forall x y, In x l -> In y l -> R0 x y = true ->
     forall a b, In a (f x) -> In b (f y) -> R a b = true) ->
  all_pairs R0 l = true -> all_pairs R (flat_map f l) = true.
Proof.
  induction l as [|a l IH]; intros Hin Hacross Hl; [reflexivity|].
  apply all_pairs_cons in Hl as [Ha Hl]. cbn [flat_map]. apply all_pairs_app.
  split; [apply Hin; left; reflexivity|]. split.
  - apply IH; [| |exact Hl].
    + intros x Hx. apply Hin. right. exact Hx.
    + intros x y Hx Hy. apply Hacross; right; assumption.
  - intros x y Hx Hy. apply in_flat_map in Hy as (a' & Ha' & Hy).
    apply (Hacross a a'); [left; reflexivity|right; exact Ha'|apply Ha, Ha'|exact Hx|exact Hy].
Qed.

End AllPairs.

(** ** Sorted ranges *)

Lemma ranges_sorted_cons (r : PartitionKeyRange) (rest : list PartitionKeyRange) :
  ranges_sorted (r :: rest) = true <->
  (forall r', In r' rest -> range_before r r' = true) /\ ranges_sorted rest = true.
Proof. apply all_pairs_cons. Qed.

Lemma range_before_spec (r r' : PartitionKeyRange) :
  range_before r r' = true <->
  end_ r <> [] /\ str_le (end_ r) (start r') = true /\ str_lt (start r) (start r') = true.
Proof.
  unfold range_before. rewrite !andb_true_iff, negb_true_iff, str_empty_false. tauto.
Qed.

Lemma ranges_sorted_app (l1 l2 : list PartitionKeyRange) :
  ranges_sorted (l1 ++ l2) = true <->
  ranges_sorted l1 = true /\ ranges_sorted l2 = true /\
  (forall r r', In r l1 -> In r' l2 -> range_before r r' = true).
Proof. apply all_pairs_app. Qed.

Lemma ranges_sorted_starts (l : list PartitionKeyRange) :
  ranges_sorted l = true -> starts_ascending l = true.
Proof.
  induction l as [|r rest IH]; [reflexivity|].
  rewrite ranges_sorted_cons. intros [Hr Hrest]. unfold starts_ascending in *. simpl.
  rewrite andb_true_iff, forallb_forall. split; [|auto].
  intros r' Hr'. apply Hr, range_before_spec in Hr'. tauto.
Qed.

(** ** [ShouldPrune] on sorted ranges *)

(** On a sequence that the comparator partitions, every position before
    the one that the search returns holds an element on which the
    comparator is true. *)
Lemma lower_bound_loop_before {A : Type} (s : list A) (comp : A -> bool)
    (fuel first len : nat) :
  (forall i j x y, i <= j -> s !! i = Some x -> s !! j = Some y ->
                   comp y = true -> comp x = true) ->
  len <= fuel -> first + len <= length s ->
  (forall i x, i < first -> s !! i = Some x -> comp x = true) ->
  forall i x, i < lower_bound_loop fuel s comp first len -> s !! i = Some x -> comp x = true.
Proof.
  intros Hmono. revert first len.
  induction fuel as [|fuel IH]; intros first len Hf Hlen Hinv; [exact Hinv|].
  rewrite lower_bound_loop_S. destruct (len =? 0) eqn:E; [exact Hinv|].
  apply Nat.eqb_neq in E.
  pose proof (Nat.div_lt len 2 ltac:(lia) ltac:(lia)) as Hhalf.
  destruct (s !! (first + len / 2)) as [m|] eqn:Hm; [|exact Hinv].
  destruct (comp m) eqn:Hc.
  - apply IH; [lia|lia|]. intros i x Hi Hx.
    apply (Hmono i (first + len / 2) x m); [lia|exact Hx|exact Hm|exact Hc].
  - apply IH; [lia|lia|exact Hinv].
Qed.

Lemma sorted_lookup_before (l : list PartitionKeyRange) (i j : nat)
    (x y : PartitionKeyRange) :
  ranges_sorted l = true -> i < j -> l !! i = Some x -> l !! j = Some y ->
  range_before x y = true.
Proof.
  revert i j. induction l as [|r l IH]; intros i j Hs Hij Hx Hy; [discriminate|].
  apply ranges_sorted_cons in Hs as [Hr Hl].
  destruct j as [|j]; [lia|]. simpl in Hy. destruct i as [|i].
  - injection Hx as <-. apply Hr. apply list_elem_of_In, list_elem_of_lookup. eauto.
  - simpl in Hx. apply (IH i j); [exact Hl|lia|exact Hx|exact Hy].
Qed.

(** On sorted, proper ranges the comparator of [ShouldPrune] partitions
    the sequence. *)
Lemma scan_range_before_partitions (l : list PartitionKeyRange) (P : Partition) :
  ranges_sorted l = true -> forallb proper_range l = true ->
  forall i j x y, i <= j -> l !! i = Some x -> l !! j = Some y ->
                  scan_range_before P y = true -> scan_range_before P x = true.
Proof.
  intros Hs Hp i j x y Hij Hx Hy Hcomp.
  destruct (Nat.eq_dec i j) as [->|Hne]; [congruence|].
  pose proof (sorted_lookup_before l i j x y Hs ltac:(lia) Hx Hy) as Hxy.
  apply range_before_spec in Hxy as (Hne' & Hle & _).
  unfold scan_range_before in *. apply andb_true_iff in Hcomp as [Hey Hley].
  apply str_empty_false in Hne'. rewrite Hne'. simpl.
  rewrite forallb_forall in Hp.
  assert (proper_range y = true) as Hyp
    by (apply Hp, list_elem_of_In, list_elem_of_lookup; eauto).
  unfold proper_range in Hyp. apply negb_true_iff in Hey. rewrite Hey in Hyp. simpl in Hyp.
  eapply str_le_trans; [exact Hle|]. apply str_lt_le.
  eapply str_lt_le_trans; eassumption.
Qed.

(** On sorted ranges that the comparator partitions, an element keeps a
    partition alive exactly when one of its ranges intersects the
    partition. *)
Lemma keeps_alive_intersects_partitioned (b : RangeBoundsAndPartitionKeyRanges)
    (P : Partition) :
  ranges_sorted (ascending_ranges b) = true ->
  (forall i j x y, i <= j -> ascending_ranges b !! i = Some x ->
                   ascending_ranges b !! j = Some y ->
                   scan_range_before P y = true -> scan_range_before P x = true) ->
  bucket_keeps_alive b P <-> exists r, In r (ascending_ranges b) /\ intersects r P.
Proof.
  intros Hs Hmono. unfold bucket_keeps_alive, intersects. split.
  - intros (r & Hr & H). exists r. split; [|exact H].
    apply list_elem_of_In, list_elem_of_lookup. eauto.
  - intros (r & Hr & Hstart & Hend).
    apply list_elem_of_In, list_elem_of_lookup in Hr as [j Hj].
    set (s := ascending_ranges b) in *. set (comp := scan_range_before P).
    assert (comp r = false) as Hcr.
    { unfold comp, scan_range_before. destruct Hstart as [->|Hlt]; [reflexivity|].
      rewrite str_le_not_lt, Hlt, andb_false_r. reflexivity. }
    assert (lower_bound s comp <= j) as Hij.
    { destruct (Nat.le_gt_cases (lower_bound s comp) j) as [H|H]; [exact H|].
      assert (comp r = true); [|congruence].
      apply (lower_bound_loop_before s comp (length s) 0 (length s)
               Hmono) with (i := j);
        [lia|simpl; lia|intros; lia|exact H|exact Hj]. }
    destruct (lookup_lt_is_Some_2 s (lower_bound s comp)) as [x Hx].
    { apply lookup_lt_Some in Hj. lia. }
    exists x. split; [exact Hx|].
    pose proof (lower_bound_found _ _ _ Hx) as Hcx. unfold comp, scan_range_before in Hcx.
    split.
    + destruct (end_ x) as [|c e]; [left; reflexivity|]. right. simpl in Hcx.
      rewrite str_le_not_lt in Hcx. apply negb_false_iff in Hcx. exact Hcx.
    + destruct Hend as [He|Hlt]; [left; exact He|]. right.
      destruct (Nat.eq_dec (lower_bound s comp) j) as [E|E].
      * rewrite E in Hx. congruence.
      * pose proof (sorted_lookup_before s (lower_bound s comp) j x r Hs ltac:(lia) Hx Hj) as Hxr.
        apply range_before_spec in Hxr as (_ & _ & Hxr).
        eapply str_lt_trans; eassumption.
Qed.

(** On sorted, proper ranges an element keeps a partition alive exactly
    when one of its ranges intersects the partition. *)
Lemma bucket_keeps_alive_intersects (b : RangeBoundsAndPartitionKeyRanges) (P : Partition) :
  ranges_sorted (ascending_ranges b) = true ->
  forallb proper_range (ascending_ranges b) = true ->
  bucket_keeps_alive b P <-> exists r, In r (ascending_ranges b) /\ intersects r P.
Proof.
  intros Hs Hp. apply keeps_alive_intersects_partitioned; [exact Hs|].
  apply scan_range_before_partitions; assumption.
Qed.

(** On a cursor of sorted, proper ranges, [ShouldPrune] returns true
    exactly when no range of an element that is not skipped intersects the
    partition. *)
Lemma ShouldPrune_intersects (p : pruner) (P : Partition) :
  cursor_sorted p = true ->
  forallb (fun b => forallb proper_range (ascending_ranges b)) p = true ->
  ShouldPrune p P = true <->
  forall b, In b p ->
    bucket_skipped b P \/ forall r, In r (ascending_ranges b) -> ~ intersects r P.
Proof.
  intros Hs Hp. rewrite forallb_forall in Hp.
  assert (forall b, In b p -> ranges_sorted (ascending_ranges b) = true) as Hs'
    by (apply forallb_forall, Hs).
  rewrite ShouldPrune_rejects. split; intros H b Hb.
  - pose proof (H b Hb) as Hb'. apply bucket_rejects_spec in Hb'.
    destruct Hb' as [Hskip|Hna]; [left; exact Hskip|]. right. intros r Hr Hi.
    apply Hna, (bucket_keeps_alive_intersects b P (Hs' b Hb) (Hp b Hb)). eauto.
  - apply bucket_rejects_spec.
    destruct (H b Hb) as [Hskip|Hni]; [left; exact Hskip|]. right. intros Ha.
    apply (bucket_keeps_alive_intersects b P (Hs' b Hb) (Hp b Hb)) in Ha as (r & Hr & Hi).
    exact (Hni r Hr Hi).
Qed.

(** ** [RemovePartitionKeyRange] *)

Lemma lookup_snoc_length {A : Type} (l : list A) (x : A) (n : nat) :
  n = length l -> (l ++ [x]) !! n = Some x.
Proof. intros ->. apply list_lookup_middle. reflexivity. Qed.

Lemma insert_snoc_length {A : Type} (l : list A) (x y : A) (n : nat) :
  n = length l -> <[n := y]> (l ++ [x]) = l ++ [y].
Proof.
  intros ->. rewrite <- (Nat.add_0_r (length l)), insert_app_r. reflexivity.
Qed.

(** On sorted ranges the loop of the code does what the specification
    says: it stops at the first range that is kept. *)
Lemma remove_loop_sorted (upper_bound : bytes) (asc : list PartitionKeyRange) :
  ranges_sorted asc = true ->
  remove_loop upper_bound (length asc) (rev asc) = rev (advance_ranges_spec upper_bound asc).
Proof.
  induction asc as [|r rest IH]; [reflexivity|].
  intros Hs. apply ranges_sorted_cons in Hs as [Hr Hrest].
  cbn [rev length remove_loop advance_ranges_spec].
  rewrite lookup_snoc_length by (rewrite length_rev; reflexivity).
  destruct (str_le upper_bound (start r)) eqn:Hle; [reflexivity|].
  destruct (str_empty (end_ r) || str_lt upper_bound (end_ r)) eqn:Hin.
  - rewrite insert_snoc_length by (rewrite length_rev; reflexivity).
    destruct rest as [|r2 rest2]; [reflexivity|].
    cbn [rev length remove_loop].
    rewrite lookup_app_l by (rewrite length_app, length_rev; simpl; lia).
    rewrite lookup_snoc_length by (rewrite length_rev; reflexivity).
    specialize (Hr r2 (or_introl eq_refl)). apply range_before_spec in Hr as (Hne & Hle2 & _).
    apply str_empty_false in Hne. rewrite Hne in Hin. simpl in Hin.
    rewrite (str_lt_le _ _ (str_lt_le_trans _ _ _ Hin Hle2)). reflexivity.
  - rewrite removelast_last. apply IH, Hrest.
Qed.

Lemma advance_ranges_spec_suffix (upper : bytes) (asc : list PartitionKeyRange) :
  advance_ranges_spec upper asc = [] \/
  exists pre r rest,
    asc = pre ++ r :: rest /\
    (advance_ranges_spec upper asc = r :: rest \/
     advance_ranges_spec upper asc = {| start := upper; end_ := end_ r |} :: rest /\
     (end_ r = [] \/ str_lt upper (end_ r) = true)).
Proof.
  induction asc as [|r rest IH]; [left; reflexivity|].
  simpl. destruct (str_le upper (start r)).
  { right. exists [], r, rest. auto. }
  destruct (str_empty (end_ r) || str_lt upper (end_ r)) eqn:Hin.
  { right. exists [], r, rest. split; [reflexivity|]. right. split; [reflexivity|].
    apply orb_true_iff in Hin as [H|H]; [left; apply str_empty_spec, H|right; exact H]. }
  destruct IH as [IH|(pre & r' & rest' & -> & IH)]; [left; exact IH|].
  right. exists (r :: pre), r', rest'. split; [reflexivity|exact IH].
Qed.

(** Sortedness is kept by the operation. *)
Lemma advance_ranges_spec_sorted (upper : bytes) (asc : list PartitionKeyRange) :
  ranges_sorted asc = true -> ranges_sorted (advance_ranges_spec upper asc) = true.
Proof.
  intros Hs.
  destruct (advance_ranges_spec_suffix upper asc)
    as [->|(pre & r & rest & -> & [->|[-> Hin]])]; [reflexivity| |].
  - apply ranges_sorted_app in Hs. tauto.
  - apply ranges_sorted_app in Hs as (_ & Hs & _).
    apply ranges_sorted_cons in Hs as [Hr Hrest]. apply ranges_sorted_cons.
    split; [|exact Hrest]. intros r' Hr'. specialize (Hr r' Hr').
    apply range_before_spec in Hr as (Hne & Hle & _). apply range_before_spec. simpl.
    split; [exact Hne|]. split; [exact Hle|].
    destruct Hin as [He|Hlt]; [congruence|]. eapply str_lt_le_trans; eassumption.
Qed.

(** After the operation every range that is left starts at [upper] or
    later. *)
Lemma advance_ranges_spec_head (upper : bytes) (asc : list PartitionKeyRange)
    (r : PartitionKeyRange) (rest : list PartitionKeyRange) :
  advance_ranges_spec upper asc = r :: rest -> str_le upper (start r) = true.
Proof.
  induction asc as [|x asc IH]; [discriminate|].
  simpl. destruct (str_le upper (start x)) eqn:Hle.
  { intros [= <- _]. exact Hle. }
  destruct (str_empty (end_ x) || str_lt upper (end_ x)).
  { intros [= <- _]. apply str_le_refl. }
  exact IH.
Qed.

Lemma cursor_sorted_spec (p : pruner) :
  cursor_sorted p = true <-> forall b, In b p -> ranges_sorted (ascending_ranges b) = true.
Proof. unfold cursor_sorted. apply forallb_forall. Qed.

Lemma RemovePartitionKeyRange_sorted_spec (upper_bound : bytes) (p : pruner) :
  cursor_sorted p = true ->
  RemovePartitionKeyRange upper_bound p = advance_past_spec upper_bound p.
Proof.
  intros Hs. unfold RemovePartitionKeyRange, advance_past_spec.
  destruct (str_empty upper_bound); [reflexivity|].
  apply map_ext_in. intros b Hb. f_equal.
  rewrite cursor_sorted_spec in Hs. specialize (Hs b Hb). unfold ascending_ranges in *.
  rewrite <- (rev_involutive (partition_key_ranges b)) at 2.
  rewrite <- (length_rev (partition_key_ranges b)).
  apply remove_loop_sorted, Hs.
Qed.

Lemma RemovePartitionKeyRange_sorted (upper_bound : bytes) (p : pruner) :
  cursor_sorted p = true -> cursor_sorted (RemovePartitionKeyRange upper_bound p) = true.
Proof.
  intros Hs. rewrite (RemovePartitionKeyRange_sorted_spec _ _ Hs).
  unfold advance_past_spec. destruct (str_empty upper_bound); [reflexivity|].
  apply cursor_sorted_spec. intros b' Hb'. apply in_map_iff in Hb' as (b & <- & Hb).
  unfold ascending_ranges. simpl. rewrite rev_involutive.
  apply advance_ranges_spec_sorted. rewrite cursor_sorted_spec in Hs. apply Hs, Hb.
Qed.

(** ** The encoding of bucket numbers *)

Lemma to_N_byte_of_N (n : N) : Byte.to_N (byte_of_N n) = (n mod 256)%N.
Proof.
  unfold byte_of_N. destruct (Byte.of_N (n mod 256)) eqn:E.
  - apply Byte.to_of_N, E.
  - apply Byte.of_N_None_iff in E. pose proof (N.mod_upper_bound n 256). lia.
Qed.

Lemma be32_digits (v : N) : be32 v = be_digits 4 v.
Proof.
  unfold be32. simpl. rewrite !N.Div0.div_div. reflexivity.
Qed.

Lemma length_be_digits (n : nat) (v : N) : length (be_digits n v) = n.
Proof.
  revert v. induction n as [|n IH]; intros v; simpl; [reflexivity|].
  rewrite length_app, IH. simpl. lia.
Qed.

Lemma length_be32 (v : N) : length (be32 v) = 4.
Proof. rewrite be32_digits. apply length_be_digits. Qed.

Lemma div_mod_256_lt (v w : N) :
  (v < w)%N ->
  (v / 256 < w / 256 \/ v / 256 = w / 256 /\ v mod 256 < w mod 256)%N.
Proof.
  intros Hlt.
  pose proof (N.div_mod v 256 ltac:(lia)) as Hv.
  pose proof (N.div_mod w 256 ltac:(lia)) as Hw.
  pose proof (N.mod_upper_bound v 256 ltac:(lia)) as Hv'.
  pose proof (N.mod_upper_bound w 256 ltac:(lia)) as Hw'.
  generalize dependent (v / 256)%N. generalize dependent (w / 256)%N.
  generalize dependent (v mod 256)%N. generalize dependent (w mod 256)%N.
  intros. lia.
Qed.

Lemma be_digits_lt (n : nat) (v w : N) :
  (v < w)%N -> (w < 256 ^ N.of_nat n)%N ->
  str_lt (be_digits n v) (be_digits n w) = true.
Proof.
  revert v w. induction n as [|n IH]; intros v w Hlt Hw.
  - simpl in Hw. lia.
  - cbn [be_digits]. unfold str_lt.
    rewrite str_compare_app_same_length by (rewrite !length_be_digits; reflexivity).
    destruct (div_mod_256_lt v w Hlt) as [H|[H H']].
    + assert (w / 256 < 256 ^ N.of_nat n)%N as Hw'.
      { apply N.Div0.div_lt_upper_bound.
        replace (N.of_nat (S n)) with (N.succ (N.of_nat n)) in Hw by lia.
        rewrite N.pow_succ_r' in Hw. exact Hw. }
      specialize (IH _ _ H Hw'). unfold str_lt in IH.
      destruct (str_compare (be_digits n (v / 256)) (be_digits n (w / 256)));
        congruence.
    + rewrite H, str_compare_refl. simpl. rewrite !to_N_byte_of_N.
      apply N.compare_lt_iff in H'. rewrite H'. reflexivity.
Qed.

Lemma be32_lt (v w : N) :
  (v < w)%N -> (w < 4294967296)%N -> str_lt (be32 v) (be32 w) = true.
Proof. intros H1 H2. rewrite !be32_digits. apply be_digits_lt; [exact H1|exact H2]. Qed.

Lemma be32_le (v w : N) :
  (v <= w)%N -> (w < 4294967296)%N -> str_le (be32 v) (be32 w) = true.
Proof.
  intros H1 H2. destruct (N.eq_dec v w) as [->|Hne]; [apply str_le_refl|].
  apply str_lt_le, be32_lt; lia.
Qed.

Lemma uint32_add_1 (b : N) : (b + 1 < 4294967296)%N -> uint32_add b 1 = (b + 1)%N.
Proof. intros H. unfold uint32_add. apply N.mod_small, H. Qed.

(** ** The cross-product enumeration *)

Lemma surviving_buckets_bounds (buckets_bitset : list bool) (bucket b : N) :
  In b (surviving_buckets buckets_bitset bucket) ->
  (bucket <= b < bucket + N.of_nat (length buckets_bitset))%N.
Proof.
  revert bucket. induction buckets_bitset as [|bit rest IH]; intros bucket; [intros []|].
  cbn [surviving_buckets length]. destruct bit.
  - intros [<-|Hb]; [lia|]. apply IH in Hb. lia.
  - intros Hb. apply IH in Hb. lia.
Qed.

Lemma surviving_buckets_ascending (buckets_bitset : list bool) (bucket : N) :
  all_pairs N.ltb (surviving_buckets buckets_bitset bucket) = true.
Proof.
  revert bucket. induction buckets_bitset as [|bit rest IH]; intros bucket; [reflexivity|].
  cbn [surviving_buckets]. destruct bit; [|apply IH].
  apply all_pairs_cons. split; [|apply IH].
  intros b Hb. apply surviving_buckets_bounds in Hb. apply N.ltb_lt. lia.
Qed.

Lemma surviving_buckets_snoc (buckets_bitset : list bool) (bucket : N) :
  surviving_buckets (buckets_bitset ++ [true]) bucket =
  surviving_buckets buckets_bitset bucket ++ [(bucket + N.of_nat (length buckets_bitset))%N].
Proof.
  revert bucket. induction buckets_bitset as [|bit rest IH]; intros bucket.
  - simpl. rewrite N.add_0_r. reflexivity.
  - cbn [app surviving_buckets length]. rewrite IH.
    replace (bucket + 1 + N.of_nat (length rest))%N
      with (bucket + N.of_nat (S (length rest)))%N by lia.
    destruct bit; reflexivity.
Qed.

Lemma bucket_loop_spec (is_last : bool) (r : PartitionKeyRange) (buckets_bitset : list bool)
    (bucket : N) (acc : list PartitionKeyRange) :
  bucket_loop is_last r buckets_bitset bucket acc =
  acc ++ map (extend_range is_last r) (surviving_buckets buckets_bitset bucket).
Proof.
  revert bucket acc. induction buckets_bitset as [|bit rest IH]; intros bucket acc.
  - simpl. rewrite app_nil_r. reflexivity.
  - cbn [bucket_loop surviving_buckets]. destruct bit; cbn [negb].
    + rewrite IH, <- app_assoc. reflexivity.
    + apply IH.
Qed.

Lemma ranges_loop_spec (is_last : bool) (buckets_bitset : list bool)
    (ranges acc : list PartitionKeyRange) :
  ranges_loop is_last buckets_bitset ranges acc =
  acc ++ flat_map (fun r => map (extend_range is_last r) (surviving_buckets buckets_bitset 0))
                  ranges.
Proof.
  revert acc. induction ranges as [|r rest IH]; intros acc.
  - simpl. rewrite app_nil_r. reflexivity.
  - cbn [ranges_loop flat_map]. rewrite IH, bucket_loop_spec, <- app_assoc. reflexivity.
Qed.

(** The loop body of the code and the step of the specification agree. *)
Lemma ranges_loop_cross_product (range_bounds : RangeBounds) (C i : nat)
    (buckets_bitset : list bool) (ranges : list PartitionKeyRange) :
  i < C -> (N.of_nat (length buckets_bitset) < 4294967296)%N ->
  ranges_loop (is_last_component range_bounds C i) buckets_bitset ranges [] =
  cross_product_spec i C (upper range_bounds) buckets_bitset ranges.
Proof.
  intros Hi Hfit. rewrite ranges_loop_spec. simpl. unfold cross_product_spec.
  apply flat_map_ext. intros r. apply map_ext_in. intros b Hb.
  apply surviving_buckets_bounds in Hb.
  unfold extend_range, is_last_component.
  replace (i =? C - 1) with (i + 1 =? C)
    by (destruct (Nat.eqb_spec (i + 1) C), (Nat.eqb_spec i (C - 1)); lia || reflexivity).
  destruct ((i + 1 =? C) && str_empty (upper range_bounds)); [|reflexivity].
  rewrite uint32_add_1 by lia. reflexivity.
Qed.

(** The turns of the loop over [hash_idx], one list of bitsets after
    another. *)
Lemma hash_loop_app (range_bounds : RangeBounds) (C : nat) (l1 l2 : list (list bool)) :
  forall i ranges,
    hash_loop range_bounds C i (l1 ++ l2) ranges =
    hash_loop range_bounds C (i + length l1) l2 (hash_loop range_bounds C i l1 ranges).
Proof.
  induction l1 as [|bs l1 IH]; intros i ranges.
  - simpl. rewrite Nat.add_0_r. reflexivity.
  - cbn [app hash_loop length]. destruct (i <? C) eqn:Hi.
    + rewrite IH. replace (S i + length l1) with (i + S (length l1)) by lia. reflexivity.
    + apply Nat.ltb_ge in Hi. destruct l2 as [|bs2 l2]; [reflexivity|].
      cbn [hash_loop].
      assert ((i + S (length l1) <? C) = false) as -> by (apply Nat.ltb_ge; lia).
      reflexivity.
Qed.

(** One turn of the loop over [hash_idx]. *)
Lemma hash_loop_turn (range_bounds : RangeBounds) (C i : nat) (buckets_bitset : list bool)
    (ranges : list PartitionKeyRange) :
  i < C -> (N.of_nat (length buckets_bitset) < 4294967296)%N ->
  hash_loop range_bounds C i [buckets_bitset] ranges =
  cross_product_spec i C (upper range_bounds) buckets_bitset ranges.
Proof.
  intros Hi Hfit. cbn [hash_loop]. apply Nat.ltb_lt in Hi as Hi'. rewrite Hi'.
  apply ranges_loop_cross_product; assumption.
Qed.

Lemma enumeration_past_bitsets (C : nat) (ru : bytes) (B : list (list bool)) (n : nat) :
  forall i ranges,
    length B <= i ->
    fold_left (fun working j =>
                 match B !! j with
                 | Some buckets_bitset => cross_product_spec j C ru buckets_bitset working
                 | None => working
                 end)
              (seq i n) ranges = ranges.
Proof.
  induction n as [|n IH]; intros i ranges Hi; [reflexivity|].
  cbn [seq fold_left]. rewrite (lookup_ge_None_2 B i Hi). apply IH. lia.
Qed.

(** The loop over [hash_idx] from the turn [i] on, [bitsets] being what
    remains of the bitsets [B]. *)
Lemma hash_loop_enumeration (range_bounds : RangeBounds) (C : nat) (B : list (list bool)) :
  Forall (fun bs => (N.of_nat (length bs) < 4294967296)%N) B ->
  forall bitsets i ranges,
    drop i B = bitsets ->
    hash_loop range_bounds C i bitsets ranges =
    fold_left (fun working j =>
                 match B !! j with
                 | Some buckets_bitset =>
                     cross_product_spec j C (upper range_bounds) buckets_bitset working
                 | None => working
                 end)
              (seq i (C - i)) ranges.
Proof.
  intros Hfit. induction bitsets as [|bs rest IH]; intros i ranges Hdrop.
  - cbn [hash_loop]. symmetry. apply enumeration_past_bitsets.
    apply (f_equal length) in Hdrop. rewrite length_drop in Hdrop. simpl in Hdrop. lia.
  - assert (B !! i = Some bs) as Hbs.
    { rewrite <- (Nat.add_0_r i), <- lookup_drop, Hdrop. reflexivity. }
    assert (drop (S i) B = rest) as Hrest.
    { replace (S i) with (i + 1) by lia. rewrite <- drop_drop, Hdrop. reflexivity. }
    cbn [hash_loop]. destruct (i <? C) eqn:Hi.
    + apply Nat.ltb_lt in Hi. replace (C - i) with (S (C - S i)) by lia.
      cbn [seq fold_left]. rewrite Hbs, (IH _ _ Hrest).
      rewrite ranges_loop_cross_product; [reflexivity|exact Hi|].
      rewrite Forall_forall in Hfit. apply Hfit, list_elem_of_lookup. eauto.
    + apply Nat.ltb_ge in Hi. replace (C - i) with 0 by lia. reflexivity.
Qed.

Lemma surviving_buckets_lookup (buckets_bitset : list bool) (j : nat) :
  buckets_bitset !! j = Some true ->
  forall bucket, In (bucket + N.of_nat j)%N (surviving_buckets buckets_bitset bucket).
Proof.
  revert j. induction buckets_bitset as [|bit rest IH]; intros j Hj bucket; [discriminate|].
  cbn [surviving_buckets]. destruct j as [|j].
  - injection Hj as ->. left. simpl. lia.
  - simpl in Hj. specialize (IH j Hj (bucket + 1)%N).
    replace (bucket + 1 + N.of_nat j)%N with (bucket + N.of_nat (S j))%N in IH by lia.
    destruct bit; [right|]; exact IH.
Qed.

(** C5. The enumeration of [ConstructPartitionKeyRanges], the loop over
    [hash_idx], computes the cross-product enumeration of the
    specification.  In the turn for the hash dimension [i < C], of which
    the working set is what the loop has made of the bitsets before [i],
    every range [r] of the working set and every surviving bucket [b] give
    the range whose [start] is that of [r] with [b] appended and whose
    [end] is that of [r] with [b + 1] appended when [i = C - 1] and the
    upper range bound is empty, and with [b] appended otherwise.  When the
    last bucket [num_buckets - 1] survives in the last turn and there is no
    upper range bound, the value [num_buckets] is appended and the part of
    the key before it stays as it was. *)
Theorem cross_product_bucket_upper (range_bounds : RangeBounds) (C : nat)
    (bitsets : list (list bool)) (ranges : list PartitionKeyRange) :
  Forall (fun bs => (N.of_nat (length bs) < 4294967296)%N) bitsets ->
  hash_loop range_bounds C 0 bitsets ranges =
    enumeration_spec C (upper range_bounds) bitsets ranges /\
  (forall i buckets_bitset r b,
     i < C -> bitsets !! i = Some buckets_bitset ->
     buckets_bitset !! b = Some true ->
     In r (hash_loop range_bounds C 0 (take i bitsets) ranges) ->
     In {| start := start r ++ be32 (N.of_nat b);
           end_ := end_ r ++
                   be32 (if (i =? C - 1) && str_empty (upper range_bounds)
                         then N.of_nat b + 1 else N.of_nat b) |}
        (hash_loop range_bounds C 0 (take (S i) bitsets) ranges)) /\
  (forall buckets_bitset r,
     0 < C -> bitsets !! (C - 1) = Some buckets_bitset ->
     upper range_bounds = [] -> last buckets_bitset = Some true ->
     In r (hash_loop range_bounds C 0 (take (C - 1) bitsets) ranges) ->
     In {| start := start r ++ be32 (N.of_nat (length buckets_bitset) - 1);
           end_ := end_ r ++ be32 (N.of_nat (length buckets_bitset)) |}
        (hash_loop range_bounds C 0 (take C bitsets) ranges)).
Proof.
  intros Hfit.
  assert (forall i buckets_bitset r b,
            i < C -> bitsets !! i = Some buckets_bitset ->
            buckets_bitset !! b = Some true ->
            In r (hash_loop range_bounds C 0 (take i bitsets) ranges) ->
            In {| start := start r ++ be32 (N.of_nat b);
                  end_ := end_ r ++
                          be32 (if (i =? C - 1) && str_empty (upper range_bounds)
                                then N.of_nat b + 1 else N.of_nat b) |}
               (hash_loop range_bounds C 0 (take (S i) bitsets) ranges)) as Hturn.
  { intros i bs r b Hi Hbs Hb Hr.
    rewrite (take_S_r _ _ _ Hbs), hash_loop_app. cbn [Nat.add].
    rewrite length_take_le by (apply lookup_lt_Some in Hbs; lia).
    rewrite hash_loop_turn; [|exact Hi|].
    2: { rewrite Forall_forall in Hfit. apply Hfit, list_elem_of_lookup. eauto. }
    unfold cross_product_spec. apply in_flat_map. exists r. split; [exact Hr|].
    apply in_map_iff. exists (N.of_nat b). split; [reflexivity|].
    apply (surviving_buckets_lookup _ _ Hb 0%N). }
  split; [|split; [exact Hturn|]].
  - unfold enumeration_spec.
    rewrite (hash_loop_enumeration range_bounds C bitsets Hfit bitsets 0 ranges eq_refl).
    rewrite Nat.sub_0_r. reflexivity.
  - intros bs r HC Hbs Hru Hlast Hr.
    destruct (last_Some_app _ _ Hlast) as [bs' ->].
    assert ((bs' ++ [true]) !! length bs' = Some true) as Hb
      by (apply lookup_snoc_length; reflexivity).
    specialize (Hturn (C - 1) _ r (length bs') ltac:(lia) Hbs Hb Hr).
    rewrite Nat.eqb_refl, Hru in Hturn. cbn [str_empty andb] in Hturn.
    replace (S (C - 1)) with C in Hturn by lia.
    rewrite length_app. cbn [length].
    replace (N.of_nat (length bs' + 1) - 1)%N with (N.of_nat (length bs')) by lia.
    replace (N.of_nat (length bs' + 1)) with (N.of_nat (length bs') + 1)%N by lia.
    exact Hturn.
Qed.

(** ** The ranges that [ConstructPartitionKeyRanges] builds are sorted *)

Lemma be32_nonempty (p : bytes) (v : N) : p ++ be32 v <> [].
Proof. unfold be32. destruct p; simpl; congruence. Qed.

Lemma str_lt_app_be32 (p : bytes) (v w : N) :
  (v < w)%N -> (w < 4294967296)%N -> str_lt (p ++ be32 v) (p ++ be32 w) = true.
Proof.
  intros H1 H2. pose proof (be32_lt v w H1 H2) as H. unfold str_lt in *.
  rewrite str_compare_app. exact H.
Qed.

Lemma str_le_app_be32 (p : bytes) (v w : N) :
  (v <= w)%N -> (w < 4294967296)%N -> str_le (p ++ be32 v) (p ++ be32 w) = true.
Proof.
  intros H1 H2. pose proof (be32_le v w H1 H2) as H. unfold str_le in *.
  rewrite str_compare_app. exact H.
Qed.

Lemma point_ranges_In (n : nat) (l : list PartitionKeyRange) (r : PartitionKeyRange) :
  point_ranges n l -> In r l -> end_ r = start r /\ length (start r) = n.
Proof. intros [H _] Hr. rewrite Forall_forall in H. apply H, list_elem_of_In, Hr. Qed.

(** A turn that is not the last one keeps the working set a list of
    points. *)
Lemma step_points (n : nat) (buckets_bitset : list bool) (l : list PartitionKeyRange) :
  (N.of_nat (length buckets_bitset) < 4294967296)%N ->
  point_ranges n l ->
  point_ranges (n + 4)
    (flat_map (fun r => map (extend_range false r) (surviving_buckets buckets_bitset 0)) l).
Proof.
  intros Hfit Hl. split.
  - apply Forall_forall. intros x Hx. apply list_elem_of_In, in_flat_map in Hx as (r & Hr & Hx).
    apply in_map_iff in Hx as (b & <- & Hb).
    destruct (point_ranges_In _ _ _ Hl Hr) as [He Hn]. simpl.
    rewrite He, length_app, length_be32, Hn. auto.
  - unfold starts_ascending.
    apply (all_pairs_flat_map (fun r r' => str_lt (start r) (start r'))); [| |apply Hl].
    + intros r Hr. apply (all_pairs_map N.ltb); [|apply surviving_buckets_ascending].
      intros b b' Hb Hb' Hlt. apply N.ltb_lt in Hlt.
      apply surviving_buckets_bounds in Hb'. simpl. apply str_lt_app_be32; lia.
    + intros r r' Hr Hr' Hlt x y Hx Hy.
      apply in_map_iff in Hx as (b & <- & _). apply in_map_iff in Hy as (b' & <- & _). simpl.
      apply str_lt_app_same_length; [|exact Hlt].
      destruct (point_ranges_In _ _ _ Hl Hr) as [_ ->].
      destruct (point_ranges_In _ _ _ Hl Hr') as [_ ->]. reflexivity.
Qed.

(** The last turn, which increments the bucket of the upper bound, makes
    sorted ranges of the points. *)
Lemma step_last (n : nat) (buckets_bitset : list bool) (l : list PartitionKeyRange) :
  (N.of_nat (length buckets_bitset) < 4294967296)%N ->
  point_ranges n l ->
  let l' :=
    flat_map (fun r => map (extend_range true r) (surviving_buckets buckets_bitset 0)) l in
  ranges_sorted l' = true /\ Forall (fun r => length (start r) = n + 4) l'.
Proof.
  intros Hfit Hl. split.
  - unfold ranges_sorted.
    apply (all_pairs_flat_map (fun r r' => str_lt (start r) (start r'))); [| |apply Hl].
    + intros r Hr. apply (all_pairs_map N.ltb); [|apply surviving_buckets_ascending].
      intros b b' Hb Hb' Hlt. apply N.ltb_lt in Hlt.
      apply surviving_buckets_bounds in Hb'.
      destruct (point_ranges_In _ _ _ Hl Hr) as [He _].
      apply range_before_spec. simpl. rewrite He, uint32_add_1 by lia.
      split; [apply be32_nonempty|]. split; [apply str_le_app_be32|apply str_lt_app_be32]; lia.
    + intros r r' Hr Hr' Hlt x y Hx Hy.
      apply in_map_iff in Hx as (b & <- & _). apply in_map_iff in Hy as (b' & <- & _).
      destruct (point_ranges_In _ _ _ Hl Hr) as [He Hn].
      destruct (point_ranges_In _ _ _ Hl Hr') as [_ Hn'].
      apply range_before_spec. simpl. rewrite He.
      split; [apply be32_nonempty|].
      split; [apply str_lt_le|]; (apply str_lt_app_same_length; [congruence|exact Hlt]).
  - apply Forall_forall. intros x Hx. apply list_elem_of_In, in_flat_map in Hx as (r & Hr & Hx).
    apply in_map_iff in Hx as (b & <- & Hb).
    destruct (point_ranges_In _ _ _ Hl Hr) as [_ Hn]. simpl.
    rewrite length_app, length_be32, Hn. reflexivity.
Qed.

Lemma hash_loop_done (range_bounds : RangeBounds) (C i : nat) (bitsets : list (list bool))
    (l : list PartitionKeyRange) :
  C <= i -> hash_loop range_bounds C i bitsets l = l.
Proof.
  intros H. destruct bitsets; [reflexivity|]. simpl.
  apply Nat.ltb_ge in H. rewrite H. reflexivity.
Qed.

(** With an upper range bound, no turn is the last one. *)
Lemma hash_loop_points (range_bounds : RangeBounds) (C : nat) (bitsets : list (list bool)) :
  upper range_bounds <> [] ->
  Forall (fun bs => (N.of_nat (length bs) < 4294967296)%N) bitsets ->
  forall i n l, point_ranges n l ->
  exists n', point_ranges n' (hash_loop range_bounds C i bitsets l).
Proof.
  intros Hup Hfit. induction Hfit as [|bs bitsets Hbs _ IH]; intros i n l Hl.
  - exists n. exact Hl.
  - cbn [hash_loop]. destruct (i <? C); [|exists n; exact Hl].
    unfold is_last_component. apply str_empty_false in Hup. rewrite Hup, andb_false_r.
    rewrite ranges_loop_spec. simpl. eapply IH, step_points; eassumption.
Qed.

(** Without one, the turn [C - 1] is the last one. *)
Lemma hash_loop_last (range_bounds : RangeBounds) (C : nat) (bitsets : list (list bool)) :
  upper range_bounds = [] ->
  Forall (fun bs => (N.of_nat (length bs) < 4294967296)%N) bitsets ->
  forall i n l, i < C -> C <= i + length bitsets -> point_ranges n l ->
  ranges_sorted (hash_loop range_bounds C i bitsets l) = true /\
  exists n', Forall (fun r => length (start r) = n') (hash_loop range_bounds C i bitsets l).
Proof.
  intros Hup Hfit. induction Hfit as [|bs bitsets Hbs _ IH]; intros i n l Hi HC Hl.
  - simpl in HC. lia.
  - cbn [hash_loop]. apply Nat.ltb_lt in Hi as Hi'. rewrite Hi'.
    unfold is_last_component. rewrite Hup. simpl str_empty. rewrite andb_true_r.
    rewrite ranges_loop_spec. simpl app.
    destruct (Nat.eqb_spec (i + 1) C) as [E|E].
    + rewrite hash_loop_done by lia.
      destruct (step_last n bs l Hbs Hl) as [H1 H2]. split; [exact H1|]. eauto.
    + apply (IH (S i) (n + 4)); [lia|simpl in HC; lia|].
      apply step_points; assumption.
Qed.

(** Appending the range bounds. *)
Lemma append_points_sorted (range_bounds : RangeBounds) (n : nat) (l : list PartitionKeyRange) :
  upper range_bounds <> [] -> point_ranges n l ->
  ranges_sorted (map (append_range_bounds range_bounds) l) = true.
Proof.
  intros Hup Hl. unfold ranges_sorted.
  apply (all_pairs_map (fun r r' => str_lt (start r) (start r'))); [|apply Hl].
  intros r r' Hr Hr' Hlt.
  destruct (point_ranges_In _ _ _ Hl Hr) as [He Hn].
  destruct (point_ranges_In _ _ _ Hl Hr') as [_ Hn'].
  apply range_before_spec. simpl. rewrite He.
  split; [intros H; apply app_eq_nil in H as [_ H]; contradiction|].
  split; [apply str_lt_le|]; (apply str_lt_app_same_length; [congruence|exact Hlt]).
Qed.

Lemma append_sorted_sorted (range_bounds : RangeBounds) (n : nat) (l : list PartitionKeyRange) :
  upper range_bounds = [] -> Forall (fun r => length (start r) = n) l ->
  ranges_sorted l = true ->
  ranges_sorted (map (append_range_bounds range_bounds) l) = true.
Proof.
  intros Hup Hn Hl. unfold ranges_sorted. apply (all_pairs_map range_before); [|exact Hl].
  intros r r' Hr Hr' Hb. apply range_before_spec in Hb as (Hne & Hle & Hlt).
  rewrite Forall_forall in Hn.
  apply range_before_spec. simpl. rewrite Hup, app_nil_r.
  split; [exact Hne|]. split.
  - eapply str_le_trans; [exact Hle|apply str_le_app_r].
  - apply str_lt_app_same_length; [|exact Hlt].
    rewrite (Hn r), (Hn r'); [reflexivity| |]; apply list_elem_of_In; assumption.
Qed.

(** The loop that trims to the scan's upper bound partition key. *)
Lemma trim_loop_sorted (bound : bytes) (l : list PartitionKeyRange) :
  ranges_sorted l = true -> ranges_sorted (trim_loop bound (length l) l) = true.
Proof.
  induction l as [|r l0 IH] using rev_ind; [reflexivity|].
  intros Hs. rewrite length_app. simpl length. rewrite Nat.add_1_r. cbn [trim_loop].
  rewrite lookup_snoc_length by reflexivity.
  destruct (negb (str_empty (end_ r)) && str_ge bound (end_ r)); [exact Hs|].
  apply ranges_sorted_app in Hs as Hs'. destruct Hs' as (Hl0 & _ & Hlr).
  destruct (str_le bound (start r)) eqn:Hle.
  { rewrite removelast_last. apply IH, Hl0. }
  rewrite insert_snoc_length by reflexivity.
  assert (ranges_sorted (l0 ++ [{| start := start r; end_ := bound |}]) = true) as Hs''.
  { apply ranges_sorted_app. split; [exact Hl0|]. split; [reflexivity|].
    intros x y Hx [<-|[]]. specialize (Hlr x r Hx (or_introl eq_refl)).
    apply range_before_spec in Hlr. apply range_before_spec. exact Hlr. }
  destruct l0 as [|q l1 _] using rev_ind; [reflexivity|].
  rewrite length_app. simpl length. rewrite Nat.add_1_r. cbn [trim_loop].
  rewrite lookup_app_l by (rewrite length_app; simpl; lia).
  rewrite lookup_snoc_length by reflexivity.
  assert (In q (l1 ++ [q])) as Hq by (apply in_or_app; right; left; reflexivity).
  specialize (Hlr q r Hq (or_introl eq_refl)).
  apply range_before_spec in Hlr as (Hne & Hqr & _).
  apply str_empty_false in Hne. rewrite Hne. simpl negb.
  rewrite str_le_not_lt in Hle. apply negb_false_iff in Hle.
  rewrite str_ge_le, (str_lt_le _ _ (str_le_lt_trans _ _ _ Hqr Hle)). exact Hs''.
Qed.

Section Construct.
Context `{C : Collaborators}.

Lemma set_buckets_length (d : HashDimension.t) (encoded_strings : list bytes)
    (bitset bitset' : list bool) :
  set_buckets d encoded_strings bitset = Ok bitset' -> length bitset' = length bitset.
Proof.
  revert bitset. induction encoded_strings as [|e rest IH]; intros bitset; simpl.
  - intros [= <-]. reflexivity.
  - destruct (_ <? _); [|discriminate]. intros H. apply IH in H.
    rewrite length_insert in H. exact H.
Qed.

Lemma PruneHashComponent_length (d : HashDimension.t) (schema : Schema) (scan_spec : ScanSpec)
    (bitset : list bool) :
  PruneHashComponent d schema scan_spec = Ok bitset ->
  length bitset = HashDimension.num_buckets d.
Proof.
  unfold PruneHashComponent. destruct (column_loop _ _ _ _ _ _); try discriminate. simpl.
  intros H. apply set_buckets_length in H. rewrite length_replicate in H. exact H.
Qed.

Lemma bitsets_loop_fit (schema : Schema) (scan_spec : ScanSpec) (hash_schema : HashSchema)
    (acc bitsets : list (list bool)) :
  buckets_fit hash_schema ->
  Forall (fun bs => (N.of_nat (length bs) < 4294967296)%N) acc ->
  bitsets_loop schema scan_spec hash_schema acc = Ok bitsets ->
  Forall (fun bs => (N.of_nat (length bs) < 4294967296)%N) bitsets /\
  length bitsets = length acc + length hash_schema.
Proof.
  intros Hfit. revert acc. induction Hfit as [|d rest Hd _ IH]; intros acc Hacc.
  - simpl. intros [= <-]. split; [exact Hacc|lia].
  - cbn [bitsets_loop]. cbv zeta.
    destruct (forallb _ _).
    + destruct (PruneHashComponent d schema scan_spec) as [bs| |] eqn:Hp; try discriminate.
      simpl. intros H. apply IH in H.
      * rewrite length_app in H. simpl in *. split; [tauto|lia].
      * apply Forall_app. split; [exact Hacc|]. constructor; [|constructor].
        rewrite (PruneHashComponent_length _ _ _ _ Hp). exact Hd.
    + intros H. apply IH in H.
      * rewrite length_app in H. simpl in *. split; [tauto|lia].
      * apply Forall_app. split; [exact Hacc|]. constructor; [|constructor].
        rewrite length_replicate. exact Hd.
Qed.

Lemma constrained_index_of_le (range_bounds : RangeBounds) (bitsets : list (list bool))
    (h : nat) :
  constrained_index_of range_bounds bitsets h <= h.
Proof. unfold constrained_index_of. destruct (_ || _); lia. Qed.

Lemma seed_points : point_ranges 0 [{| start := []; end_ := [] |}].
Proof. split; [|reflexivity]. constructor; [auto|constructor]. Qed.

(** The ranges that [ConstructPartitionKeyRanges] returns are disjoint and
    in ascending order. *)
Lemma ConstructPartitionKeyRanges_sorted (schema : Schema) (scan_spec : ScanSpec)
    (hash_schema : HashSchema) (range_bounds : RangeBounds) (v : list PartitionKeyRange) :
  buckets_fit hash_schema ->
  ConstructPartitionKeyRanges schema scan_spec hash_schema range_bounds = Ok v ->
  ranges_sorted v = true.
Proof.
  intros Hfit. unfold ConstructPartitionKeyRanges.
  destruct (bitsets_loop schema scan_spec hash_schema []) as [bitsets| |] eqn:Hb;
    try discriminate.
  apply bitsets_loop_fit in Hb as [Hbs Hlen]; [|exact Hfit|constructor].
  simpl in Hlen. cbn [bind]. cbv zeta.
  set (Cidx := constrained_index_of range_bounds bitsets (length hash_schema)).
  assert (ranges_sorted
            (map (append_range_bounds range_bounds)
               (hash_loop range_bounds Cidx 0 bitsets [{| start := []; end_ := [] |}])) = true)
    as Hsorted.
  { destruct (upper range_bounds) as [|c u] eqn:Hup.
    - destruct Cidx as [|c'] eqn:HC.
      + rewrite hash_loop_done by lia. reflexivity.
      + destruct (hash_loop_last range_bounds (S c') bitsets Hup Hbs 0 0
                    [{| start := []; end_ := [] |}]) as [H1 [n' H2]];
          [lia| |apply seed_points|].
        * pose proof (constrained_index_of_le range_bounds bitsets (length hash_schema)).
          fold Cidx in H. lia.
        * eapply append_sorted_sorted; eassumption.
    - destruct (hash_loop_points range_bounds Cidx bitsets) with (i := 0) (n := 0)
        (l := [{| start := []; end_ := [] |}]) as [n' Hn'];
        [rewrite Hup; discriminate|exact Hbs|apply seed_points|].
      eapply append_points_sorted; [rewrite Hup; discriminate|exact Hn']. }
  destruct (negb (str_empty (exclusive_upper_bound_partition_key scan_spec))).
  - intros [= <-]. apply trim_loop_sorted, Hsorted.
  - intros [= <-]. exact Hsorted.
Qed.

Lemma range_is_stored_spec (scan_lower scan_upper : bytes) (seg : RangeWithHashSchema.t) :
  range_is_stored scan_lower scan_upper seg = segment_included_spec scan_lower scan_upper seg.
Proof.
  unfold range_is_stored, segment_included_spec.
  destruct scan_lower, scan_upper; simpl;
    repeat match goal with |- context [if ?b then true else false] => destruct b end;
    reflexivity.
Qed.

Lemma store_loop_spec (scan_lower scan_upper : bytes) (ranges : list RangeWithHashSchema.t)
    (range_bounds : list RangeBounds) (hash_schemas_per_range : list HashSchema) :
  store_loop scan_lower scan_upper ranges range_bounds hash_schemas_per_range =
  (range_bounds ++
     map segment_bounds (List.filter (segment_included_spec scan_lower scan_upper) ranges),
   hash_schemas_per_range ++
     map RangeWithHashSchema.hash_schema
       (List.filter (segment_included_spec scan_lower scan_upper) ranges)).
Proof.
  revert range_bounds hash_schemas_per_range.
  induction ranges as [|seg rest IH]; intros rbs hss.
  - simpl. rewrite !app_nil_r. reflexivity.
  - cbn [store_loop List.filter]. rewrite range_is_stored_spec.
    destruct (segment_included_spec scan_lower scan_upper seg); [|apply IH].
    rewrite IH. cbn [map]. rewrite <- !app_assoc. reflexivity.
Qed.

Lemma construct_loop_spec (schema : Schema) (scan_spec : ScanSpec)
    (scan_lower scan_upper : bytes) (segs : list RangeWithHashSchema.t) (p : pruner) :
  construct_loop schema scan_spec scan_lower scan_upper
    (map segment_bounds segs) (map RangeWithHashSchema.hash_schema segs) = Ok p ->
  Forall2 (built_from schema scan_spec (bounds_used scan_lower scan_upper)) p segs.
Proof.
  revert p. induction segs as [|seg rest IH]; intros p.
  - simpl. intros [= <-]. constructor.
  - cbn [map construct_loop]. cbv zeta.
    change (if str_empty scan_lower && str_empty scan_upper
            then {| lower := lower (segment_bounds seg); upper := upper (segment_bounds seg) |}
            else {| lower := scan_lower; upper := scan_upper |})
      with (bounds_used scan_lower scan_upper seg).
    destruct (ConstructPartitionKeyRanges schema scan_spec
                (RangeWithHashSchema.hash_schema seg) (bounds_used scan_lower scan_upper seg))
      as [v| |] eqn:Hv; try discriminate.
    cbn [bind].
    destruct (construct_loop schema scan_spec scan_lower scan_upper
                (map segment_bounds rest) (map RangeWithHashSchema.hash_schema rest))
      as [p'| |] eqn:Hp'; try discriminate.
    cbn [bind]. intros [= <-]. constructor; [|apply IH; reflexivity].
    split; [reflexivity|]. exists v. auto.
Qed.

(** What [Init] does with the range segments of a table that has some. *)
Lemma Init_custom_ranges (schema : Schema) (partition_schema : PartitionSchema)
    (scan_spec : ScanSpec) (scan_lower scan_upper : bytes) (p : pruner) :
  CanShortCircuit scan_spec = false ->
  ranges_with_hash_schemas_ partition_schema <> [] ->
  scan_range_bounds schema partition_schema scan_spec = Ok (scan_lower, scan_upper) ->
  Init schema partition_schema scan_spec = Ok p ->
  init_builds bounds_used schema partition_schema scan_spec scan_lower scan_upper p.
Proof.
  intros Hsc Hne Hb. unfold Init. rewrite Hsc, Hb. cbn [bind].
  destruct (ranges_with_hash_schemas_ partition_schema) as [|seg segs] eqn:Hsegs;
    [contradiction|].
  rewrite store_loop_spec. cbn [app].
  destruct (construct_loop _ _ _ _ _ _) as [p0| |] eqn:Hp0; try discriminate.
  cbn [bind]. intros Hp. exists p0. rewrite Hsegs. split.
  - apply construct_loop_spec, Hp0.
  - destruct (negb _); congruence.
Qed.

Lemma RemovePartitionKeyRange_range_bounds (upper_bound : bytes) (p : pruner) :
  map range_bounds (RemovePartitionKeyRange upper_bound p) =
  if str_empty upper_bound then [] else map range_bounds p.
Proof.
  unfold RemovePartitionKeyRange. destruct (str_empty upper_bound); [reflexivity|].
  rewrite map_map. reflexivity.
Qed.

Lemma built_from_sorted (schema : Schema) (scan_spec : ScanSpec)
    (bounds : RangeWithHashSchema.t -> RangeBounds) (p : pruner)
    (segs : list RangeWithHashSchema.t) :
  Forall (fun seg => buckets_fit (RangeWithHashSchema.hash_schema seg)) segs ->
  Forall2 (built_from schema scan_spec bounds) p segs ->
  cursor_sorted p = true.
Proof.
  intros Hfit H. induction H as [|b seg p segs [_ (v & Hv & Hb)] _ IH]; [reflexivity|].
  inversion Hfit as [|? ? Hseg Hsegs]; subst.
  simpl. rewrite (IH Hsegs), andb_true_r. unfold ascending_ranges.
  rewrite Hb, rev_involutive. eapply ConstructPartitionKeyRanges_sorted; eassumption.
Qed.

Lemma Forall_filter {A : Type} (P : A -> Prop) (f : A -> bool) (l : list A) :
  Forall P l -> Forall P (List.filter f l).
Proof.
  intros H. apply Forall_forall. intros x Hx. apply list_elem_of_In, filter_In in Hx as [Hx _].
  rewrite Forall_forall in H. apply H, list_elem_of_In, Hx.
Qed.

(** [Init] leaves a cursor whose elements hold sorted ranges. *)
Lemma Init_sorted (schema : Schema) (partition_schema : PartitionSchema)
    (scan_spec : ScanSpec) (p : pruner) :
  partition_schema_fits partition_schema ->
  Init schema partition_schema scan_spec = Ok p ->
  cursor_sorted p = true.
Proof.
  intros [Hfit Hfits] Hinit.
  destruct (CanShortCircuit scan_spec) eqn:Hsc.
  { unfold Init in Hinit. rewrite Hsc in Hinit. injection Hinit as <-. reflexivity. }
  destruct (scan_range_bounds schema partition_schema scan_spec) as [[lo up]| |] eqn:Hb;
    try (unfold Init in Hinit; rewrite Hsc, Hb in Hinit; discriminate).
  destruct (ranges_with_hash_schemas_ partition_schema) as [|seg segs] eqn:Hsegs.
  - unfold Init in Hinit. rewrite Hsc, Hb, Hsegs in Hinit. cbn [bind] in Hinit.
    destruct (ConstructPartitionKeyRanges _ _ _ _) as [v| |] eqn:Hv; try discriminate.
    cbn [bind] in Hinit.
    assert (cursor_sorted
              [{| range_bounds := {| lower := []; upper := [] |};
                  partition_key_ranges := rev v |}] = true) as Hs.
    { simpl. unfold ascending_ranges. simpl. rewrite rev_involutive, andb_true_r.
      eapply ConstructPartitionKeyRanges_sorted; eassumption. }
    destruct (negb _); injection Hinit as <-; [apply RemovePartitionKeyRange_sorted|];
      exact Hs.
  - destruct (Init_custom_ranges _ _ _ _ _ _ Hsc ltac:(rewrite Hsegs; discriminate) Hb Hinit)
      as (p0 & Hp0 & ->).
    apply built_from_sorted in Hp0; [|apply Forall_filter; rewrite Hsegs; exact Hfits].
    destruct (negb _); [apply RemovePartitionKeyRange_sorted|]; exact Hp0.
Qed.

(** The cursor of a pruner holds sorted ranges in every state. *)
Lemma reachable_sorted (p : pruner) : reachable p -> cursor_sorted p = true.
Proof.
  induction 1 as [|schema partition_schema scan_spec p Hfit Hinit|upper_bound p _ IH].
  - reflexivity.
  - eapply Init_sorted; eassumption.
  - apply RemovePartitionKeyRange_sorted, IH.
Qed.

End Construct.

(** ** Range keys from the primary key bounds *)

Section RangeKeys.
Context `{C : Collaborators}.

Lemma copy_cells_app (key : EncodedKey) (l1 l2 : list nat) (row : Row) :
  copy_cells key (l1 ++ l2) row =
  (row' <-- copy_cells key l1 row ;; copy_cells key l2 row').
Proof.
  revert row. induction l1 as [|idx l1 IH]; intros row; [reflexivity|].
  simpl. destruct (raw_keys key !! idx); [apply IH|reflexivity].
Qed.

(** The [memcpy] loop over the first [k] columns replaces the first [k]
    cells of the row by those of the key. *)
Lemma copy_cells_prefix (key : EncodedKey) (k : nat) (row : Row) :
  k <= length (raw_keys key) -> k <= length row ->
  copy_cells key (seq 0 k) row = Ok (take k (raw_keys key) ++ drop k row).
Proof.
  induction k as [|k IH]; intros Hkey Hrow.
  - simpl. rewrite drop_0. reflexivity.
  - rewrite seq_S, copy_cells_app, IH by lia. cbn [bind Nat.add copy_cells].
    destruct (lookup_lt_is_Some_2 (raw_keys key) k ltac:(lia)) as [v Hv].
    destruct (lookup_lt_is_Some_2 row k ltac:(lia)) as [x Hx].
    rewrite Hv. f_equal.
    rewrite (take_S_r _ _ _ Hv), (drop_S _ _ _ Hx), <- app_assoc.
    replace k with (length (take k (raw_keys key)) + 0) at 1
      by (rewrite length_take; lia).
    rewrite insert_app_r. reflexivity.
Qed.

Lemma min_suffix_loop_spec (schema : Schema) (key : EncodedKey) (idxs : list nat) (acc : bool) :
  (forall idx, In idx idxs -> idx < length (raw_keys key)) ->
  min_suffix_loop schema key idxs acc =
  Ok (acc && forallb (fun idx => IsMinValue schema idx (nth idx (raw_keys key) [])) idxs).
Proof.
  revert acc. induction idxs as [|idx rest IH]; intros acc Hin.
  - simpl. rewrite andb_true_r. reflexivity.
  - cbn [min_suffix_loop forallb].
    destruct (lookup_lt_is_Some_2 (raw_keys key) idx) as [v Hv];
      [apply Hin; left; reflexivity|].
    rewrite Hv, IH by (intros i Hi; apply Hin; right; exact Hi).
    rewrite (nth_lookup_Some _ _ _ _ Hv), andb_assoc. reflexivity.
Qed.

(** The upper range key that [EncodeRangeKeysFromPrimaryKeyBounds] leaves
    in [*range_key_end], when the range columns are a proper prefix of the
    primary key and the scan has an exclusive upper primary key. *)
Lemma EncodeRangeKeysFromPrimaryKeyBounds_upper (schema : Schema) (scan_spec : ScanSpec)
    (k : nat) (key : EncodedKey) :
  k < num_key_columns schema ->
  exclusive_upper_bound_key scan_spec = Some key ->
  length (raw_keys key) = num_key_columns schema ->
  (forall lo, lower_bound_key scan_spec = Some lo ->
              length (raw_keys lo) = num_key_columns schema) ->
  exists range_key_start,
    EncodeRangeKeysFromPrimaryKeyBounds schema scan_spec k [] [] =
    Ok (range_key_start, range_upper_spec schema k key).
Proof.
  intros Hk Hup Hlen Hlo. unfold EncodeRangeKeysFromPrimaryKeyBounds. rewrite Hup.
  assert ((k =? num_key_columns schema) = false) as -> by (apply Nat.eqb_neq; lia).
  assert (forall (row0 : Row) (start0 : bytes),
            length row0 = num_key_columns schema ->
            drop k row0 = replicate (num_key_columns schema - k) [] ->
            exists range_key_start : bytes,
              (row <-- copy_cells key (seq 0 k) row0 ;;
               min_suffix <-- min_suffix_loop schema key
                                (seq k (num_key_columns schema - k)) true ;;
               if negb min_suffix then
                 let '(incremented, row) := IncrementPrimaryKey schema row k in
                 if negb incremented then Ok (start0, [])
                 else Ok (start0, EncodeKey schema (seq 0 k) row [])
               else Ok (start0, EncodeKey schema (seq 0 k) row [])) =
              Ok (range_key_start, range_upper_spec schema k key)) as Hmain.
  { intros row0 start0 Hrow0 Hdrop. exists start0.
    rewrite copy_cells_prefix, Hdrop by lia. cbn [bind].
    rewrite min_suffix_loop_spec
      by (intros idx Hidx; apply in_seq in Hidx; lia).
    cbn [bind andb]. unfold range_upper_spec, suffix_is_min, prefix_row.
    destruct (forallb _ _); cbn [negb]; [reflexivity|].
    destruct (IncrementPrimaryKey schema _ k) as [[|] row']; reflexivity. }
  assert (drop k (fresh_row schema) = replicate (num_key_columns schema - k) []) as Hfresh.
  { unfold fresh_row. apply drop_replicate. }
  destruct (lower_bound_key scan_spec) as [lo|] eqn:Hlower.
  - specialize (Hlo lo eq_refl).
    rewrite copy_cells_prefix
      by (rewrite ?Hlo; unfold fresh_row; rewrite ?length_replicate; lia).
    cbn [bind]. apply Hmain.
    + rewrite length_app, length_take, length_drop. unfold fresh_row.
      rewrite length_replicate. lia.
    + rewrite drop_app_length' by (rewrite length_take; lia). exact Hfresh.
  - cbn [bind]. apply Hmain; [apply length_replicate|exact Hfresh].
Qed.

End RangeKeys.

(** ** [Init] returns *)

Section Returns.
Context `{C : Collaborators}.

Lemma column_loop_returns (schema : Schema) (scan_spec : ScanSpec) (num_columns : nat)
    (columns : list ColumnId) :
  forallb (has_value_predicate schema scan_spec) columns = true ->
  forall col_offset encoded_strings,
  exists result,
    column_loop schema scan_spec num_columns col_offset columns encoded_strings = Ok result.
Proof.
  induction columns as [|id rest IH]; intros Hall col_offset encoded_strings.
  - eexists. reflexivity.
  - cbn [forallb] in Hall. apply andb_true_iff in Hall as [Hid Hrest].
    cbn [column_loop]. unfold has_value_predicate in Hid.
    destruct (predicates scan_spec !! column_name schema id) as [predicate|];
      [|discriminate].
    unfold predicate_values. destruct (predicate_type predicate); try discriminate;
      cbn [bind]; apply IH, Hrest.
Qed.

Lemma set_buckets_returns (d : HashDimension.t) (encoded_strings : list bytes)
    (bitset : list bool) :
  (forall encoded, HashValueForEncodedColumns encoded d < length bitset) ->
  exists result, set_buckets d encoded_strings bitset = Ok result.
Proof.
  intros Hd. revert bitset Hd. induction encoded_strings as [|e rest IH]; intros bitset Hd.
  - eexists. reflexivity.
  - cbn [set_buckets]. cbv zeta. pose proof (Hd e) as He. apply Nat.ltb_lt in He.
    rewrite He. apply IH. intros encoded. rewrite length_insert. apply Hd.
Qed.

Lemma bitsets_loop_returns (schema : Schema) (scan_spec : ScanSpec) (hash_schema : HashSchema) :
  hash_in_range hash_schema ->
  forall acc, exists bitsets, bitsets_loop schema scan_spec hash_schema acc = Ok bitsets.
Proof.
  induction hash_schema as [|d rest IH]; intros Hin acc.
  - eexists. reflexivity.
  - assert (hash_in_range rest) as Hrest
        by (intros d' e Hd'; apply Hin; right; exact Hd').
    cbn [bitsets_loop]. cbv zeta.
    destruct (forallb _ _) eqn:Hall; [|apply IH, Hrest].
    unfold PruneHashComponent.
    destruct (column_loop_returns schema scan_spec
                (length (HashDimension.column_ids d)) _ Hall 0 [[]]) as [es ->].
    cbn [bind].
    destruct (set_buckets_returns d es (replicate (HashDimension.num_buckets d) false))
      as [bs ->].
    { intros e. rewrite length_replicate. apply Hin. left. reflexivity. }
    cbn [bind]. apply IH, Hrest.
Qed.

Lemma ConstructPartitionKeyRanges_returns (schema : Schema) (scan_spec : ScanSpec)
    (hash_schema : HashSchema) (range_bounds : RangeBounds) :
  hash_in_range hash_schema ->
  exists v, ConstructPartitionKeyRanges schema scan_spec hash_schema range_bounds = Ok v.
Proof.
  intros Hin. unfold ConstructPartitionKeyRanges.
  destruct (bitsets_loop_returns schema scan_spec hash_schema Hin []) as [bitsets ->].
  cbn [bind]. cbv zeta. destruct (negb _); eexists; reflexivity.
Qed.

Lemma construct_loop_returns (schema : Schema) (scan_spec : ScanSpec)
    (scan_lower scan_upper : bytes) (segs : list RangeWithHashSchema.t) :
  Forall (fun seg => hash_in_range (RangeWithHashSchema.hash_schema seg)) segs ->
  exists p,
    construct_loop schema scan_spec scan_lower scan_upper
      (map segment_bounds segs) (map RangeWithHashSchema.hash_schema segs) = Ok p.
Proof.
  induction 1 as [|seg segs Hseg _ [p IH]]; [eexists; reflexivity|].
  cbn [map construct_loop]. cbv zeta.
  destruct (ConstructPartitionKeyRanges_returns schema scan_spec
              (RangeWithHashSchema.hash_schema seg)
              (if str_empty scan_lower && str_empty scan_upper
               then {| lower := lower (segment_bounds seg);
                       upper := upper (segment_bounds seg) |}
               else {| lower := scan_lower; upper := scan_upper |}) Hseg) as [v ->].
  cbn [bind]. rewrite IH. cbn [bind]. eexists. reflexivity.
Qed.

(** [Init] returns a cursor whenever the range keys of the scan can be
    derived and the hash values are bucket numbers. *)
Lemma Init_returns (schema : Schema) (partition_schema : PartitionSchema)
    (scan_spec : ScanSpec) (bounds : bytes * bytes) :
  scan_range_bounds schema partition_schema scan_spec = Ok bounds ->
  hash_in_range (hash_schema_ partition_schema) ->
  Forall (fun seg => hash_in_range (RangeWithHashSchema.hash_schema seg))
         (ranges_with_hash_schemas_ partition_schema) ->
  exists p, Init schema partition_schema scan_spec = Ok p.
Proof.
  intros Hb Hin Hsegs. unfold Init.
  destruct (CanShortCircuit scan_spec); [eexists; reflexivity|].
  rewrite Hb. cbn [bind]. destruct bounds as [lo up].
  destruct (ranges_with_hash_schemas_ partition_schema) as [|seg segs] eqn:E.
  - destruct (ConstructPartitionKeyRanges_returns schema scan_spec
                (hash_schema_ partition_schema) {| lower := lo; upper := up |} Hin) as [v ->].
    cbn [bind]. destruct (negb _); eexists; reflexivity.
  - rewrite store_loop_spec. cbn [app].
    destruct (construct_loop_returns schema scan_spec lo up
                (List.filter (segment_included_spec lo up) (seg :: segs))) as [p ->];
      [apply Forall_filter, Hsegs|].
    cbn [bind]. destruct (negb _); eexists; reflexivity.
Qed.

End Returns.

(** ** The cursor after [Init] *)

Section InitProperties.
Context `{C : Collaborators}.

(** C7. When the range columns are a proper prefix of the primary key and
    the scan has an exclusive upper primary key, the upper range key that
    [Init] derives is the encoding of the first [k] columns of that key as
    they are if every column beyond the prefix holds the minimum value of
    its type; otherwise it is the encoding of the incremented prefix; and
    it is left empty if the prefix cannot be incremented. *)
Theorem scan_range_upper_from_primary_key (schema : Schema)
    (partition_schema : PartitionSchema) (scan_spec : ScanSpec) (key : EncodedKey) :
  let range_columns := RangeSchema.column_ids (range_schema_ partition_schema) in
  let k := length range_columns in
  prefix_loop schema 0 range_columns = true ->
  0 < k -> k < num_key_columns schema ->
  exclusive_upper_bound_key scan_spec = Some key ->
  length (raw_keys key) = num_key_columns schema ->
  (forall lo, lower_bound_key scan_spec = Some lo ->
              length (raw_keys lo) = num_key_columns schema) ->
  exists range_lower,
    scan_range_bounds schema partition_schema scan_spec =
    Ok (range_lower, range_upper_spec schema k key).
Proof.
  cbv zeta. intros Hprefix Hpos Hk Hup Hlen Hlo.
  unfold scan_range_bounds.
  destruct (RangeSchema.column_ids (range_schema_ partition_schema)) as [|id rest];
    [simpl in Hpos; lia|].
  unfold AreRangeColumnsPrefixOfPrimaryKey.
  assert ((length (id :: rest) <=? num_key_columns schema) = true) as ->
      by (apply Nat.leb_le; lia).
  cbn [bind]. rewrite Hprefix.
  apply EncodeRangeKeysFromPrimaryKeyBounds_upper; assumption.
Qed.

(** C8. With custom range segments, the elements of the cursor that [Init]
    builds are those of the segments that overlap the scan's range bounds,
    in the order of the segments: every segment if the scan has no range
    bound; those with [range_upper > seg_lower] if it has an upper bound
    only; those with [seg_upper] empty or [range_lower < seg_upper] if it
    has a lower bound only; those with both if it has both. *)
Theorem Init_stores_overlapping_segments (schema : Schema)
    (partition_schema : PartitionSchema) (scan_spec : ScanSpec)
    (range_lower range_upper : bytes) (p : pruner) :
  CanShortCircuit scan_spec = false ->
  ranges_with_hash_schemas_ partition_schema <> [] ->
  scan_range_bounds schema partition_schema scan_spec = Ok (range_lower, range_upper) ->
  Init schema partition_schema scan_spec = Ok p ->
  map range_bounds p =
  map segment_bounds
      (List.filter (segment_included_spec range_lower range_upper)
         (ranges_with_hash_schemas_ partition_schema)).
Proof.
  intros Hsc Hne Hb Hinit.
  destruct (Init_custom_ranges _ _ _ _ _ _ Hsc Hne Hb Hinit) as (p0 & Hp0 & ->).
  assert (map range_bounds p0 =
          map segment_bounds
            (List.filter (segment_included_spec range_lower range_upper)
               (ranges_with_hash_schemas_ partition_schema))) as Hmap.
  { clear Hinit. induction Hp0 as [|b seg p0 segs [Hb0 _] _ IH]; [reflexivity|].
    cbn [map]. rewrite Hb0, IH. reflexivity. }
  destruct (str_empty (lower_bound_partition_key scan_spec)) eqn:He; cbn [negb];
    [exact Hmap|].
  rewrite RemovePartitionKeyRange_range_bounds, He. exact Hmap.
Qed.

(** C9, as amended. For every included range segment, [Init] builds the
    ranges of its element with the hash schema of the segment and with the
    range bounds that were derived from the scan, as they are, whenever the
    scan has at least one range bound, and with the bounds of the segment
    when it has none. *)
Theorem Init_builds_with_scan_bounds (schema : Schema)
    (partition_schema : PartitionSchema) (scan_spec : ScanSpec)
    (range_lower range_upper : bytes) (p : pruner) :
  CanShortCircuit scan_spec = false ->
  ranges_with_hash_schemas_ partition_schema <> [] ->
  scan_range_bounds schema partition_schema scan_spec = Ok (range_lower, range_upper) ->
  Init schema partition_schema scan_spec = Ok p ->
  init_builds bounds_used schema partition_schema scan_spec range_lower range_upper p.
Proof. apply Init_custom_ranges. Qed.

Lemma Init_table_wide (schema : Schema) (partition_schema : PartitionSchema)
    (scan_spec : ScanSpec) (p : pruner) :
  ranges_with_hash_schemas_ partition_schema = [] ->
  Init schema partition_schema scan_spec = Ok p ->
  p = [] \/ exists b, p = [b].
Proof.
  intros Hsegs. unfold Init. destruct (CanShortCircuit scan_spec).
  { intros [= <-]. left. reflexivity. }
  destruct (scan_range_bounds _ _ _) as [[lo up]| |]; try discriminate.
  cbn [bind]. rewrite Hsegs.
  destruct (ConstructPartitionKeyRanges _ _ _ _) as [v| |]; try discriminate.
  cbn [bind]. destruct (str_empty (lower_bound_partition_key scan_spec)) eqn:He; cbn [negb];
    intros [= <-]; right; [eexists; reflexivity|].
  unfold RemovePartitionKeyRange. rewrite He. eexists. reflexivity.
Qed.

(** C2, as amended. After [Init], the ranges of every element of the
    cursor, read in ascending order, have strictly ascending [start] keys;
    without custom range segments the cursor has one element at most, and
    the whole cursor is in strictly ascending order. *)
Theorem Init_ranges_ascending (schema : Schema) (partition_schema : PartitionSchema)
    (scan_spec : ScanSpec) (p : pruner) :
  partition_schema_fits partition_schema ->
  Init schema partition_schema scan_spec = Ok p ->
  (forall b, In b p -> starts_ascending (ascending_ranges b) = true) /\
  (ranges_with_hash_schemas_ partition_schema = [] ->
   starts_ascending (cursor_ranges p) = true).
Proof.
  intros Hfit Hinit. pose proof (Init_sorted _ _ _ _ Hfit Hinit) as Hs.
  rewrite cursor_sorted_spec in Hs. split.
  - intros b Hb. apply ranges_sorted_starts, Hs, Hb.
  - intros Hsegs. destruct (Init_table_wide _ _ _ _ Hsegs Hinit) as [->|[b ->]];
      [reflexivity|].
    unfold cursor_ranges. simpl. rewrite app_nil_r.
    apply ranges_sorted_starts, Hs. left. reflexivity.
Qed.

End InitProperties.

(** ** The keys that a scanner sees *)

Lemma last_map {A B : Type} (f : A -> B) (l : list A) (y : B) :
  last (map f l) = Some y -> exists x, last l = Some x /\ y = f x.
Proof.
  intros H. apply last_Some_app in H as [l' H].
  destruct l as [|x l _] using rev_ind; [destruct l'; discriminate|].
  rewrite map_app in H. simpl in H. apply app_inj_tail in H as [_ <-].
  exists x. split; [apply last_snoc|reflexivity].
Qed.

Lemma last_rev {A : Type} (l : list A) (x : A) :
  last (rev l) = Some x -> exists rest, l = x :: rest.
Proof.
  intros H. apply last_Some_app in H as [l' H].
  exists (rev l'). rewrite <- (rev_involutive l), H, rev_app_distr. reflexivity.
Qed.

(** One call of [NextPartitionKey], [RemovePartitionKeyRange] of a greater
    key, and the next call: the second key is greater than the first. *)
Lemma scan_step_ascending (p : pruner) (key upper_bound key' : bytes) :
  cursor_sorted p = true ->
  NextPartitionKey p = Ok key ->
  str_lt key upper_bound = true ->
  NextPartitionKey (RemovePartitionKeyRange upper_bound p) = Ok key' ->
  str_lt key key' = true.
Proof.
  intros Hs _ Hlt Hnext.
  rewrite (RemovePartitionKeyRange_sorted_spec _ _ Hs) in Hnext.
  unfold advance_past_spec in Hnext.
  pose proof (str_lt_nonempty _ _ Hlt) as He. apply str_empty_false in He.
  rewrite He in Hnext.
  apply NextPartitionKey_Ok in Hnext as (b' & r' & Hb' & Hr' & ->).
  apply last_map in Hb' as (b & _ & ->). simpl in Hr'.
  apply last_rev in Hr' as [rest Hr'].
  apply advance_ranges_spec_head in Hr'.
  eapply str_lt_le_trans; eassumption.
Qed.

Lemma scan_trace_sorted (p : pruner) (keys : list bytes) :
  cursor_sorted p = true -> scan_trace p keys -> all_pairs str_lt keys = true.
Proof.
  intros Hs Ht. induction Ht as [|p key upper_bound keys Hnext Hlt Ht IH]; [reflexivity|].
  specialize (IH (RemovePartitionKeyRange_sorted _ _ Hs)).
  apply all_pairs_cons. split; [|exact IH].
  destruct keys as [|key' keys']; [intros y []|].
  inversion Ht as [|? ? upper_bound' ? Hnext' _ _]; subst.
  pose proof (scan_step_ascending _ _ _ _ Hs Hnext Hlt Hnext') as Hkk'.
  apply all_pairs_cons in IH as [Hk' _].
  intros y [<-|Hy]; [exact Hkk'|]. eapply str_lt_trans; [exact Hkk'|apply Hk', Hy].
Qed.

(** In every state of an initialised pruner, and in every run from it in
    which each call of [NextPartitionKey] returns a key and is followed by
    [RemovePartitionKeyRange] of a key greater than the one returned, the
    keys that the successive calls return are in strictly ascending order.
    (A call does not return a key when the last element of the cursor has
    been emptied before another one.) *)
Theorem scan_keys_ascending `{C : Collaborators} (p : pruner) (keys : list bytes) :
  reachable p ->
  scan_trace p keys ->
  all_pairs str_lt keys = true.
Proof.
  intros Hp Ht. eapply scan_trace_sorted; [|exact Ht]. apply reachable_sorted, Hp.
Qed.

(** C6. In every state of a pruner, [RemovePartitionKeyRange] of an empty
    key clears the cursor, and that of another key treats the ranges of
    every element from the smallest [start] upward: it stops at a range
    that starts at [upper_bound] or later, it replaces the [start] of a
    range that is unbounded or ends after [upper_bound] and stops there,
    and it removes any other range; nothing else changes.  (The loop of the
    code goes on after it has replaced a [start]; the ranges being sorted,
    its next turn stops.) *)
Theorem RemovePartitionKeyRange_advance_past `{C : Collaborators} (upper_bound : bytes)
    (p : pruner) :
  reachable p ->
  RemovePartitionKeyRange upper_bound p = advance_past_spec upper_bound p /\
  (upper_bound = [] -> RemovePartitionKeyRange upper_bound p = []) /\
  map range_bounds (RemovePartitionKeyRange upper_bound p) =
    (if str_empty upper_bound then [] else map range_bounds p).
Proof.
  intros Hp. split; [apply RemovePartitionKeyRange_sorted_spec, reachable_sorted, Hp|].
  split; [intros ->; reflexivity|apply RemovePartitionKeyRange_range_bounds].
Qed.

(** ** Examples *)

(** C1. [Init] on two range segments, for a scan whose upper bound
    partition key is the lower bound of the second segment, leaves a cursor
    whose last element has no range while the first has one: the cursor has
    more ranges, the next key is the [start] of the range of the first
    element, and [NextPartitionKey] reads [back()] of the empty vector of
    the last element. *)
Theorem NextPartitionKey_last_element_empty :
  Init (C := Example.table) 1 Example.plain_segments (Example.up_to [x02]) =
    Ok Example.first_segment_only /\
  HasMorePartitionKeyRanges Example.first_segment_only = true /\
  next_spec Example.first_segment_only = Some [x01] /\
  NextPartitionKey Example.first_segment_only = Undefined.
Proof. repeat split; vm_compute; reflexivity. Qed.

(** C3. [Init] on two range segments, the first hashed into three buckets
    and the second into two, for a scan without bounds: the first two calls
    of [NextPartitionKey] return the keys of the buckets 0 and 1 of the
    second segment, each being followed by [RemovePartitionKeyRange] of the
    end of that tablet.  The last element of the cursor is then empty while
    the first still holds the range of its bucket 2: the cursor has more
    ranges, the next key is the [start] of that range, which is greater than
    the keys returned so far, and [NextPartitionKey] reads [back()] of the
    empty vector of the last element, so that the run has no third key. *)
Theorem scan_keys_last_element_empty :
  partition_schema_fits Example.uneven_segments /\
  exists p0,
    Init (C := Example.table) 1 Example.uneven_segments Example.no_bounds = Ok p0 /\
    NextPartitionKey p0 = Ok [x00; x00; x00; x00; x02] /\
    str_lt [x00; x00; x00; x00; x02] [x00; x00; x00; x00; x03] = true /\
    let p1 := RemovePartitionKeyRange [x00; x00; x00; x00; x03] p0 in
    NextPartitionKey p1 = Ok [x00; x00; x00; x01; x02] /\
    str_lt [x00; x00; x00; x01; x02] [x00; x00; x00; x01; x03] = true /\
    let p2 := RemovePartitionKeyRange [x00; x00; x00; x01; x03] p1 in
    p2 = [Example.element [x01] [x02]
            [Example.range [x00; x00; x00; x02; x01] [x00; x00; x00; x02; x02]];
          Example.element [x02] [x03] []] /\
    HasMorePartitionKeyRanges p2 = true /\
    next_spec p2 = Some [x00; x00; x00; x02; x01] /\
    NextPartitionKey p2 = Undefined.
Proof.
  split; [split; repeat constructor; simpl; lia|].
  eexists. split; [vm_compute; reflexivity|]. repeat split; vm_compute; reflexivity.
Qed.

(** C2 as stated does not hold: the cursor over two hashed range segments
    is not in ascending order;
    the ranges of the first segment in bucket 1 come before those of the
    second segment in bucket 0 and start after them. *)
Lemma Init_cursor_not_ascending :
  partition_schema_fits Example.hashed_segments /\
  exists p,
    Init (C := Example.table) 1 Example.hashed_segments Example.no_bounds = Ok p /\
    starts_ascending (cursor_ranges p) = false.
Proof.
  split.
  - split; repeat constructor.
  - eexists. split; vm_compute; reflexivity.
Qed.

(** C9 as stated does not hold: for a scan of the range keys from [01] to
    [03], the element of the segment from [01] to [02] is built with the
    bounds of the scan, not with their intersection with the segment. *)
Lemma Init_bounds_not_intersected :
  exists p,
    Init (C := Example.table) 1 Example.plain_segments
      (Example.between (Example.key [[x01]]) (Example.key [[x03]])) = Ok p /\
    scan_range_bounds (C := Example.table) 1 Example.plain_segments
      (Example.between (Example.key [[x01]]) (Example.key [[x03]])) = Ok ([x01], [x03]) /\
    ~ init_builds (C := Example.table) bounds_intersected 1 Example.plain_segments
        (Example.between (Example.key [[x01]]) (Example.key [[x03]])) [x01] [x03] p.
Proof.
  eexists. split; [vm_compute; reflexivity|]. split; [vm_compute; reflexivity|].
  intros (p0 & Hbuilt & Hp). simpl in Hp. subst p0.
  inversion Hbuilt as [|b seg p' segs' [_ (v & Hv & Hb)] _ E1 E2].
  vm_compute in Hv. injection Hv as <-. discriminate Hb.
Qed.

Lemma ShouldPrune_empty_cursor_witness :
  NumRangesRemaining [Example.element [x01] [x02] []] = 0 /\
  ShouldPrune [Example.element [x01] [x02] []]
    (Example.partition [x01] [x02] [x01] [x02]) = true.
Proof.
  split; [reflexivity|].
  apply (ShouldPrune_empty_cursor [Example.element [x01] [x02] []]
           (Example.partition [x01] [x02] [x01] [x02])).
  reflexivity.
Defined.

Lemma RemovePartitionKeyRange_advance_past_witness :
  reachable (C := Example.table) Example.two_ranges /\
  RemovePartitionKeyRange [x00; x00; x00; x00; x03] Example.two_ranges =
    advance_past_spec [x00; x00; x00; x00; x03] Example.two_ranges /\
  ([x00; x00; x00; x00; x03] = [] ->
   RemovePartitionKeyRange [x00; x00; x00; x00; x03] Example.two_ranges = []) /\
  map range_bounds (RemovePartitionKeyRange [x00; x00; x00; x00; x03] Example.two_ranges) =
    (if str_empty [x00; x00; x00; x00; x03] then [] else map range_bounds Example.two_ranges).
Proof.
  assert (reachable (C := Example.table) Example.two_ranges) as Hp.
  { apply (reachable_Init (C := Example.table) 1 Example.hashed_table
             (Example.between (Example.key [[x01]]) (Example.key [[x05]])));
      [split; repeat constructor|reflexivity]. }
  split; [exact Hp|].
  apply (RemovePartitionKeyRange_advance_past (C := Example.table)
           [x00; x00; x00; x00; x03] Example.two_ranges Hp).
Defined.

Lemma cross_product_bucket_upper_witness :
  hash_loop {| lower := []; upper := [] |} 2 0 [[true; false; true]; [false; true]]
      [Example.range [] []] =
    [Example.range [x00; x00; x00; x00; x00; x00; x00; x01]
                   [x00; x00; x00; x00; x00; x00; x00; x02];
     Example.range [x00; x00; x00; x02; x00; x00; x00; x01]
                   [x00; x00; x00; x02; x00; x00; x00; x02]] /\
  hash_loop {| lower := []; upper := [] |} 2 0 [[true; false; true]; [false; true]]
      [Example.range [] []] =
    enumeration_spec 2 [] [[true; false; true]; [false; true]] [Example.range [] []].
Proof.
  split; [reflexivity|].
  apply (cross_product_bucket_upper {| lower := []; upper := [] |} 2
           [[true; false; true]; [false; true]] [Example.range [] []]).
  repeat constructor.
Defined.

Lemma scan_range_upper_from_primary_key_witness :
  prefix_loop (C := Example.table) 2 0 [0%Z] = true /\
  range_upper_spec (C := Example.table) 2 1 (Example.key [[x05]; [x01]]) = [x06] /\
  exists range_lower,
    scan_range_bounds (C := Example.table) 2 Example.hashed_table
      (Example.between (Example.key [[x01]; [x00]]) (Example.key [[x05]; [x01]])) =
    Ok (range_lower, range_upper_spec (C := Example.table) 2 1 (Example.key [[x05]; [x01]])).
Proof.
  split; [reflexivity|]. split; [reflexivity|].
  apply (scan_range_upper_from_primary_key (C := Example.table) 2 Example.hashed_table
           (Example.between (Example.key [[x01]; [x00]]) (Example.key [[x05]; [x01]]))
           (Example.key [[x05]; [x01]]));
    [reflexivity|simpl; lia|simpl; lia|reflexivity|reflexivity|].
  intros lo [= <-]. reflexivity.
Defined.

Lemma Init_stores_overlapping_segments_witness :
  Init (C := Example.table) 1 Example.plain_segments
    (Example.between (Example.key [[x02]]) (Example.key [[x03]])) =
    Ok [Example.element [x02] [x03] [Example.range [x02] [x03]]] /\
  map range_bounds [Example.element [x02] [x03] [Example.range [x02] [x03]]] =
  map segment_bounds
      (List.filter (segment_included_spec [x02] [x03])
         (ranges_with_hash_schemas_ Example.plain_segments)).
Proof.
  split; [reflexivity|].
  apply (Init_stores_overlapping_segments (C := Example.table) 1 Example.plain_segments
           (Example.between (Example.key [[x02]]) (Example.key [[x03]])) [x02] [x03]);
    [reflexivity|discriminate|reflexivity|reflexivity].
Defined.

Lemma Init_builds_with_scan_bounds_witness :
  Init (C := Example.table) 1 Example.plain_segments
    (Example.between (Example.key [[x01]]) (Example.key [[x03]])) =
    Ok [Example.element [x01] [x02] [Example.range [x01] [x03]];
        Example.element [x02] [x03] [Example.range [x01] [x03]]] /\
  init_builds (C := Example.table) bounds_used 1 Example.plain_segments
    (Example.between (Example.key [[x01]]) (Example.key [[x03]])) [x01] [x03]
    [Example.element [x01] [x02] [Example.range [x01] [x03]];
     Example.element [x02] [x03] [Example.range [x01] [x03]]].
Proof.
  split; [reflexivity|].
  apply (Init_builds_with_scan_bounds (C := Example.table) 1 Example.plain_segments
           (Example.between (Example.key [[x01]]) (Example.key [[x03]])) [x01] [x03]);
    [reflexivity|discriminate|reflexivity|reflexivity].
Defined.

Lemma Init_ranges_ascending_witness :
  partition_schema_fits Example.hashed_table /\
  Init (C := Example.table) 1 Example.hashed_table
    (Example.between (Example.key [[x01]]) (Example.key [[x05]])) = Ok Example.two_ranges /\
  (forall b, In b Example.two_ranges -> starts_ascending (ascending_ranges b) = true) /\
  (ranges_with_hash_schemas_ Example.hashed_table = [] ->
   starts_ascending (cursor_ranges Example.two_ranges) = true).
Proof.
  assert (partition_schema_fits Example.hashed_table) as Hfit
    by (split; repeat constructor).
  split; [exact Hfit|]. split; [reflexivity|].
  apply (Init_ranges_ascending (C := Example.table) 1 Example.hashed_table
           (Example.between (Example.key [[x01]]) (Example.key [[x05]])) Example.two_ranges);
    [exact Hfit|reflexivity].
Defined.

Lemma scan_keys_ascending_witness :
  reachable (C := Example.table) Example.two_ranges /\
  scan_trace Example.two_ranges [[x00; x00; x00; x00; x01]; [x00; x00; x00; x01; x01]] /\
  all_pairs str_lt [[x00; x00; x00; x00; x01]; [x00; x00; x00; x01; x01]] = true.
Proof.
  assert (reachable (C := Example.table) Example.two_ranges) as Hp.
  { apply (reachable_Init (C := Example.table) 1 Example.hashed_table
             (Example.between (Example.key [[x01]]) (Example.key [[x05]])));
      [split; repeat constructor|reflexivity]. }
  assert (scan_trace Example.two_ranges
            [[x00; x00; x00; x00; x01]; [x00; x00; x00; x01; x01]]) as Htrace.
  { apply (scan_trace_step _ _ [x00; x00; x00; x00; x05]); [reflexivity|reflexivity|].
    apply (scan_trace_step _ _ [x00; x00; x00; x01; x05]); [reflexivity|reflexivity|].
    apply scan_trace_nil. }
  split; [exact Hp|]. split; [exact Htrace|].
  apply (scan_keys_ascending (C := Example.table) Example.two_ranges
           [[x00; x00; x00; x00; x01]; [x00; x00; x00; x01; x01]] Hp Htrace).
Defined.

(** * Further properties *)

(** ** The outcomes of [NextPartitionKey] *)

(** X1. [NextPartitionKey] is fatal exactly when no range remains; it
    returns a key exactly when the last element of the cursor holds a
    range, and the key is the [start] of the last range of that element;
    its result is undefined exactly when ranges remain but the last
    element holds none. *)
Theorem NextPartitionKey_outcomes (p : pruner) :
  (NextPartitionKey p = Fatal <-> NumRangesRemaining p = 0) /\
  (forall key,
     NextPartitionKey p = Ok key <->
     exists b r, last p = Some b /\ last (partition_key_ranges b) = Some r /\ key = start r) /\
  (NextPartitionKey p = Undefined <->
   NumRangesRemaining p <> 0 /\ exists b, last p = Some b /\ partition_key_ranges b = []).
Proof.
  assert (forall b r, last p = Some b -> last (partition_key_ranges b) = Some r ->
                      NumRangesRemaining p <> 0) as Hpos.
  { intros b r Hb Hr Hn. pose proof (NextPartitionKey_last p b r Hb Hr) as Hk.
    unfold NextPartitionKey, HasMorePartitionKeyRanges in Hk. rewrite Hn in Hk.
    discriminate. }
  split; [|split].
  - unfold NextPartitionKey, HasMorePartitionKeyRanges, back.
    destruct (Nat.eqb_spec (NumRangesRemaining p) 0) as [E|E]; simpl; [tauto|].
    split; [|contradiction].
    destruct (last p) as [b|]; [|discriminate]. simpl.
    destruct (last (partition_key_ranges b)); discriminate.
  - intros key. split; [apply NextPartitionKey_Ok|].
    intros (b & r & Hb & Hr & ->). apply (NextPartitionKey_last p b r Hb Hr).
  - unfold NextPartitionKey, HasMorePartitionKeyRanges, back.
    destruct (Nat.eqb_spec (NumRangesRemaining p) 0) as [E|E]; simpl.
    { split; [discriminate|tauto]. }
    destruct (last p) as [b|] eqn:Hb; simpl.
    + destruct (last (partition_key_ranges b)) as [r|] eqn:Hr; simpl.
      * split; [discriminate|]. intros (_ & b' & [= <-] & Hnil).
        rewrite Hnil in Hr. discriminate.
      * split; [|reflexivity]. intros _. split; [exact E|].
        exists b. split; [reflexivity|]. apply last_None, Hr.
    + apply last_None in Hb. subst p. contradiction.
Qed.

(** ** What [RemovePartitionKeyRange] keeps and removes *)

Lemma length_removelast {A : Type} (l : list A) : length (removelast l) = length l - 1.
Proof.
  destruct l as [|x l _] using rev_ind; [reflexivity|].
  rewrite removelast_last, length_app. simpl. lia.
Qed.

Lemma remove_loop_length (upper_bound : bytes) (n : nat) (v : list PartitionKeyRange) :
  length (remove_loop upper_bound n v) <= length v.
Proof.
  revert v. induction n as [|i IH]; intros v; [reflexivity|].
  cbn [remove_loop]. destruct (v !! i) as [range|]; [|reflexivity].
  destruct (str_le upper_bound (start range)); [reflexivity|].
  destruct (str_empty (end_ range) || str_lt upper_bound (end_ range)).
  - etransitivity; [apply IH|]. rewrite length_insert. reflexivity.
  - etransitivity; [apply IH|]. rewrite length_removelast. lia.
Qed.

(** X2. [RemovePartitionKeyRange] never adds a range, in any state of the
    cursor: the number of ranges that remain does not grow, and a cursor
    without ranges stays so. *)
Theorem RemovePartitionKeyRange_shrinks (upper_bound : bytes) (p : pruner) :
  NumRangesRemaining (RemovePartitionKeyRange upper_bound p) <= NumRangesRemaining p /\
  (HasMorePartitionKeyRanges p = false ->
   HasMorePartitionKeyRanges (RemovePartitionKeyRange upper_bound p) = false).
Proof.
  assert (NumRangesRemaining (RemovePartitionKeyRange upper_bound p) <= NumRangesRemaining p)
    as Hle.
  { unfold RemovePartitionKeyRange. destruct (str_empty upper_bound).
    - unfold NumRangesRemaining at 1. simpl. lia.
    - induction p as [|b p IH]; [reflexivity|].
      cbn [map]. rewrite !NumRangesRemaining_cons. cbn [partition_key_ranges].
      pose proof (remove_loop_length upper_bound (length (partition_key_ranges b))
                    (partition_key_ranges b)). lia. }
  split; [exact Hle|]. unfold HasMorePartitionKeyRanges.
  rewrite !negb_false_iff, !Nat.eqb_eq. lia.
Qed.

Lemma element_eta (b : RangeBoundsAndPartitionKeyRanges) :
  {| range_bounds := range_bounds b; partition_key_ranges := partition_key_ranges b |} = b.
Proof. destruct b. reflexivity. Qed.

Lemma remove_loop_below (upper_bound : bytes) (v : list PartitionKeyRange) :
  (forall r, last v = Some r -> str_le upper_bound (start r) = true) ->
  remove_loop upper_bound (length v) v = v.
Proof.
  intros Hnext. destruct v as [|r v _] using rev_ind; [reflexivity|].
  rewrite length_app. simpl length. rewrite Nat.add_1_r. cbn [remove_loop].
  rewrite lookup_snoc_length by reflexivity.
  rewrite (Hnext r (last_snoc r v)). reflexivity.
Qed.

(** X3. A key that is not empty and not greater than the [start] of the
    next range of any element removes nothing, in any state of the
    cursor. *)
Theorem RemovePartitionKeyRange_below_next (upper_bound : bytes) (p : pruner) :
  upper_bound <> [] ->
  (forall b r, In b p -> last (partition_key_ranges b) = Some r ->
               str_le upper_bound (start r) = true) ->
  RemovePartitionKeyRange upper_bound p = p.
Proof.
  intros Hne Hnext. unfold RemovePartitionKeyRange.
  apply str_empty_false in Hne. rewrite Hne.
  induction p as [|b p IH]; [reflexivity|]. cbn [map].
  rewrite remove_loop_below by (intros r Hr; apply (Hnext b r); [left; reflexivity|exact Hr]).
  rewrite element_eta, IH; [reflexivity|].
  intros b' r Hb'. apply Hnext. right. exact Hb'.
Qed.

Lemma remove_loop_consumes (upper_bound : bytes) (v : list PartitionKeyRange) :
  (forall r, In r v ->
     str_lt (start r) upper_bound = true /\ end_ r <> [] /\
     str_le (end_ r) upper_bound = true) ->
  remove_loop upper_bound (length v) v = [].
Proof.
  induction v as [|r v IH] using rev_ind; intros Hall; [reflexivity|].
  rewrite length_app. simpl length. rewrite Nat.add_1_r. cbn [remove_loop].
  rewrite lookup_snoc_length by reflexivity.
  destruct (Hall r) as (Hs & He & Hle); [apply in_or_app; right; left; reflexivity|].
  rewrite str_le_not_lt, Hs. cbn [negb].
  apply str_empty_false in He. rewrite He. cbn [orb].
  rewrite str_le_not_lt in Hle. apply negb_true_iff in Hle. rewrite Hle.
  rewrite removelast_last. apply IH. intros r' Hr'. apply Hall, in_or_app. left. exact Hr'.
Qed.

(** X4. A key that is greater than the [start] of every range and not
    less than its [end], every range being bounded, consumes the whole
    cursor, in any state: no range remains. *)
Theorem RemovePartitionKeyRange_past_all (upper_bound : bytes) (p : pruner) :
  (forall b r, In b p -> In r (partition_key_ranges b) ->
     str_lt (start r) upper_bound = true /\ end_ r <> [] /\
     str_le (end_ r) upper_bound = true) ->
  NumRangesRemaining (RemovePartitionKeyRange upper_bound p) = 0 /\
  HasMorePartitionKeyRanges (RemovePartitionKeyRange upper_bound p) = false.
Proof.
  intros Hall.
  assert (NumRangesRemaining (RemovePartitionKeyRange upper_bound p) = 0) as Hz.
  { unfold RemovePartitionKeyRange. destruct (str_empty upper_bound); [reflexivity|].
    apply NumRangesRemaining_zero, Forall_forall. intros b' Hb'.
    apply list_elem_of_In, in_map_iff in Hb' as (b & <- & Hb). cbn [partition_key_ranges].
    apply remove_loop_consumes. intros r Hr. apply (Hall b r Hb Hr). }
  split; [exact Hz|]. unfold HasMorePartitionKeyRanges. rewrite Hz. reflexivity.
Qed.

(** ** [RemovePartitionKeyRange] on sorted ranges *)

Lemma str_le_antisym (a b : bytes) : str_le a b = true -> str_le b a = true -> a = b.
Proof.
  intros H1 H2. destruct (str_le_cases _ _ H1) as [H|H]; [|exact H].
  rewrite str_le_not_lt, H in H2. discriminate.
Qed.

Lemma advance_ranges_spec_idem (upper : bytes) (l : list PartitionKeyRange) :
  advance_ranges_spec upper (advance_ranges_spec upper l) = advance_ranges_spec upper l.
Proof.
  destruct (advance_ranges_spec upper l) as [|r rest] eqn:E; [reflexivity|].
  apply advance_ranges_spec_head in E. simpl. rewrite E. reflexivity.
Qed.

Lemma advance_ranges_spec_compose (u1 u2 : bytes) (l : list PartitionKeyRange) :
  str_le u1 u2 = true ->
  advance_ranges_spec u2 (advance_ranges_spec u1 l) = advance_ranges_spec u2 l.
Proof.
  intros H12. induction l as [|r rest IH]; [reflexivity|].
  cbn [advance_ranges_spec].
  destruct (str_le u1 (start r)) eqn:H1; [reflexivity|].
  assert (str_le u2 (start r) = false) as H2.
  { rewrite str_le_not_lt in H1. apply negb_false_iff in H1.
    rewrite str_le_not_lt. apply negb_false_iff.
    eapply str_lt_le_trans; eassumption. }
  rewrite H2.
  destruct (str_empty (end_ r)) eqn:He; cbn [orb].
  - cbn [advance_ranges_spec start end_]. rewrite He. cbn [orb].
    destruct (str_le u2 u1) eqn:H21; [|reflexivity].
    rewrite (str_le_antisym _ _ H12 H21). reflexivity.
  - destruct (str_lt u1 (end_ r)) eqn:Hlt1.
    + cbn [advance_ranges_spec start end_]. rewrite He. cbn [orb].
      destruct (str_le u2 u1) eqn:H21; [|reflexivity].
      pose proof (str_le_antisym _ _ H12 H21) as <-. rewrite Hlt1. reflexivity.
    + assert (str_lt u2 (end_ r) = false) as ->; [|exact IH].
      destruct (str_lt u2 (end_ r)) eqn:Hlt2; [|reflexivity].
      rewrite (str_le_lt_trans _ _ _ H12 Hlt2) in Hlt1. discriminate.
Qed.

Lemma advance_ranges_spec_from (upper : bytes) (l : list PartitionKeyRange)
    (r : PartitionKeyRange) :
  ranges_sorted l = true -> In r (advance_ranges_spec upper l) ->
  str_le upper (start r) = true.
Proof.
  intros Hs Hr. apply (advance_ranges_spec_sorted upper) in Hs.
  destruct (advance_ranges_spec upper l) as [|x rest] eqn:E; [destruct Hr|].
  apply advance_ranges_spec_head in E. destruct Hr as [<-|Hr]; [exact E|].
  apply ranges_sorted_cons in Hs as [Hx _]. apply Hx, range_before_spec in Hr.
  apply str_lt_le. eapply str_le_lt_trans; [exact E|tauto].
Qed.

Lemma advance_past_spec_twice (u1 u2 : bytes) (p : pruner) :
  u1 <> [] -> u2 <> [] ->
  advance_past_spec u2 (advance_past_spec u1 p) =
  map (fun b => {| range_bounds := range_bounds b;
                   partition_key_ranges :=
                     rev (advance_ranges_spec u2
                            (advance_ranges_spec u1 (ascending_ranges b))) |}) p.
Proof.
  intros H1 H2. unfold advance_past_spec.
  apply str_empty_false in H1. apply str_empty_false in H2. rewrite H1, H2.
  rewrite map_map. apply map_ext. intros b. unfold ascending_ranges. simpl.
  rewrite rev_involutive. reflexivity.
Qed.

(** X5. On a cursor of sorted ranges, [RemovePartitionKeyRange] of a key
    a second time changes nothing. *)
Theorem RemovePartitionKeyRange_idempotent (upper_bound : bytes) (p : pruner) :
  cursor_sorted p = true ->
  RemovePartitionKeyRange upper_bound (RemovePartitionKeyRange upper_bound p) =
  RemovePartitionKeyRange upper_bound p.
Proof.
  intros Hs.
  rewrite (RemovePartitionKeyRange_sorted_spec upper_bound
             (RemovePartitionKeyRange upper_bound p))
    by (apply RemovePartitionKeyRange_sorted, Hs).
  rewrite (RemovePartitionKeyRange_sorted_spec upper_bound p Hs).
  destruct upper_bound as [|c u] eqn:E; [reflexivity|]. rewrite <- E.
  assert (upper_bound <> []) as Hne by (rewrite E; discriminate).
  rewrite advance_past_spec_twice by assumption.
  unfold advance_past_spec. apply str_empty_false in Hne. rewrite Hne.
  apply map_ext. intros b. rewrite advance_ranges_spec_idem. reflexivity.
Qed.

(** X6. On a cursor of sorted ranges, [RemovePartitionKeyRange] of a key
    that is not empty, followed by that of a key that is not smaller, is
    the same as the second call alone. *)
Theorem RemovePartitionKeyRange_compose (u1 u2 : bytes) (p : pruner) :
  cursor_sorted p = true -> u1 <> [] -> str_le u1 u2 = true ->
  RemovePartitionKeyRange u2 (RemovePartitionKeyRange u1 p) = RemovePartitionKeyRange u2 p.
Proof.
  intros Hs Hne H12.
  rewrite (RemovePartitionKeyRange_sorted_spec u2 (RemovePartitionKeyRange u1 p))
    by (apply RemovePartitionKeyRange_sorted, Hs).
  rewrite (RemovePartitionKeyRange_sorted_spec u1 p Hs).
  rewrite (RemovePartitionKeyRange_sorted_spec u2 p Hs).
  assert (u2 <> []) as Hne2.
  { intros ->. destruct u1; [contradiction|discriminate]. }
  rewrite advance_past_spec_twice by assumption.
  unfold advance_past_spec. apply str_empty_false in Hne2. rewrite Hne2.
  apply map_ext. intros b. rewrite advance_ranges_spec_compose by exact H12. reflexivity.
Qed.

Lemma RemovePartitionKeyRange_from (upper_bound : bytes) (p : pruner)
    (b : RangeBoundsAndPartitionKeyRanges) (r : PartitionKeyRange) :
  cursor_sorted p = true ->
  In b (RemovePartitionKeyRange upper_bound p) -> In r (partition_key_ranges b) ->
  str_le upper_bound (start r) = true.
Proof.
  intros Hs Hb Hr. rewrite (RemovePartitionKeyRange_sorted_spec _ _ Hs) in Hb.
  unfold advance_past_spec in Hb. destruct (str_empty upper_bound); [destruct Hb|].
  apply in_map_iff in Hb as (b0 & <- & Hb0). cbn [partition_key_ranges] in Hr.
  apply in_rev in Hr. rewrite cursor_sorted_spec in Hs.
  eapply advance_ranges_spec_from; [apply Hs, Hb0|exact Hr].
Qed.

(** X7. On a cursor of sorted ranges, after [RemovePartitionKeyRange] of a
    key every range that remains starts at that key or later. *)
Theorem RemovePartitionKeyRange_starts_from (upper_bound : bytes) (p : pruner)
    (b : RangeBoundsAndPartitionKeyRanges) (r : PartitionKeyRange) :
  cursor_sorted p = true ->
  In b (RemovePartitionKeyRange upper_bound p) -> In r (partition_key_ranges b) ->
  str_le upper_bound (start r) = true.
Proof. intros; eapply RemovePartitionKeyRange_from; eassumption. Qed.

(** X8. In every state of a pruner the ranges of an element are bounded,
    but for the greatest one, disjoint and in ascending order: of two
    ranges of an element, the one with the smaller [start] has an [end],
    which is not greater than the [start] of the other. *)
Theorem reachable_ranges_disjoint `{C : Collaborators} (p : pruner)
    (b : RangeBoundsAndPartitionKeyRanges) (i j : nat) (r r' : PartitionKeyRange) :
  reachable p -> In b p -> i < j ->
  ascending_ranges b !! i = Some r -> ascending_ranges b !! j = Some r' ->
  end_ r <> [] /\ str_le (end_ r) (start r') = true /\ str_lt (start r) (start r') = true.
Proof.
  intros Hp Hb Hij Hr Hr'. apply reachable_sorted in Hp. rewrite cursor_sorted_spec in Hp.
  apply range_before_spec.
  apply (sorted_lookup_before (ascending_ranges b) i j r r' (Hp b Hb) Hij Hr Hr').
Qed.

(** ** Proper ranges *)

Lemma In_insert {A : Type} (l : list A) (i : nat) (x y : A) :
  In x (<[i := y]> l) -> x = y \/ In x l.
Proof.
  revert i. induction l as [|a l IH]; intros i; [intros []|].
  destruct i as [|i]; simpl.
  - intros [<-|H]; auto.
  - intros [<-|H]; [auto|]. destruct (IH i H); auto.
Qed.

Lemma In_removelast {A : Type} (l : list A) (x : A) : In x (removelast l) -> In x l.
Proof.
  destruct l as [|a l _] using rev_ind; [intros []|].
  rewrite removelast_last. intros H. apply in_or_app. left. exact H.
Qed.

(** A range that the loop of [RemovePartitionKeyRange] leaves is a range
    of the vector, or one of them that starts before [upper_bound] and is
    unbounded or ends after it, with [upper_bound] as its [start]. *)
Lemma remove_loop_elements (upper_bound : bytes) (n : nat) (v : list PartitionKeyRange)
    (x : PartitionKeyRange) :
  In x (remove_loop upper_bound n v) ->
  In x v \/
  exists r, In r v /\ x = {| start := upper_bound; end_ := end_ r |} /\
            (str_empty (end_ r) || str_lt upper_bound (end_ r)) = true /\
            str_lt (start r) upper_bound = true.
Proof.
  revert v. induction n as [|i IH]; intros v; [auto|].
  cbn [remove_loop]. destruct (v !! i) as [range|] eqn:Hi; [|auto].
  destruct (str_le upper_bound (start range)) eqn:Hle; [auto|].
  rewrite str_le_not_lt in Hle. apply negb_false_iff in Hle.
  assert (In range v) as Hrange
    by (apply list_elem_of_In, list_elem_of_lookup; eauto).
  destruct (str_empty (end_ range) || str_lt upper_bound (end_ range)) eqn:Hc.
  - intros H. apply IH in H as [H|(r & Hr & -> & Hcr & Hsr)].
    + apply In_insert in H as [->|H]; [|auto]. right. exists range. auto.
    + apply In_insert in Hr as [->|Hr]; right; [exists range|exists r]; auto.
  - intros H. apply IH in H as [H|(r & Hr & -> & Hcr & Hsr)].
    + left. apply In_removelast, H.
    + right. exists r. split; [apply In_removelast, Hr|auto].
Qed.

Lemma trim_loop_elements (bound : bytes) (n : nat) (v : list PartitionKeyRange)
    (x : PartitionKeyRange) :
  In x (trim_loop bound n v) ->
  In x v \/
  exists r, In r v /\ x = {| start := start r; end_ := bound |} /\
            str_lt (start r) bound = true.
Proof.
  revert v. induction n as [|i IH]; intros v; [auto|].
  cbn [trim_loop]. destruct (v !! i) as [range|] eqn:Hi; [|auto].
  destruct (negb (str_empty (end_ range)) && str_ge bound (end_ range)); [auto|].
  assert (In range v) as Hrange
    by (apply list_elem_of_In, list_elem_of_lookup; eauto).
  destruct (str_le bound (start range)) eqn:Hc.
  - intros H. apply IH in H as [H|(r & Hr & -> & Hcr)].
    + left. apply In_removelast, H.
    + right. exists r. split; [apply In_removelast, Hr|auto].
  - rewrite str_le_not_lt in Hc. apply negb_false_iff in Hc.
    intros H. apply IH in H as [H|(r & Hr & -> & Hcr)].
    + apply In_insert in H as [->|H]; [|auto]. right. exists range. auto.
    + apply In_insert in Hr as [->|Hr]; right; [exists range|exists r]; auto.
Qed.

Lemma cursor_proper_spec (p : pruner) :
  cursor_proper p = true <->
  forall b r, In b p -> In r (partition_key_ranges b) -> proper_range r = true.
Proof.
  unfold cursor_proper, ascending_ranges. rewrite forallb_forall. split.
  - intros H b r Hb Hr. specialize (H b Hb). rewrite forallb_forall in H.
    apply H, in_rev. rewrite rev_involutive. exact Hr.
  - intros H b Hb. apply forallb_forall. intros r Hr. apply in_rev in Hr. eauto.
Qed.

Lemma RemovePartitionKeyRange_keeps_proper (upper_bound : bytes) (p : pruner) :
  cursor_proper p = true -> cursor_proper (RemovePartitionKeyRange upper_bound p) = true.
Proof.
  rewrite !cursor_proper_spec. intros Hp b' r' Hb' Hr'.
  unfold RemovePartitionKeyRange in Hb'. destruct (str_empty upper_bound); [destruct Hb'|].
  apply in_map_iff in Hb' as (b & <- & Hb). cbn [partition_key_ranges] in Hr'.
  apply remove_loop_elements in Hr' as [Hr'|(r & Hr & -> & Hc & _)]; [eauto|exact Hc].
Qed.

(** X9. [RemovePartitionKeyRange] keeps the ranges proper, in any state:
    if every range of the cursor is unbounded or starts before it ends,
    so is every range after the call. *)
Theorem RemovePartitionKeyRange_proper (upper_bound : bytes) (p : pruner) :
  cursor_proper p = true -> cursor_proper (RemovePartitionKeyRange upper_bound p) = true.
Proof. intros; eapply RemovePartitionKeyRange_keeps_proper; eassumption. Qed.

(** A range that the loop of [RemovePartitionKeyRange] leaves intersects
    only the partitions that a range of the vector intersects. *)
Lemma remove_loop_intersects (upper_bound : bytes) (n : nat) (v : list PartitionKeyRange)
    (x : PartitionKeyRange) (P : Partition) :
  In x (remove_loop upper_bound n v) -> intersects x P ->
  exists r, In r v /\ intersects r P.
Proof.
  intros Hx Hi. apply remove_loop_elements in Hx as [Hx|(r & Hr & -> & Hc & Hlt)]; [eauto|].
  exists r. split; [exact Hr|]. destruct Hi as [He Hs]. simpl in *. split; [exact He|].
  destruct Hs as [Hs|Hs]; [left; exact Hs|]. right. eapply str_lt_trans; eassumption.
Qed.

(** X10. On a cursor of sorted, proper ranges, a partition that
    [ShouldPrune] prunes is still pruned after [RemovePartitionKeyRange]:
    consuming the cursor never brings a partition back. *)
Theorem ShouldPrune_after_Remove (upper_bound : bytes) (p : pruner) (P : Partition) :
  cursor_sorted p = true -> cursor_proper p = true ->
  ShouldPrune p P = true ->
  ShouldPrune (RemovePartitionKeyRange upper_bound p) P = true.
Proof.
  intros Hs Hp Hprune.
  pose proof (RemovePartitionKeyRange_sorted upper_bound p Hs) as Hs'.
  assert (cursor_proper (RemovePartitionKeyRange upper_bound p) = true) as Hp'.
  { rewrite cursor_proper_spec in *. intros b' r' Hb' Hr'.
    unfold RemovePartitionKeyRange in Hb'.
    destruct (str_empty upper_bound); [destruct Hb'|].
    apply in_map_iff in Hb' as (b & <- & Hb). cbn [partition_key_ranges] in Hr'.
    apply remove_loop_elements in Hr' as [Hr'|(r & Hr & -> & Hc & _)]; [eauto|exact Hc]. }
  apply (proj2 (ShouldPrune_intersects _ P Hs' Hp')).
  pose proof (proj1 (ShouldPrune_intersects p P Hs Hp) Hprune) as Hall.
  intros b' Hb'. unfold RemovePartitionKeyRange in Hb'.
  destruct (str_empty upper_bound); [destruct Hb'|].
  apply in_map_iff in Hb' as (b & <- & Hb).
  destruct (Hall b Hb) as [Hskip|Hni]; [left; exact Hskip|]. right.
  intros r' Hr' Hi. unfold ascending_ranges in Hr'. cbn [partition_key_ranges] in Hr'.
  apply in_rev in Hr'.
  destruct (remove_loop_intersects _ _ _ _ P Hr' Hi) as (r & Hr & Hir).
  apply (Hni r); [|exact Hir]. unfold ascending_ranges. apply in_rev.
  rewrite rev_involutive. exact Hr.
Qed.

(** ** What [ConstructPartitionKeyRanges] builds *)

Lemma ConstructPartitionKeyRanges_unfold `{C : Collaborators} (schema : Schema)
    (scan_spec : ScanSpec) (hash_schema : HashSchema) (range_bounds : RangeBounds) :
  ConstructPartitionKeyRanges schema scan_spec hash_schema range_bounds =
  (hash_bucket_bitsets <-- bitsets_loop schema scan_spec hash_schema [] ;;
   let ranges := untrimmed_ranges range_bounds hash_bucket_bitsets (length hash_schema) in
   if negb (str_empty (exclusive_upper_bound_partition_key scan_spec)) then
     Ok (trim_loop (exclusive_upper_bound_partition_key scan_spec) (length ranges) ranges)
   else Ok ranges).
Proof. reflexivity. Qed.

Lemma step_last_proper (n : nat) (buckets_bitset : list bool) (l : list PartitionKeyRange) :
  (N.of_nat (length buckets_bitset) < 4294967296)%N ->
  point_ranges n l ->
  Forall (fun r => length (start r) = length (end_ r) /\ str_lt (start r) (end_ r) = true)
    (flat_map (fun r => map (extend_range true r) (surviving_buckets buckets_bitset 0)) l).
Proof.
  intros Hfit Hl. apply Forall_forall. intros x Hx.
  apply list_elem_of_In, in_flat_map in Hx as (r & Hr & Hx).
  apply in_map_iff in Hx as (b & <- & Hb). apply surviving_buckets_bounds in Hb.
  destruct (point_ranges_In _ _ _ Hl Hr) as [He Hn]. simpl.
  rewrite He, uint32_add_1 by lia. split.
  - rewrite !length_app, !length_be32. reflexivity.
  - apply str_lt_app_be32; lia.
Qed.

Lemma hash_loop_last_proper (range_bounds : RangeBounds) (C : nat)
    (bitsets : list (list bool)) :
  upper range_bounds = [] ->
  Forall (fun bs => (N.of_nat (length bs) < 4294967296)%N) bitsets ->
  forall i n l, i < C -> C <= i + length bitsets -> point_ranges n l ->
  Forall (fun r => length (start r) = length (end_ r) /\ str_lt (start r) (end_ r) = true)
    (hash_loop range_bounds C i bitsets l).
Proof.
  intros Hup Hfit. induction Hfit as [|bs bitsets Hbs _ IH]; intros i n l Hi HC Hl.
  - simpl in HC. lia.
  - cbn [hash_loop]. apply Nat.ltb_lt in Hi as Hi'. rewrite Hi'.
    unfold is_last_component. rewrite Hup. simpl str_empty. rewrite andb_true_r.
    rewrite ranges_loop_spec. simpl app.
    destruct (Nat.eqb_spec (i + 1) C) as [E|E].
    + rewrite hash_loop_done by lia. apply (step_last_proper n); assumption.
    + apply (IH (S i) (n + 4)); [lia|simpl in HC; lia|].
      apply step_points; assumption.
Qed.

Lemma untrimmed_ranges_sorted (range_bounds : RangeBounds) (bitsets : list (list bool))
    (h : nat) :
  Forall (fun bs => (N.of_nat (length bs) < 4294967296)%N) bitsets ->
  length bitsets = h ->
  ranges_sorted (untrimmed_ranges range_bounds bitsets h) = true.
Proof.
  intros Hbs Hlen. unfold untrimmed_ranges.
  set (Cidx := constrained_index_of range_bounds bitsets h).
  destruct (upper range_bounds) as [|c u] eqn:Hup.
  - destruct Cidx as [|c'] eqn:HC.
    + rewrite hash_loop_done by lia. reflexivity.
    + destruct (hash_loop_last range_bounds (S c') bitsets Hup Hbs 0 0
                  [{| start := []; end_ := [] |}]) as [H1 [n' H2]];
        [lia| |split; [constructor; [auto|constructor]|reflexivity]|].
      * pose proof (constrained_index_of_le range_bounds bitsets h). fold Cidx in H. lia.
      * eapply append_sorted_sorted; eassumption.
  - destruct (hash_loop_points range_bounds Cidx bitsets) with (i := 0) (n := 0)
      (l := [{| start := []; end_ := [] |}]) as [n' Hn'];
      [rewrite Hup; discriminate|exact Hbs|
       split; [constructor; [auto|constructor]|reflexivity]|].
    eapply append_points_sorted; [rewrite Hup; discriminate|exact Hn'].
Qed.

Lemma untrimmed_ranges_proper (range_bounds : RangeBounds) (bitsets : list (list bool))
    (h : nat) :
  Forall (fun bs => (N.of_nat (length bs) < 4294967296)%N) bitsets ->
  length bitsets = h ->
  proper_bounds range_bounds ->
  forall r, In r (untrimmed_ranges range_bounds bitsets h) -> proper_range r = true.
Proof.
  intros Hbs Hlen Hproper r Hr. unfold untrimmed_ranges in Hr.
  set (Cidx := constrained_index_of range_bounds bitsets h) in *.
  apply in_map_iff in Hr as (r0 & <- & Hr0). unfold proper_range, append_range_bounds. simpl.
  destruct (upper range_bounds) as [|c u] eqn:Hup.
  - rewrite app_nil_r. destruct Cidx as [|c'] eqn:HC.
    + rewrite hash_loop_done in Hr0 by lia. destruct Hr0 as [<-|[]]. reflexivity.
    + pose proof (hash_loop_last_proper range_bounds (S c') bitsets Hup Hbs 0 0
                    [{| start := []; end_ := [] |}]) as H.
      rewrite Forall_forall in H. destruct (H ltac:(lia)) with (x := r0) as [Hl Hlt].
      * pose proof (constrained_index_of_le range_bounds bitsets h) as Hle.
        fold Cidx in Hle. lia.
      * split; [constructor; [auto|constructor]|reflexivity].
      * apply list_elem_of_In, Hr0.
      * rewrite <- (app_nil_r (end_ r0)) at 2.
        rewrite (str_lt_app_same_length _ _ _ _ Hl Hlt). apply orb_true_r.
  - destruct Hproper as [H|H]; [rewrite Hup in H; discriminate|]. rewrite Hup in H.
    destruct (hash_loop_points range_bounds Cidx bitsets) with (i := 0) (n := 0)
      (l := [{| start := []; end_ := [] |}]) as [n' Hn'];
      [rewrite Hup; discriminate|exact Hbs|
       split; [constructor; [auto|constructor]|reflexivity]|].
    destruct (point_ranges_In _ _ _ Hn' Hr0) as [-> _].
    unfold str_lt in *. rewrite str_compare_app.
    destruct (str_compare (lower range_bounds) (c :: u)); try discriminate.
    apply orb_true_r.
Qed.

Lemma trim_loop_snoc (bound : bytes) (l0 : list PartitionKeyRange) (r : PartitionKeyRange) :
  ranges_sorted (l0 ++ [r]) = true ->
  trim_loop bound (length (l0 ++ [r])) (l0 ++ [r]) =
  if negb (str_empty (end_ r)) && str_ge bound (end_ r) then l0 ++ [r]
  else if str_le bound (start r) then trim_loop bound (length l0) l0
  else l0 ++ [{| start := start r; end_ := bound |}].
Proof.
  intros Hs. rewrite length_app. simpl length. rewrite Nat.add_1_r. cbn [trim_loop].
  rewrite lookup_snoc_length by reflexivity.
  destruct (negb (str_empty (end_ r)) && str_ge bound (end_ r)); [reflexivity|].
  destruct (str_le bound (start r)) eqn:Hle; [rewrite removelast_last; reflexivity|].
  rewrite insert_snoc_length by reflexivity.
  apply ranges_sorted_app in Hs as (_ & _ & Hlr).
  destruct l0 as [|q l1 _] using rev_ind; [reflexivity|].
  rewrite length_app. simpl length. rewrite Nat.add_1_r. cbn [trim_loop].
  rewrite lookup_app_l by (rewrite length_app; simpl; lia).
  rewrite lookup_snoc_length by reflexivity.
  assert (In q (l1 ++ [q])) as Hq by (apply in_or_app; right; left; reflexivity).
  specialize (Hlr q r Hq (or_introl eq_refl)).
  apply range_before_spec in Hlr as (Hne & Hqr & _).
  apply str_empty_false in Hne. rewrite Hne. simpl negb.
  rewrite str_le_not_lt in Hle. apply negb_false_iff in Hle.
  rewrite str_ge_le, (str_lt_le _ _ (str_le_lt_trans _ _ _ Hqr Hle)). reflexivity.
Qed.

(** On sorted, proper ranges the loop that trims leaves ranges below the
    bound only. *)
Lemma trim_loop_below (bound : bytes) (l : list PartitionKeyRange) :
  ranges_sorted l = true -> (forall r, In r l -> proper_range r = true) ->
  forall x, In x (trim_loop bound (length l) l) -> below bound x.
Proof.
  induction l as [|r l0 IH] using rev_ind; intros Hs Hp x Hx; [destruct Hx|].
  rewrite trim_loop_snoc in Hx by exact Hs.
  apply ranges_sorted_app in Hs as Hs'. destruct Hs' as (Hl0 & _ & Hlr).
  assert (forall y, In y l0 -> str_lt (start r) bound = true -> below bound y) as Hbefore.
  { intros y Hy Hrb. specialize (Hlr y r Hy (or_introl eq_refl)).
    apply range_before_spec in Hlr as (Hne & Hle & Hlt).
    split; [eapply str_lt_trans; eassumption|]. split; [exact Hne|].
    apply str_lt_le. eapply str_le_lt_trans; eassumption. }
  destruct (negb (str_empty (end_ r)) && str_ge bound (end_ r)) eqn:Hbreak.
  - apply andb_true_iff in Hbreak as [Hne Hge]. apply negb_true_iff in Hne.
    rewrite str_ge_le in Hge.
    assert (str_lt (start r) bound = true) as Hrb.
    { assert (proper_range r = true) as Hpr
        by (apply Hp, in_or_app; right; left; reflexivity).
      clear Hp; rename Hpr into Hp. unfold proper_range in Hp. rewrite Hne in Hp. simpl in Hp.
      eapply str_lt_le_trans; eassumption. }
    apply in_app_or in Hx as [Hx|[<-|[]]]; [apply Hbefore; assumption|].
    split; [exact Hrb|]. split; [apply str_empty_false, Hne|exact Hge].
  - destruct (str_le bound (start r)) eqn:Hle.
    + apply IH; [exact Hl0| |exact Hx]. intros y Hy. apply Hp, in_or_app. auto.
    + rewrite str_le_not_lt in Hle. apply negb_false_iff in Hle.
      apply in_app_or in Hx as [Hx|[<-|[]]]; [apply Hbefore; assumption|].
      split; [exact Hle|]. simpl. split; [apply (str_lt_nonempty _ _ Hle)|apply str_le_refl].
Qed.

Lemma bitsets_loop_Ok_fit `{C : Collaborators} (schema : Schema) (scan_spec : ScanSpec)
    (hash_schema : HashSchema) (bitsets : list (list bool)) :
  buckets_fit hash_schema ->
  bitsets_loop schema scan_spec hash_schema [] = Ok bitsets ->
  Forall (fun bs => (N.of_nat (length bs) < 4294967296)%N) bitsets /\
  length bitsets = length hash_schema.
Proof.
  intros Hfit Hb. apply bitsets_loop_fit in Hb as [H1 H2]; [|exact Hfit|constructor].
  split; [exact H1|exact H2].
Qed.

Lemma ConstructPartitionKeyRanges_proper_ranges `{C : Collaborators} (schema : Schema)
    (scan_spec : ScanSpec) (hash_schema : HashSchema) (range_bounds : RangeBounds)
    (v : list PartitionKeyRange) :
  buckets_fit hash_schema -> proper_bounds range_bounds ->
  ConstructPartitionKeyRanges schema scan_spec hash_schema range_bounds = Ok v ->
  forall r, In r v -> proper_range r = true.
Proof.
  intros Hfit Hproper. rewrite ConstructPartitionKeyRanges_unfold.
  destruct (bitsets_loop schema scan_spec hash_schema []) as [bitsets| |] eqn:Hb;
    try discriminate.
  apply bitsets_loop_Ok_fit in Hb as [Hbs Hlen]; [|exact Hfit].
  cbn [bind]. cbv zeta.
  pose proof (untrimmed_ranges_proper range_bounds bitsets _ Hbs Hlen Hproper) as Hu.
  destruct (negb _); intros [= <-] r Hr; [|apply Hu, Hr].
  apply trim_loop_elements in Hr as [Hr|(r0 & Hr0 & -> & Hlt)]; [apply Hu, Hr|].
  unfold proper_range. simpl. rewrite Hlt. apply orb_true_r.
Qed.

(** X11. The ranges that [ConstructPartitionKeyRanges] returns are proper
    whenever the range bounds are: each is unbounded or starts before it
    ends. *)
Theorem ConstructPartitionKeyRanges_proper `{C : Collaborators} (schema : Schema)
    (scan_spec : ScanSpec) (hash_schema : HashSchema) (range_bounds : RangeBounds)
    (v : list PartitionKeyRange) :
  buckets_fit hash_schema -> proper_bounds range_bounds ->
  ConstructPartitionKeyRanges schema scan_spec hash_schema range_bounds = Ok v ->
  forall r, In r v -> proper_range r = true.
Proof. intros; eapply ConstructPartitionKeyRanges_proper_ranges; eassumption. Qed.

Lemma ConstructPartitionKeyRanges_below `{C : Collaborators} (schema : Schema)
    (scan_spec : ScanSpec) (hash_schema : HashSchema) (range_bounds : RangeBounds)
    (v : list PartitionKeyRange) :
  buckets_fit hash_schema -> proper_bounds range_bounds ->
  exclusive_upper_bound_partition_key scan_spec <> [] ->
  ConstructPartitionKeyRanges schema scan_spec hash_schema range_bounds = Ok v ->
  forall r, In r v -> below (exclusive_upper_bound_partition_key scan_spec) r.
Proof.
  intros Hfit Hproper Hne. rewrite ConstructPartitionKeyRanges_unfold.
  destruct (bitsets_loop schema scan_spec hash_schema []) as [bitsets| |] eqn:Hb;
    try discriminate.
  apply bitsets_loop_Ok_fit in Hb as [Hbs Hlen]; [|exact Hfit].
  cbn [bind]. cbv zeta. apply str_empty_false in Hne. rewrite Hne. cbn [negb].
  intros [= <-]. apply trim_loop_below.
  - apply untrimmed_ranges_sorted; assumption.
  - apply untrimmed_ranges_proper; assumption.
Qed.

(** X12. With an upper bound partition key in the scan and proper range
    bounds, every range that [ConstructPartitionKeyRanges] returns lies
    below that key: it starts before the key and ends at the key or
    before. *)
Theorem ConstructPartitionKeyRanges_below_upper_bound `{C : Collaborators} (schema : Schema)
    (scan_spec : ScanSpec) (hash_schema : HashSchema) (range_bounds : RangeBounds)
    (v : list PartitionKeyRange) :
  buckets_fit hash_schema -> proper_bounds range_bounds ->
  exclusive_upper_bound_partition_key scan_spec <> [] ->
  ConstructPartitionKeyRanges schema scan_spec hash_schema range_bounds = Ok v ->
  forall r, In r v -> below (exclusive_upper_bound_partition_key scan_spec) r.
Proof. intros; eapply ConstructPartitionKeyRanges_below; eassumption. Qed.

(** ** The number of ranges *)

Lemma length_cross (f : PartitionKeyRange -> N -> PartitionKeyRange) (bs : list N)
    (l : list PartitionKeyRange) :
  length (flat_map (fun r => map (f r) bs) l) = length l * length bs.
Proof.
  induction l as [|r l IH]; [reflexivity|].
  cbn [flat_map length]. rewrite length_app, length_map, IH. lia.
Qed.

Lemma hash_loop_length (range_bounds : RangeBounds) (C : nat) (bitsets : list (list bool))
    (i : nat) (l : list PartitionKeyRange) :
  length (hash_loop range_bounds C i bitsets l) =
  length l * product (map num_surviving (take (C - i) bitsets)).
Proof.
  revert i l. induction bitsets as [|bs bitsets IH]; intros i l.
  - rewrite take_nil. simpl. lia.
  - cbn [hash_loop]. destruct (Nat.ltb_spec i C) as [Hi|Hi].
    + rewrite IH, ranges_loop_spec. cbn [app]. rewrite length_cross.
      replace (C - i) with (S (C - S i)) by lia.
      cbn [take map product fold_right]. unfold num_surviving, product. lia.
    + replace (C - i) with 0 by lia. simpl. lia.
Qed.

Lemma trim_loop_length (bound : bytes) (n : nat) (v : list PartitionKeyRange) :
  length (trim_loop bound n v) <= length v.
Proof.
  revert v. induction n as [|i IH]; intros v; [reflexivity|].
  cbn [trim_loop]. destruct (v !! i) as [range|]; [|reflexivity].
  destruct (negb (str_empty (end_ range)) && str_ge bound (end_ range)); [reflexivity|].
  destruct (str_le bound (start range)).
  - etransitivity; [apply IH|]. rewrite length_removelast. lia.
  - etransitivity; [apply IH|]. rewrite length_insert. reflexivity.
Qed.

(** X13. The number of ranges that [ConstructPartitionKeyRanges] returns
    is at most the product, over the hash dimensions before the final
    constrained component, of the numbers of buckets that survive; it is
    that product when the scan has no upper bound partition key. *)
Theorem ConstructPartitionKeyRanges_count `{C : Collaborators} (schema : Schema)
    (scan_spec : ScanSpec) (hash_schema : HashSchema) (range_bounds : RangeBounds)
    (bitsets : list (list bool)) (v : list PartitionKeyRange) :
  bitsets_loop schema scan_spec hash_schema [] = Ok bitsets ->
  ConstructPartitionKeyRanges schema scan_spec hash_schema range_bounds = Ok v ->
  let constrained_index :=
    constrained_index_of range_bounds bitsets (length hash_schema) in
  length v <= product (map num_surviving (take constrained_index bitsets)) /\
  (exclusive_upper_bound_partition_key scan_spec = [] ->
   length v = product (map num_surviving (take constrained_index bitsets))).
Proof.
  intros Hb. rewrite ConstructPartitionKeyRanges_unfold, Hb. cbn [bind]. cbv zeta.
  assert (length (untrimmed_ranges range_bounds bitsets (length hash_schema)) =
          product (map num_surviving
                     (take (constrained_index_of range_bounds bitsets (length hash_schema))
                           bitsets))) as Hlen.
  { unfold untrimmed_ranges. rewrite length_map, hash_loop_length, Nat.sub_0_r.
    simpl. lia. }
  destruct (str_empty (exclusive_upper_bound_partition_key scan_spec)) eqn:He; cbn [negb];
    intros [= <-].
  - split; [lia|]. intros _. exact Hlen.
  - split; [rewrite <- Hlen; apply trim_loop_length|].
    intros H. rewrite H in He. discriminate.
Qed.

Lemma bitsets_loop_lengths `{C : Collaborators} (schema : Schema) (scan_spec : ScanSpec)
    (hash_schema : HashSchema) (acc bitsets : list (list bool)) :
  bitsets_loop schema scan_spec hash_schema acc = Ok bitsets ->
  map length bitsets = map length acc ++ map HashDimension.num_buckets hash_schema.
Proof.
  revert acc. induction hash_schema as [|d rest IH]; intros acc.
  - simpl. intros [= <-]. rewrite app_nil_r. reflexivity.
  - cbn [bitsets_loop]. cbv zeta. destruct (forallb _ _).
    + destruct (PruneHashComponent d schema scan_spec) as [bs| |] eqn:Hp; try discriminate.
      cbn [bind]. intros H. apply IH in H. rewrite H, map_app, <- app_assoc. simpl.
      rewrite (PruneHashComponent_length _ _ _ _ Hp). reflexivity.
    + intros H. apply IH in H. rewrite H, map_app, <- app_assoc. simpl.
      rewrite length_replicate. reflexivity.
Qed.

Lemma num_surviving_le (bs : list bool) : num_surviving bs <= length bs.
Proof.
  unfold num_surviving. generalize 0%N.
  induction bs as [|b bs IH]; intros k; [reflexivity|].
  cbn [surviving_buckets]. destruct b; simpl; specialize (IH (k + 1)%N); lia.
Qed.

Lemma product_take_le (l : list (list bool)) (n : nat) :
  Forall (fun bs => 1 <= length bs) l ->
  product (map num_surviving (take n l)) <= product (map length l).
Proof.
  intros Hl. revert n. induction Hl as [|bs l Hbs _ IH]; intros n.
  - rewrite take_nil. reflexivity.
  - destruct n as [|n].
    + simpl. unfold product in *. cbn [map fold_right].
      specialize (IH 0). rewrite take_0 in IH. simpl in IH. nia.
    + cbn [take map]. unfold product in *. cbn [fold_right].
      pose proof (num_surviving_le bs). specialize (IH n). nia.
Qed.

(** X14. When every hash dimension has at least one bucket, the number of
    ranges that [ConstructPartitionKeyRanges] returns is at most the
    product of the numbers of buckets of the hash dimensions. *)
Theorem ConstructPartitionKeyRanges_bounded `{C : Collaborators} (schema : Schema)
    (scan_spec : ScanSpec) (hash_schema : HashSchema) (range_bounds : RangeBounds)
    (v : list PartitionKeyRange) :
  Forall (fun d => 1 <= HashDimension.num_buckets d) hash_schema ->
  ConstructPartitionKeyRanges schema scan_spec hash_schema range_bounds = Ok v ->
  length v <= product (map HashDimension.num_buckets hash_schema).
Proof.
  intros Hpos Hv.
  destruct (bitsets_loop schema scan_spec hash_schema []) as [bitsets| |] eqn:Hb;
    try (rewrite ConstructPartitionKeyRanges_unfold, Hb in Hv; discriminate).
  assert (length v <=
          product (map num_surviving
                     (take (constrained_index_of range_bounds bitsets (length hash_schema))
                           bitsets))) as Hle.
  { rewrite ConstructPartitionKeyRanges_unfold, Hb in Hv. cbn [bind] in Hv. cbv zeta in Hv.
    assert (length (untrimmed_ranges range_bounds bitsets (length hash_schema)) =
            product (map num_surviving
                       (take (constrained_index_of range_bounds bitsets (length hash_schema))
                             bitsets))) as Hlen.
    { unfold untrimmed_ranges. rewrite length_map, hash_loop_length, Nat.sub_0_r.
      simpl. lia. }
    destruct (negb _); injection Hv as <-; [|lia].
    rewrite <- Hlen. apply trim_loop_length. }
  pose proof (bitsets_loop_lengths _ _ _ _ _ Hb) as Hlens. simpl in Hlens.
  etransitivity; [exact Hle|]. rewrite <- Hlens. apply product_take_le.
  apply Forall_forall. intros bs Hbs.
  assert (In (length bs) (map length bitsets)) as Hin
    by (apply in_map, list_elem_of_In, Hbs).
  rewrite Hlens in Hin. apply in_map_iff in Hin as (d & <- & Hd).
  rewrite Forall_forall in Hpos. apply Hpos, list_elem_of_In, Hd.
Qed.

(** ** Hash pruning *)

Section HashPruning.
Context `{C : Collaborators}.

Lemma set_buckets_not_fatal (d : HashDimension.t) (encoded_strings : list bytes)
    (bitset : list bool) :
  set_buckets d encoded_strings bitset <> Fatal.
Proof.
  revert bitset. induction encoded_strings as [|e rest IH]; intros bitset; [discriminate|].
  cbn [set_buckets]. cbv zeta. destruct (_ <? _); [apply IH|discriminate].
Qed.

Lemma bitsets_loop_not_fatal (schema : Schema) (scan_spec : ScanSpec)
    (hash_schema : HashSchema) (acc : list (list bool)) :
  bitsets_loop schema scan_spec hash_schema acc <> Fatal.
Proof.
  revert acc. induction hash_schema as [|d rest IH]; intros acc; [discriminate|].
  cbn [bitsets_loop]. cbv zeta. destruct (forallb _ _) eqn:Hall; [|apply IH].
  unfold PruneHashComponent.
  destruct (column_loop_returns schema scan_spec
              (length (HashDimension.column_ids d)) _ Hall 0 [[]]) as [es ->].
  cbn [bind].
  destruct (set_buckets d es (replicate (HashDimension.num_buckets d) false))
    as [bs| |] eqn:Hs; cbn [bind]; [apply IH| |discriminate].
  exfalso. exact (set_buckets_not_fatal _ _ _ Hs).
Qed.

(** X15. [ConstructPartitionKeyRanges] never aborts: it asks
    [PruneHashComponent] for the buckets of a hash dimension only when
    every column of the dimension has an equality or in-list predicate, so
    neither [FindOrDie] nor the [CHECK] on the predicate type can fail; and
    it returns ranges whenever the hash values are bucket numbers. *)
Theorem ConstructPartitionKeyRanges_never_fatal (schema : Schema) (scan_spec : ScanSpec)
    (hash_schema : HashSchema) (range_bounds : RangeBounds) :
  ConstructPartitionKeyRanges schema scan_spec hash_schema range_bounds <> Fatal /\
  (hash_in_range hash_schema ->
   exists v, ConstructPartitionKeyRanges schema scan_spec hash_schema range_bounds = Ok v).
Proof.
  split.
  - rewrite ConstructPartitionKeyRanges_unfold.
    pose proof (bitsets_loop_not_fatal schema scan_spec hash_schema []) as H.
    destruct (bitsets_loop schema scan_spec hash_schema []); cbn [bind]; cbv zeta;
      [destruct (negb _); discriminate|contradiction|discriminate].
  - apply ConstructPartitionKeyRanges_returns.
Qed.

Lemma column_loop_equality (schema : Schema) (scan_spec : ScanSpec) (num_columns : nat)
    (columns : list ColumnId) :
  (forall id, In id columns ->
     exists predicate,
       predicates scan_spec !! column_name schema id = Some predicate /\
       predicate_type predicate = Equality) ->
  forall col_offset encoded,
  exists encoded',
    column_loop schema scan_spec num_columns col_offset columns [encoded] = Ok [encoded'].
Proof.
  induction columns as [|id rest IH]; intros Heq col_offset encoded.
  - eexists. reflexivity.
  - cbn [column_loop]. destruct (Heq id) as (predicate & -> & Ht); [left; reflexivity|].
    unfold predicate_values. rewrite Ht. cbn [bind]. unfold replicate_encoded. simpl.
    apply IH. intros id' Hid'. apply Heq. right. exact Hid'.
Qed.

(** X16. With an equality predicate on every column of a hash dimension,
    [PruneHashComponent] returns a bitset of [num_buckets] bits in which
    exactly one bucket survives. *)
Theorem PruneHashComponent_equality (hash_dimension : HashDimension.t) (schema : Schema)
    (scan_spec : ScanSpec) (bitset : list bool) :
  (forall id, In id (HashDimension.column_ids hash_dimension) ->
     exists predicate,
       predicates scan_spec !! column_name schema id = Some predicate /\
       predicate_type predicate = Equality) ->
  PruneHashComponent hash_dimension schema scan_spec = Ok bitset ->
  length bitset = HashDimension.num_buckets hash_dimension /\
  exists bucket,
    bucket < HashDimension.num_buckets hash_dimension /\
    forall i, bitset !! i = Some true <-> i = bucket.
Proof.
  intros Heq Hp. split; [apply (PruneHashComponent_length _ _ _ _ Hp)|].
  unfold PruneHashComponent in Hp.
  destruct (column_loop_equality schema scan_spec
              (length (HashDimension.column_ids hash_dimension)) _ Heq 0 [])
    as [encoded He].
  rewrite He in Hp. cbn [bind set_buckets] in Hp. cbv zeta in Hp.
  rewrite length_replicate in Hp.
  destruct (Nat.ltb_spec (HashValueForEncodedColumns encoded hash_dimension)
              (HashDimension.num_buckets hash_dimension)) as [Hlt|]; [|discriminate].
  injection Hp as <-. eexists. split; [exact Hlt|]. intros i.
  rewrite list_lookup_insert by (rewrite length_replicate; exact Hlt).
  case_decide as Hi; [|].
  - destruct Hi as [<- _]. split; reflexivity.
  - split; [|intros ->; rewrite length_replicate in Hi; exfalso; apply Hi; auto].
    intros H. apply lookup_replicate in H as [H _]. discriminate.
Qed.

End HashPruning.

(** ** [Init] on particular scans *)

Section InitCases.
Context `{C : Collaborators}.

Lemma has_cleared_bit_replicate (n : nat) : has_cleared_bit (replicate n true) = false.
Proof. induction n as [|n IH]; [reflexivity|exact IH]. Qed.

Lemma distance_find_if_all_set (bitsets : list (list bool)) :
  Forall (fun bs => has_cleared_bit bs = false) bitsets ->
  distance_find_if bitsets = length bitsets.
Proof.
  induction 1 as [|bs bitsets Hbs _ IH]; [reflexivity|].
  simpl. rewrite Hbs, IH. reflexivity.
Qed.

Lemma bitsets_loop_unconstrained (schema : Schema) (scan_spec : ScanSpec)
    (hash_schema : HashSchema) (acc : list (list bool)) :
  (forall d, In d hash_schema ->
     forallb (has_value_predicate schema scan_spec) (HashDimension.column_ids d) = false) ->
  bitsets_loop schema scan_spec hash_schema acc =
  Ok (acc ++ map (fun d => replicate (HashDimension.num_buckets d) true) hash_schema).
Proof.
  revert acc. induction hash_schema as [|d rest IH]; intros acc Hno.
  - simpl. rewrite app_nil_r. reflexivity.
  - cbn [bitsets_loop map]. cbv zeta. rewrite (Hno d (or_introl eq_refl)).
    rewrite IH by (intros d' Hd'; apply Hno; right; exact Hd').
    rewrite <- app_assoc. reflexivity.
Qed.

(** X17. For a scan that constrains nothing, there being no range bound,
    no hash dimension of which every column has an equality or in-list
    predicate and no custom range segment, [Init] leaves one element whose
    only range goes from the lower bound partition key of the scan to its
    upper bound partition key; the element holds no range when both keys
    are given and the lower one is not smaller. *)
Theorem Init_unconstrained (schema : Schema) (partition_schema : PartitionSchema)
    (scan_spec : ScanSpec) :
  CanShortCircuit scan_spec = false ->
  scan_range_bounds schema partition_schema scan_spec = Ok ([], []) ->
  ranges_with_hash_schemas_ partition_schema = [] ->
  (forall d, In d (hash_schema_ partition_schema) ->
     forallb (has_value_predicate schema scan_spec) (HashDimension.column_ids d) = false) ->
  let L := lower_bound_partition_key scan_spec in
  let U := exclusive_upper_bound_partition_key scan_spec in
  Init schema partition_schema scan_spec =
  Ok [{| range_bounds := {| lower := []; upper := [] |};
         partition_key_ranges :=
           if str_empty L || str_empty U || str_lt L U
           then [{| start := L; end_ := U |}] else [] |}].
Proof.
  intros Hsc Hb Hsegs Hno. cbv zeta. unfold Init. rewrite Hsc, Hb, Hsegs. cbn [bind].
  rewrite ConstructPartitionKeyRanges_unfold.
  rewrite bitsets_loop_unconstrained by exact Hno. cbn [bind app]. cbv zeta.
  assert (untrimmed_ranges {| lower := []; upper := [] |}
            (map (fun d => replicate (HashDimension.num_buckets d) true)
                 (hash_schema_ partition_schema))
            (length (hash_schema_ partition_schema)) = [{| start := []; end_ := [] |}])
    as ->.
  { unfold untrimmed_ranges, constrained_index_of. simpl.
    rewrite distance_find_if_all_set.
    - rewrite length_rev, length_map, Nat.sub_diag, hash_loop_done by lia. reflexivity.
    - apply Forall_forall. intros bs Hbs.
      apply list_elem_of_In, in_rev, in_map_iff in Hbs as (d & <- & _).
      apply has_cleared_bit_replicate. }
  destruct (exclusive_upper_bound_partition_key scan_spec) as [|c U];
    destruct (lower_bound_partition_key scan_spec) as [|c' L]; reflexivity.
Qed.

End InitCases.

(** ** When [Init] aborts *)

Section InitFatal.
Context `{C : Collaborators}.

Lemma copy_cells_not_fatal (key : EncodedKey) (col_idxs : list nat) (row : Row) :
  copy_cells key col_idxs row <> Fatal.
Proof.
  revert row. induction col_idxs as [|idx rest IH]; intros row; [discriminate|].
  simpl. destruct (raw_keys key !! idx); [apply IH|discriminate].
Qed.

Lemma min_suffix_loop_not_fatal (schema : Schema) (key : EncodedKey) (idxs : list nat)
    (acc : bool) :
  min_suffix_loop schema key idxs acc <> Fatal.
Proof.
  revert acc. induction idxs as [|idx rest IH]; intros acc; [discriminate|].
  simpl. destruct (raw_keys key !! idx); [apply IH|discriminate].
Qed.

Lemma EncodeRangeKeysFromPrimaryKeyBounds_not_fatal (schema : Schema) (scan_spec : ScanSpec)
    (k : nat) (range_key_start range_key_end : bytes) :
  EncodeRangeKeysFromPrimaryKeyBounds schema scan_spec k range_key_start range_key_end
  <> Fatal.
Proof.
  unfold EncodeRangeKeysFromPrimaryKeyBounds.
  assert (forall (key : EncodedKey) (row0 : Row) (start0 : bytes),
            (row <-- copy_cells key (seq 0 k) row0 ;;
             min_suffix <-- min_suffix_loop schema key
                              (seq k (num_key_columns schema - k)) true ;;
             if negb min_suffix then
               let '(incremented, row) := IncrementPrimaryKey schema row k in
               if negb incremented then Ok (start0, range_key_end)
               else Ok (start0, EncodeKey schema (seq 0 k) row range_key_end)
             else Ok (start0, EncodeKey schema (seq 0 k) row range_key_end)) <> Fatal)
    as Hup.
  { intros key row0 start0.
    pose proof (copy_cells_not_fatal key (seq 0 k) row0) as H1.
    destruct (copy_cells key (seq 0 k) row0) as [row| |]; cbn [bind];
      [|contradiction|discriminate].
    pose proof (min_suffix_loop_not_fatal schema key
                  (seq k (num_key_columns schema - k)) true) as H2.
    destruct (min_suffix_loop schema key _ true) as [[|]| |]; cbn [bind negb];
      [discriminate| |contradiction|discriminate].
    destruct (IncrementPrimaryKey schema row k) as [[|] row']; discriminate. }
  destruct (lower_bound_key scan_spec) as [lo|], (exclusive_upper_bound_key scan_spec)
    as [up|]; try discriminate;
    destruct (k =? num_key_columns schema); try discriminate.
  - pose proof (copy_cells_not_fatal lo (seq 0 k) (fresh_row schema)) as H1.
    destruct (copy_cells lo (seq 0 k) (fresh_row schema)) as [row| |]; cbn [bind];
      [apply Hup|contradiction|discriminate].
  - pose proof (copy_cells_not_fatal lo (seq 0 k) (fresh_row schema)) as H1.
    destruct (copy_cells lo (seq 0 k) (fresh_row schema)) as [row| |]; cbn [bind];
      [discriminate|contradiction|discriminate].
  - cbn [bind]. apply Hup.
Qed.

Lemma find_col_idxs_outcome (schema : Schema) (range_columns : list ColumnId)
    (col_idxs : list nat) :
  (find_col_idxs schema range_columns col_idxs = Fatal /\
   exists id, In id range_columns /\ not_key_column schema id) \/
  ((exists result, find_col_idxs schema range_columns col_idxs = Ok result) /\
   forall id, In id range_columns -> ~ not_key_column schema id).
Proof.
  revert col_idxs. induction range_columns as [|id rest IH]; intros col_idxs.
  - right. split; [eexists; reflexivity|intros id []].
  - cbn [find_col_idxs].
    destruct (find_column_by_id schema id) as [col_idx|] eqn:Hf.
    + destruct (Nat.ltb_spec col_idx (num_key_columns schema)) as [Hlt|Hge].
      * destruct (IH (col_idxs ++ [col_idx])) as [[-> (id' & Hin & Hn)]|[Hok Hall]].
        -- left. split; [reflexivity|]. exists id'. split; [right; exact Hin|exact Hn].
        -- right. split; [exact Hok|]. intros id' [<-|Hin]; [|apply Hall, Hin].
           unfold not_key_column. rewrite Hf. lia.
      * left. split; [reflexivity|]. exists id. split; [left; reflexivity|].
        unfold not_key_column. rewrite Hf. exact Hge.
    + left. split; [reflexivity|]. exists id. split; [left; reflexivity|].
      unfold not_key_column. rewrite Hf. exact I.
Qed.

Lemma EncodeRangeKeysFromPredicates_fatal (schema : Schema)
    (predicates : gmap string ColumnPredicate) (range_columns : list ColumnId)
    (range_key_start range_key_end : bytes) :
  EncodeRangeKeysFromPredicates schema predicates range_columns range_key_start range_key_end
    = Fatal <->
  exists id, In id range_columns /\ not_key_column schema id.
Proof.
  unfold EncodeRangeKeysFromPredicates.
  destruct (find_col_idxs_outcome schema range_columns [])
    as [[-> Hex]|[[idxs ->] Hall]]; cbn [bind].
  - tauto.
  - destruct (PushLowerBoundKeyPredicates schema idxs predicates (fresh_row schema))
      as [n1 row1].
    destruct (PushUpperBoundKeyPredicates schema idxs predicates row1) as [n2 row2].
    split; [discriminate|]. intros (id & Hin & Hn). destruct (Hall id Hin Hn).
Qed.

Lemma construct_loop_not_fatal (schema : Schema) (scan_spec : ScanSpec)
    (scan_lower scan_upper : bytes) (range_bounds : list RangeBounds)
    (hash_schemas : list HashSchema) :
  construct_loop schema scan_spec scan_lower scan_upper range_bounds hash_schemas <> Fatal.
Proof.
  revert range_bounds. induction hash_schemas as [|hs rest IH]; intros [|rb rbs];
    try discriminate.
  cbn [construct_loop]. cbv zeta.
  match goal with
  | |- context [ConstructPartitionKeyRanges schema scan_spec hs ?b] =>
      pose proof (bitsets_loop_not_fatal schema scan_spec hs []) as Hb;
      rewrite (ConstructPartitionKeyRanges_unfold schema scan_spec hs b)
  end.
  destruct (bitsets_loop schema scan_spec hs []) as [bitsets| |]; cbn [bind]; cbv zeta;
    [|contradiction|discriminate].
  specialize (IH rbs).
  destruct (negb _); cbn [bind];
    destruct (construct_loop schema scan_spec scan_lower scan_upper rbs rest);
    cbn [bind]; try discriminate; contradiction.
Qed.

Lemma scan_range_bounds_fatal (schema : Schema) (partition_schema : PartitionSchema)
    (scan_spec : ScanSpec) :
  let range_columns := RangeSchema.column_ids (range_schema_ partition_schema) in
  scan_range_bounds schema partition_schema scan_spec = Fatal <->
  num_key_columns schema < length range_columns \/
  (prefix_loop schema 0 range_columns = false /\
   exists id, In id range_columns /\ not_key_column schema id).
Proof.
  cbv zeta. unfold scan_range_bounds.
  destruct (RangeSchema.column_ids (range_schema_ partition_schema)) as [|id rest] eqn:Hrc.
  { split; [discriminate|]. intros [H|(_ & id & [] & _)]. simpl in H. lia. }
  unfold AreRangeColumnsPrefixOfPrimaryKey.
  destruct (Nat.leb_spec (length (id :: rest)) (num_key_columns schema)) as [Hle|Hgt];
    cbn [bind]; [|tauto].
  destruct (prefix_loop schema 0 (id :: rest)).
  - split.
    + intros H. destruct (EncodeRangeKeysFromPrimaryKeyBounds_not_fatal _ _ _ _ _ H).
    + intros [H|[H _]]; [lia|discriminate].
  - rewrite EncodeRangeKeysFromPredicates_fatal. split; [auto|].
    intros [H|[_ H]]; [lia|exact H].
Qed.

(** X18. [Init] aborts in two cases only, and in each of them always,
    unless the scan can be short-circuited: when the partition schema has
    more range columns than the schema has key columns, and when the range
    columns are not a prefix of the primary key and one of them is not a
    key column of the schema. *)
Theorem Init_fatal_iff (schema : Schema) (partition_schema : PartitionSchema)
    (scan_spec : ScanSpec) :
  let range_columns := RangeSchema.column_ids (range_schema_ partition_schema) in
  Init schema partition_schema scan_spec = Fatal <->
  CanShortCircuit scan_spec = false /\
  (num_key_columns schema < length range_columns \/
   (prefix_loop schema 0 range_columns = false /\
    exists id, In id range_columns /\ not_key_column schema id)).
Proof.
  cbv zeta. rewrite <- (scan_range_bounds_fatal schema partition_schema scan_spec).
  unfold Init.
  destruct (CanShortCircuit scan_spec); [split; [discriminate|intros [H _]; discriminate H]|].
  destruct (scan_range_bounds schema partition_schema scan_spec) as [[lo up]| |];
    cbn [bind]; [|split; auto|split; [discriminate|intros [_ H]; discriminate H]].
  split; [|intros [_ H]; discriminate H]. intros H. exfalso. revert H.
  destruct (ranges_with_hash_schemas_ partition_schema) as [|seg segs].
  - pose proof (bitsets_loop_not_fatal schema scan_spec (hash_schema_ partition_schema) [])
      as Hb.
    rewrite ConstructPartitionKeyRanges_unfold.
    destruct (bitsets_loop schema scan_spec (hash_schema_ partition_schema) []);
      cbn [bind]; cbv zeta; [|contradiction|discriminate].
    destruct (negb (str_empty (exclusive_upper_bound_partition_key scan_spec)));
      cbn [bind]; destruct (negb _); discriminate.
  - destruct (store_loop lo up (seg :: segs) [] []) as [rbs hss].
    pose proof (construct_loop_not_fatal schema scan_spec lo up rbs hss) as Hc.
    destruct (construct_loop schema scan_spec lo up rbs hss); cbn [bind];
      [destruct (negb _); discriminate|contradiction|discriminate].
Qed.

(** X19. When the range columns are all the columns of the primary key,
    the range keys that [Init] derives are the encoded primary keys of the
    scan as they are, a bound that the scan does not have being empty. *)
Theorem scan_range_bounds_whole_key (schema : Schema) (partition_schema : PartitionSchema)
    (scan_spec : ScanSpec) :
  let range_columns := RangeSchema.column_ids (range_schema_ partition_schema) in
  range_columns <> [] ->
  length range_columns = num_key_columns schema ->
  prefix_loop schema 0 range_columns = true ->
  scan_range_bounds schema partition_schema scan_spec =
  Ok (match lower_bound_key scan_spec with Some key => encoded_key key | None => [] end,
      match exclusive_upper_bound_key scan_spec with
      | Some key => encoded_key key
      | None => []
      end).
Proof.
  cbv zeta. intros Hne Hlen Hprefix. unfold scan_range_bounds.
  destruct (RangeSchema.column_ids (range_schema_ partition_schema)) as [|id rest];
    [contradiction|].
  unfold AreRangeColumnsPrefixOfPrimaryKey.
  assert ((length (id :: rest) <=? num_key_columns schema) = true) as ->
      by (apply Nat.leb_le; lia).
  cbn [bind]. rewrite Hprefix. unfold EncodeRangeKeysFromPrimaryKeyBounds.
  assert ((length (id :: rest) =? num_key_columns schema) = true) as ->
      by (apply Nat.eqb_eq; exact Hlen).
  destruct (lower_bound_key scan_spec), (exclusive_upper_bound_key scan_spec); reflexivity.
Qed.

(** X20. When the range columns are a proper prefix of the primary key and
    the scan has a lower primary key, the lower range key that [Init]
    derives is the encoding of the first [k] columns of that key; it is
    never incremented. *)
Theorem scan_range_lower_from_primary_key (schema : Schema)
    (partition_schema : PartitionSchema) (scan_spec : ScanSpec) (key : EncodedKey) :
  let range_columns := RangeSchema.column_ids (range_schema_ partition_schema) in
  let k := length range_columns in
  prefix_loop schema 0 range_columns = true ->
  0 < k -> k < num_key_columns schema ->
  lower_bound_key scan_spec = Some key ->
  length (raw_keys key) = num_key_columns schema ->
  (forall up, exclusive_upper_bound_key scan_spec = Some up ->
              length (raw_keys up) = num_key_columns schema) ->
  exists range_upper,
    scan_range_bounds schema partition_schema scan_spec =
    Ok (EncodeKey schema (seq 0 k) (prefix_row schema k key) [], range_upper).
Proof.
  cbv zeta. intros Hprefix Hpos Hk Hlo Hlen Hup. unfold scan_range_bounds.
  destruct (RangeSchema.column_ids (range_schema_ partition_schema)) as [|id rest];
    [simpl in Hpos; lia|].
  unfold AreRangeColumnsPrefixOfPrimaryKey.
  assert ((length (id :: rest) <=? num_key_columns schema) = true) as ->
      by (apply Nat.leb_le; lia).
  cbn [bind]. rewrite Hprefix. clear Hprefix Hpos.
  remember (length (id :: rest)) as k eqn:Ek. clear Ek.
  destruct (exclusive_upper_bound_key scan_spec) as [up|] eqn:Hupper.
  - destruct (EncodeRangeKeysFromPrimaryKeyBounds_upper schema scan_spec k up Hk Hupper
                (Hup up eq_refl)) as [range_lower Hr].
    { intros lo Hlo'. rewrite Hlo in Hlo'. injection Hlo' as <-. exact Hlen. }
    exists (range_upper_spec schema k up). rewrite Hr. f_equal. f_equal.
    revert Hr. unfold EncodeRangeKeysFromPrimaryKeyBounds. rewrite Hlo, Hupper.
    assert ((k =? num_key_columns schema) = false) as -> by (apply Nat.eqb_neq; lia).
    rewrite copy_cells_prefix
      by (rewrite ?Hlen; unfold fresh_row; rewrite ?length_replicate; lia).
    cbn [bind]. unfold fresh_row. rewrite drop_replicate. fold (prefix_row schema k key).
    destruct (copy_cells up (seq 0 k) (prefix_row schema k key)) as [row| |];
      cbn [bind]; try discriminate.
    destruct (min_suffix_loop schema up _ true) as [[|]| |]; cbn [bind negb];
      try discriminate.
    + intros [= <- _]. reflexivity.
    + destruct (IncrementPrimaryKey schema row k) as [[|] row']; cbn [negb];
        intros [= <- _]; reflexivity.
  - eexists. unfold EncodeRangeKeysFromPrimaryKeyBounds. rewrite Hlo, Hupper.
    assert ((k =? num_key_columns schema) = false) as -> by (apply Nat.eqb_neq; lia).
    rewrite copy_cells_prefix
      by (rewrite ?Hlen; unfold fresh_row; rewrite ?length_replicate; lia).
    cbn [bind]. unfold fresh_row. rewrite drop_replicate. reflexivity.
Qed.

End InitFatal.

(** ** The partition key bounds of the scan *)

Section InitBounds.
Context `{C : Collaborators}.

Lemma built_from_In (schema : Schema) (scan_spec : ScanSpec)
    (bounds : RangeWithHashSchema.t -> RangeBounds) (p : pruner)
    (segs : list RangeWithHashSchema.t) (b : RangeBoundsAndPartitionKeyRanges) :
  Forall2 (built_from schema scan_spec bounds) p segs -> In b p ->
  exists seg, In seg segs /\ built_from schema scan_spec bounds b seg.
Proof.
  induction 1 as [|b' seg p segs Hb _ IH]; intros Hin; [destruct Hin|].
  destruct Hin as [<- |Hin].
  - exists seg. split; [left; reflexivity|exact Hb].
  - destruct (IH Hin) as (seg' & Hseg' & Hb'). exists seg'. split; [right|]; assumption.
Qed.

(** The elements of the cursor of [Init], before the ranges below the
    lower bound partition key are removed: each holds the ranges of one
    call of [ConstructPartitionKeyRanges], reversed. *)
Lemma Init_elements (schema : Schema) (partition_schema : PartitionSchema)
    (scan_spec : ScanSpec) (scan_lower scan_upper : bytes) (p : pruner) :
  CanShortCircuit scan_spec = false ->
  scan_range_bounds schema partition_schema scan_spec = Ok (scan_lower, scan_upper) ->
  Init schema partition_schema scan_spec = Ok p ->
  exists p0,
    p = (if negb (str_empty (lower_bound_partition_key scan_spec))
         then RemovePartitionKeyRange (lower_bound_partition_key scan_spec) p0
         else p0) /\
    forall b, In b p0 ->
      exists hash_schema range_bounds v,
        ConstructPartitionKeyRanges schema scan_spec hash_schema range_bounds = Ok v /\
        partition_key_ranges b = rev v /\
        ((hash_schema = hash_schema_ partition_schema /\
          range_bounds = {| lower := scan_lower; upper := scan_upper |}) \/
         exists seg, In seg (ranges_with_hash_schemas_ partition_schema) /\
           hash_schema = RangeWithHashSchema.hash_schema seg /\
           range_bounds = bounds_used scan_lower scan_upper seg).
Proof.
  intros Hsc Hb Hinit.
  destruct (ranges_with_hash_schemas_ partition_schema) as [|seg segs] eqn:Hsegs.
  - unfold Init in Hinit. rewrite Hsc, Hb, Hsegs in Hinit. cbn [bind] in Hinit.
    destruct (ConstructPartitionKeyRanges _ _ _ _) as [v| |] eqn:Hv; try discriminate.
    cbn [bind] in Hinit.
    exists [{| range_bounds := {| lower := []; upper := [] |};
               partition_key_ranges := rev v |}].
    split; [destruct (negb _); congruence|].
    intros b [<- |[]]. exists (hash_schema_ partition_schema),
      {| lower := scan_lower; upper := scan_upper |}, v.
    split; [exact Hv|]. split; [reflexivity|]. left. split; reflexivity.
  - destruct (Init_custom_ranges _ _ _ _ _ _ Hsc ltac:(rewrite Hsegs; discriminate) Hb Hinit)
      as (p0 & Hp0 & ->).
    exists p0. split; [reflexivity|]. intros b Hin.
    destruct (built_from_In _ _ _ _ _ _ Hp0 Hin) as (seg' & Hseg' & _ & v & Hv & Hbv).
    exists (RangeWithHashSchema.hash_schema seg'), (bounds_used scan_lower scan_upper seg'), v.
    split; [exact Hv|]. split; [exact Hbv|]. right. exists seg'.
    split; [|split; reflexivity].
    apply filter_In in Hseg' as [Hseg' _]. rewrite <- Hsegs. exact Hseg'.
Qed.

(** X21. After [Init] of a scan with a lower bound partition key, every
    range of the cursor starts at that key or later: no tablet below the
    lower bound partition key is scanned. *)
Theorem Init_from_lower_bound_partition_key (schema : Schema)
    (partition_schema : PartitionSchema) (scan_spec : ScanSpec) (p : pruner)
    (b : RangeBoundsAndPartitionKeyRanges) (r : PartitionKeyRange) :
  partition_schema_fits partition_schema ->
  lower_bound_partition_key scan_spec <> [] ->
  Init schema partition_schema scan_spec = Ok p ->
  In b p -> In r (partition_key_ranges b) ->
  str_le (lower_bound_partition_key scan_spec) (start r) = true.
Proof.
  intros Hfit Hne Hinit Hb Hr.
  destruct (CanShortCircuit scan_spec) eqn:Hsc.
  { unfold Init in Hinit. rewrite Hsc in Hinit. injection Hinit as <-. destruct Hb. }
  destruct (scan_range_bounds schema partition_schema scan_spec) as [[lo up]| |] eqn:Hbounds;
    try (unfold Init in Hinit; rewrite Hsc, Hbounds in Hinit; discriminate).
  destruct (Init_elements _ _ _ _ _ _ Hsc Hbounds Hinit) as (p0 & Hp & Hp0).
  assert (str_empty (lower_bound_partition_key scan_spec) = false) as He.
  { destruct (str_empty _) eqn:He; [|reflexivity]. apply str_empty_spec in He. contradiction. }
  rewrite He in Hp. cbn [negb] in Hp. subst p.
  eapply RemovePartitionKeyRange_from; [|exact Hb|exact Hr].
  apply cursor_sorted_spec. intros b0 Hb0.
  destruct (Hp0 b0 Hb0) as (hs & rb & v & Hv & Hbv & Hfrom).
  unfold ascending_ranges. rewrite Hbv, rev_involutive.
  eapply ConstructPartitionKeyRanges_sorted; [|exact Hv].
  destruct Hfit as [Hfit Hfits].
  destruct Hfrom as [[-> _]|(seg & Hseg & -> & _)]; [exact Hfit|].
  rewrite Forall_forall in Hfits. apply Hfits, list_elem_of_In, Hseg.
Qed.

(** X22. After [Init] of a scan with an exclusive upper bound partition
    key, the range bounds of the scan and of the range segments being
    proper, every range of the cursor is bounded, starts below that key and
    ends at it or before: no tablet at or above the upper bound partition
    key is scanned. *)
Theorem Init_below_upper_bound_partition_key (schema : Schema)
    (partition_schema : PartitionSchema) (scan_spec : ScanSpec)
    (scan_lower scan_upper : bytes) (p : pruner)
    (b : RangeBoundsAndPartitionKeyRanges) (r : PartitionKeyRange) :
  partition_schema_fits partition_schema ->
  exclusive_upper_bound_partition_key scan_spec <> [] ->
  scan_range_bounds schema partition_schema scan_spec = Ok (scan_lower, scan_upper) ->
  proper_bounds {| lower := scan_lower; upper := scan_upper |} ->
  Forall (fun seg => proper_bounds (segment_bounds seg))
         (ranges_with_hash_schemas_ partition_schema) ->
  Init schema partition_schema scan_spec = Ok p ->
  In b p -> In r (partition_key_ranges b) ->
  below (exclusive_upper_bound_partition_key scan_spec) r.
Proof.
  intros [Hfit Hfits] Hne Hbounds Hscan Hsegs Hinit Hb Hr.
  destruct (CanShortCircuit scan_spec) eqn:Hsc.
  { unfold Init in Hinit. rewrite Hsc in Hinit. injection Hinit as <-. destruct Hb. }
  destruct (Init_elements _ _ _ _ _ _ Hsc Hbounds Hinit) as (p0 & Hp & Hp0).
  assert (forall b0 r0, In b0 p0 -> In r0 (partition_key_ranges b0) ->
            below (exclusive_upper_bound_partition_key scan_spec) r0) as Hbelow.
  { intros b0 r0 Hb0 Hr0.
    destruct (Hp0 b0 Hb0) as (hs & rb & v & Hv & Hbv & Hfrom).
    rewrite Hbv in Hr0. apply in_rev in Hr0.
    eapply ConstructPartitionKeyRanges_below; [| |exact Hne|exact Hv|exact Hr0].
    - destruct Hfrom as [[-> _]|(seg & Hseg & -> & _)]; [exact Hfit|].
      rewrite Forall_forall in Hfits. apply Hfits, list_elem_of_In, Hseg.
    - destruct Hfrom as [[_ ->]|(seg & Hseg & _ & ->)]; [exact Hscan|].
      unfold bounds_used. destruct (_ && _); [|exact Hscan].
      rewrite Forall_forall in Hsegs. apply Hsegs, list_elem_of_In, Hseg. }
  destruct (negb _); subst p; [|eapply Hbelow; eassumption].
  unfold RemovePartitionKeyRange in Hb.
  destruct (str_empty (lower_bound_partition_key scan_spec)); [destruct Hb|].
  apply in_map_iff in Hb as (b0 & <- & Hb0). cbn [partition_key_ranges] in Hr.
  apply remove_loop_elements in Hr as [Hr|(r0 & Hr0 & -> & Hc & _)];
    [eapply Hbelow; eassumption|].
  destruct (Hbelow b0 r0 Hb0 Hr0) as (_ & Hend & Hle).
  unfold below. cbn [start end_]. split; [|split; assumption].
  apply orb_true_iff in Hc as [Hc|Hc]; [apply str_empty_spec in Hc; contradiction|].
  eapply str_lt_le_trans; eassumption.
Qed.

End InitBounds.

(** ** Pruning and intersection *)

(** X23. On a cursor of sorted, proper ranges, [ShouldPrune] returns true
    exactly when no range intersects the partition, the elements whose
    range bounds both differ from the range keys of the partition being
    left aside: a partition is pruned only if the scan has no key in it. *)
Theorem ShouldPrune_no_intersection (p : pruner) (P : Partition) :
  cursor_sorted p = true -> cursor_proper p = true ->
  ShouldPrune p P = true <->
  forall b r, In b p -> belongs_to_other_range (range_bounds b) P = false ->
    In r (partition_key_ranges b) -> ~ intersects r P.
Proof.
  intros Hs Hp. rewrite (ShouldPrune_intersects p P Hs Hp). split.
  - intros H b r Hb Hskip Hr. destruct (H b Hb) as [Hsk|Hno].
    + apply belongs_to_other_range_spec in Hsk. congruence.
    + apply Hno. unfold ascending_ranges. apply in_rev in Hr. exact Hr.
  - intros H b Hb. destruct (belongs_to_other_range (range_bounds b) P) eqn:Hskip.
    + left. apply belongs_to_other_range_spec, Hskip.
    + right. intros r Hr. apply (H b r Hb Hskip). apply in_rev. exact Hr.
Qed.

(** ** The buckets of a hash dimension *)

Section HashBuckets.
Context `{C : Collaborators}.

(** The loop of [set_buckets] sets the buckets of its strings and no
    other. *)
Lemma set_buckets_spec (d : HashDimension.t) (encoded_strings : list bytes)
    (bitset bitset' : list bool) :
  set_buckets d encoded_strings bitset = Ok bitset' ->
  forall i,
    bitset' !! i = Some true <->
    bitset !! i = Some true \/
    exists encoded, In encoded encoded_strings /\ HashValueForEncodedColumns encoded d = i.
Proof.
  revert bitset. induction encoded_strings as [|e rest IH]; intros bitset.
  - cbn [set_buckets]. intros [= <-] i. split; [auto|].
    intros [H|(encoded & [] & _)]. exact H.
  - cbn [set_buckets]. cbv zeta.
    destruct (_ <? _) eqn:Hlt; [|discriminate]. apply Nat.ltb_lt in Hlt.
    intros H i. rewrite (IH _ H i).
    destruct (Nat.eq_dec (HashValueForEncodedColumns e d) i) as [Heq|Hne].
    + subst i. split; intros _.
      * right. exists e. split; [left; reflexivity|reflexivity].
      * left. apply list_lookup_insert_eq. exact Hlt.
    + rewrite list_lookup_insert_ne by exact Hne. split.
      * intros [H0|(encoded & Hin & Hh)]; [left; exact H0|].
        right. exists encoded. split; [right; exact Hin|exact Hh].
      * intros [H0|(encoded & [<- |Hin] & Hh)]; [left; exact H0|contradiction|].
        right. exists encoded. split; assumption.
Qed.

Lemma In_value_combinations (column_values : list raw) (rest : list (list raw))
    (combination : list raw) :
  In combination (value_combinations (column_values :: rest)) <->
  exists v combination',
    In v column_values /\ In combination' (value_combinations rest) /\
    combination = v :: combination'.
Proof.
  cbn [value_combinations]. rewrite in_flat_map. split.
  - intros (v & Hv & Hc). apply in_map_iff in Hc as (c' & <- & Hc'). eauto.
  - intros (v & c' & Hv & Hc' & ->). exists v. split; [exact Hv|].
    apply in_map_iff. eauto.
Qed.

(** The loop over the columns of a hash dimension returns the strings that
    encode the combinations of the values of the predicates, each appended
    to one of the strings that the loop starts from. *)
Lemma column_loop_combinations (schema : Schema) (scan_spec : ScanSpec) (num_columns : nat)
    (columns : list ColumnId) (values : list (list raw)) :
  predicate_values_of schema scan_spec columns values ->
  forall col_offset encoded_strings,
    col_offset + length columns = num_columns ->
    exists result,
      column_loop schema scan_spec num_columns col_offset columns encoded_strings =
        Ok result /\
      forall encoded,
        In encoded result <->
        exists encoded_string combination,
          In encoded_string encoded_strings /\
          In combination (value_combinations values) /\
          encoded = encode_combination schema columns combination encoded_string.
Proof.
  induction 1 as [|id column_values columns values (predicate & Hp & Hvalues) _ IH];
    intros col_offset encoded_strings Hlen.
  - exists encoded_strings. split; [reflexivity|]. intros encoded. split.
    + intros He. exists encoded, []. split; [exact He|]. split; [left|]; reflexivity.
    + intros (s & c & Hs & [<- |[]] & ->). exact Hs.
  - cbn [length] in Hlen.
    assert (predicate_values predicate = Ok column_values) as Hpv.
    { unfold predicate_values. destruct Hvalues as [[-> ->]|[-> ->]]; reflexivity. }
    assert ((col_offset + 1 =? num_columns) =
            match columns with [] => true | _ :: _ => false end) as Hlast.
    { destruct columns; cbn [length] in Hlen;
        [apply Nat.eqb_eq|apply Nat.eqb_neq]; lia. }
    destruct (IH (S col_offset)
                (replicate_encoded schema id (col_offset + 1 =? num_columns)
                   encoded_strings column_values) ltac:(lia)) as (result & Hresult & Hin).
    exists result. split.
    { cbn [column_loop]. rewrite Hp, Hpv. cbn [bind]. exact Hresult. }
    intros encoded. rewrite Hin. split.
    + intros (s' & c' & Hs' & Hc' & ->).
      unfold replicate_encoded in Hs'. apply in_flat_map in Hs' as (s & Hs & Hs').
      apply in_map_iff in Hs' as (v & <- & Hv).
      exists s, (v :: c'). split; [exact Hs|]. split.
      * apply In_value_combinations. eauto.
      * cbn [encode_combination]. rewrite Hlast. reflexivity.
    + intros (s & c & Hs & Hc & ->).
      apply In_value_combinations in Hc as (v & c' & Hv & Hc' & ->).
      exists (Encode schema id v (col_offset + 1 =? num_columns) s), c'.
      split; [|split; [exact Hc'|]].
      * unfold replicate_encoded. apply in_flat_map. exists s. split; [exact Hs|].
        apply in_map_iff. eauto.
      * cbn [encode_combination]. rewrite Hlast. reflexivity.
Qed.

(** X24. When every column of a hash dimension has an equality or in-list
    predicate, the bitset that [PruneHashComponent] returns has one bit for
    each bucket of the dimension, and the buckets that survive are exactly
    the hash values of the combinations of the values of the predicates,
    one value for each column, each combination being encoded column after
    column with the last column marked. *)
Theorem PruneHashComponent_buckets (hash_dimension : HashDimension.t) (schema : Schema)
    (scan_spec : ScanSpec) (values : list (list raw)) (bitset : list bool) :
  predicate_values_of schema scan_spec (HashDimension.column_ids hash_dimension) values ->
  PruneHashComponent hash_dimension schema scan_spec = Ok bitset ->
  length bitset = HashDimension.num_buckets hash_dimension /\
  forall i,
    bitset !! i = Some true <->
    exists combination,
      In combination (value_combinations values) /\
      HashValueForEncodedColumns
        (encode_combination schema (HashDimension.column_ids hash_dimension) combination [])
        hash_dimension = i.
Proof.
  intros Hvalues Hprune. split; [eapply PruneHashComponent_length, Hprune|].
  destruct (column_loop_combinations schema scan_spec _ _ _ Hvalues 0 [[]] eq_refl)
    as (encoded_strings & Hloop & Hin).
  cbn [Nat.add] in Hloop. unfold PruneHashComponent in Hprune. rewrite Hloop in Hprune. cbn [bind] in Hprune.
  intros i. rewrite (set_buckets_spec _ _ _ _ Hprune i). split.
  - intros [H|(encoded & He & Hh)].
    + apply lookup_replicate in H as [H _]. discriminate H.
    + apply Hin in He as (s & c & [<- |[]] & Hc & ->). eauto.
  - intros (c & Hc & Hh). right.
    exists (encode_combination schema (HashDimension.column_ids hash_dimension) c []).
    split; [|exact Hh]. apply Hin. exists [], c. split; [left; reflexivity|]. auto.
Qed.

End HashBuckets.

(** ** [ShouldPrune] in the states of a pruner *)

Lemma all_pairs_lookup {A : Type} (R : A -> A -> bool) (l : list A) (i j : nat) (x y : A) :
  all_pairs R l = true -> i < j -> l !! i = Some x -> l !! j = Some y -> R x y = true.
Proof.
  revert i j. induction l as [|a l IH]; intros i j Hl Hij Hx Hy; [discriminate|].
  apply all_pairs_cons in Hl as [Ha Hl].
  destruct j as [|j]; [lia|]. simpl in Hy. destruct i as [|i].
  - injection Hx as <-. apply Ha. apply list_elem_of_In, list_elem_of_lookup. eauto.
  - simpl in Hx. apply (IH i j); [exact Hl|lia|exact Hx|exact Hy].
Qed.

(** Sorted, proper ranges have ascending ends. *)
Lemma sorted_proper_ends (l : list PartitionKeyRange) :
  ranges_sorted l = true -> forallb proper_range l = true -> ends_ascending l = true.
Proof.
  induction l as [|r l IH]; [reflexivity|].
  intros Hs Hp. apply ranges_sorted_cons in Hs as [Hr Hl].
  cbn [forallb] in Hp. apply andb_true_iff in Hp as [_ Hp].
  apply all_pairs_cons. split; [|apply IH; assumption].
  intros r' Hr'. specialize (Hr r' Hr'). apply range_before_spec in Hr as (_ & Hle & _).
  rewrite forallb_forall in Hp. specialize (Hp r' Hr').
  unfold proper_range in Hp. unfold end_before.
  apply orb_true_iff in Hp as [He|Hlt]; [rewrite He; reflexivity|].
  rewrite (str_lt_le _ _ (str_le_lt_trans _ _ _ Hle Hlt)). apply orb_true_r.
Qed.

(** On sorted ranges with ascending ends the comparator of [ShouldPrune]
    partitions the sequence. *)
Lemma scan_range_before_partitions_ends (l : list PartitionKeyRange) (P : Partition) :
  ranges_sorted l = true -> ends_ascending l = true ->
  forall i j x y, i <= j -> l !! i = Some x -> l !! j = Some y ->
                  scan_range_before P y = true -> scan_range_before P x = true.
Proof.
  intros Hs He i j x y Hij Hx Hy Hcomp.
  destruct (Nat.eq_dec i j) as [->|Hne]; [congruence|].
  pose proof (sorted_lookup_before l i j x y Hs ltac:(lia) Hx Hy) as Hxy.
  apply range_before_spec in Hxy as (Hne' & _ & _).
  pose proof (all_pairs_lookup end_before l i j x y He ltac:(lia) Hx Hy) as Hends.
  unfold scan_range_before in *. apply andb_true_iff in Hcomp as [Hey Hley].
  apply str_empty_false in Hne'. rewrite Hne'. simpl.
  unfold end_before in Hends. apply negb_true_iff in Hey. rewrite Hey in Hends.
  simpl in Hends. eapply str_le_trans; eassumption.
Qed.

(** The loop that trims to the scan's upper bound partition key keeps the
    ends ascending. *)
Lemma trim_loop_ends (bound : bytes) (l : list PartitionKeyRange) :
  ranges_sorted l = true -> ends_ascending l = true ->
  ends_ascending (trim_loop bound (length l) l) = true.
Proof.
  induction l as [|r l0 IH] using rev_ind; [reflexivity|].
  intros Hs He. rewrite length_app. simpl length. rewrite Nat.add_1_r. cbn [trim_loop].
  rewrite lookup_snoc_length by reflexivity.
  destruct (negb (str_empty (end_ r)) && str_ge bound (end_ r)); [exact He|].
  apply ranges_sorted_app in Hs as Hs'. destruct Hs' as (Hl0 & _ & Hlr).
  apply all_pairs_app in He as He'. destruct He' as (Hel0 & _ & _).
  destruct (str_le bound (start r)) eqn:Hle.
  { rewrite removelast_last. apply IH; assumption. }
  rewrite insert_snoc_length by reflexivity.
  rewrite str_le_not_lt in Hle. apply negb_false_iff in Hle.
  assert (ends_ascending (l0 ++ [{| start := start r; end_ := bound |}]) = true) as He''.
  { apply all_pairs_app. split; [exact Hel0|]. split; [reflexivity|].
    intros x y Hx [<-|[]]. specialize (Hlr x r Hx (or_introl eq_refl)).
    apply range_before_spec in Hlr as (_ & Hxr & _). unfold end_before. cbn [end_].
    rewrite (str_lt_le _ _ (str_le_lt_trans _ _ _ Hxr Hle)). apply orb_true_r. }
  destruct l0 as [|q l1 _] using rev_ind; [reflexivity|].
  rewrite length_app. simpl length. rewrite Nat.add_1_r. cbn [trim_loop].
  rewrite lookup_app_l by (rewrite length_app; simpl; lia).
  rewrite lookup_snoc_length by reflexivity.
  assert (In q (l1 ++ [q])) as Hq by (apply in_or_app; right; left; reflexivity).
  specialize (Hlr q r Hq (or_introl eq_refl)).
  apply range_before_spec in Hlr as (Hne & Hqr & _).
  apply str_empty_false in Hne. rewrite Hne. simpl negb.
  rewrite str_ge_le, (str_lt_le _ _ (str_le_lt_trans _ _ _ Hqr Hle)). exact He''.
Qed.

(** The ranges of [ConstructPartitionKeyRanges] have ascending ends,
    whatever the range bounds. *)
Lemma untrimmed_ranges_ends (range_bounds : RangeBounds) (bitsets : list (list bool))
    (h : nat) :
  Forall (fun bs => (N.of_nat (length bs) < 4294967296)%N) bitsets ->
  length bitsets = h ->
  ends_ascending (untrimmed_ranges range_bounds bitsets h) = true.
Proof.
  intros Hfit Hlen. destruct (upper range_bounds) as [|c u] eqn:Hu.
  - apply sorted_proper_ends; [apply untrimmed_ranges_sorted; assumption|].
    apply forallb_forall. intros r Hr.
    eapply untrimmed_ranges_proper; [exact Hfit|exact Hlen| |exact Hr]. left. exact Hu.
  - unfold untrimmed_ranges.
    assert (upper range_bounds <> []) as Hne by (rewrite Hu; discriminate).
    destruct (hash_loop_points range_bounds
                (constrained_index_of range_bounds bitsets h) bitsets Hne Hfit
                0 0 _ seed_points) as [n Hn].
    pose proof Hn as [_ Hasc].
    refine (all_pairs_map _ _ _ _ _ Hasc).
    intros x y Hx Hy Hlt. unfold end_before, append_range_bounds. cbn [end_].
    destruct (point_ranges_In _ _ _ Hn Hx) as [-> Hlx].
    destruct (point_ranges_In _ _ _ Hn Hy) as [-> Hly].
    apply orb_true_iff. right.
    apply str_lt_le, str_lt_app_same_length; [congruence|exact Hlt].
Qed.

Lemma advance_ranges_spec_ends (upper : bytes) (asc : list PartitionKeyRange) :
  ends_ascending asc = true -> ends_ascending (advance_ranges_spec upper asc) = true.
Proof.
  intros He.
  destruct (advance_ranges_spec_suffix upper asc)
    as [->|(pre & r & rest & -> & [->|[-> _]])]; [reflexivity| |].
  - apply all_pairs_app in He. tauto.
  - apply all_pairs_app in He as (_ & He & _).
    apply all_pairs_cons in He as [Hr Hrest]. apply all_pairs_cons.
    split; [|exact Hrest]. intros r' Hr'. exact (Hr r' Hr').
Qed.

Lemma RemovePartitionKeyRange_ends (upper_bound : bytes) (p : pruner) :
  cursor_sorted p = true -> cursor_ends_ascending p = true ->
  cursor_ends_ascending (RemovePartitionKeyRange upper_bound p) = true.
Proof.
  intros Hs He. rewrite (RemovePartitionKeyRange_sorted_spec _ _ Hs).
  unfold advance_past_spec. destruct (str_empty upper_bound); [reflexivity|].
  unfold cursor_ends_ascending in *. rewrite forallb_forall in *.
  intros b' Hb'. apply in_map_iff in Hb' as (b & <- & Hb).
  unfold ascending_ranges at 1. cbn [partition_key_ranges]. rewrite rev_involutive.
  apply advance_ranges_spec_ends, He, Hb.
Qed.

Section ShouldPruneStates.
Context `{C : Collaborators}.

Lemma ConstructPartitionKeyRanges_ends (schema : Schema) (scan_spec : ScanSpec)
    (hash_schema : HashSchema) (range_bounds : RangeBounds) (v : list PartitionKeyRange) :
  buckets_fit hash_schema ->
  ConstructPartitionKeyRanges schema scan_spec hash_schema range_bounds = Ok v ->
  ends_ascending v = true.
Proof.
  intros Hfit. rewrite ConstructPartitionKeyRanges_unfold.
  destruct (bitsets_loop schema scan_spec hash_schema []) as [bitsets| |] eqn:Hb;
    try discriminate.
  cbn [bind]. cbv zeta. destruct (bitsets_loop_Ok_fit _ _ _ _ Hfit Hb) as [Hf Hl].
  destruct (negb _); intros [= <-].
  - apply trim_loop_ends; [apply untrimmed_ranges_sorted|apply untrimmed_ranges_ends];
      assumption.
  - apply untrimmed_ranges_ends; assumption.
Qed.

Lemma Init_ends (schema : Schema) (partition_schema : PartitionSchema)
    (scan_spec : ScanSpec) (p : pruner) :
  partition_schema_fits partition_schema ->
  Init schema partition_schema scan_spec = Ok p ->
  cursor_ends_ascending p = true.
Proof.
  intros [Hfit Hfits] Hinit.
  destruct (CanShortCircuit scan_spec) eqn:Hsc.
  { unfold Init in Hinit. rewrite Hsc in Hinit. injection Hinit as <-. reflexivity. }
  destruct (scan_range_bounds schema partition_schema scan_spec) as [[lo up]| |] eqn:Hbounds;
    try (unfold Init in Hinit; rewrite Hsc, Hbounds in Hinit; discriminate).
  destruct (Init_elements _ _ _ _ _ _ Hsc Hbounds Hinit) as (p0 & Hp & Hp0).
  assert (forall b, In b p0 ->
            ranges_sorted (ascending_ranges b) = true /\
            ends_ascending (ascending_ranges b) = true) as Hinv.
  { intros b Hb. destruct (Hp0 b Hb) as (hs & rb & v & Hv & Hbv & Hfrom).
    unfold ascending_ranges. rewrite Hbv, rev_involutive.
    assert (buckets_fit hs) as Hhs.
    { destruct Hfrom as [[-> _]|(seg & Hseg & -> & _)]; [exact Hfit|].
      rewrite Forall_forall in Hfits. apply Hfits, list_elem_of_In, Hseg. }
    split; [eapply ConstructPartitionKeyRanges_sorted|eapply ConstructPartitionKeyRanges_ends];
      eassumption. }
  assert (cursor_sorted p0 = true) as Hs0
    by (apply forallb_forall; intros b Hb; apply Hinv, Hb).
  assert (cursor_ends_ascending p0 = true) as He0
    by (apply forallb_forall; intros b Hb; apply Hinv, Hb).
  destruct (negb _); subst p; [apply RemovePartitionKeyRange_ends|]; assumption.
Qed.

(** The cursor of a pruner holds ranges with ascending ends in every
    state. *)
Lemma reachable_ends (p : pruner) : reachable p -> cursor_ends_ascending p = true.
Proof.
  induction 1 as [|schema partition_schema scan_spec p Hfit Hinit|upper_bound p Hp IH].
  - reflexivity.
  - eapply Init_ends; eassumption.
  - apply RemovePartitionKeyRange_ends; [apply reachable_sorted, Hp|exact IH].
Qed.

End ShouldPruneStates.

(** On a sequence that the comparator partitions, the position that the
    search returns is that of the first element on which the comparator is
    false. *)
Lemma find_lookup_first {A : Type} (f : A -> bool) (l : list A) :
  forall k,
    (forall i x, i < k -> l !! i = Some x -> f x = false) ->
    (forall y, l !! k = Some y -> f y = true) ->
    List.find f l = l !! k.
Proof.
  induction l as [|a l IH]; intros k Hbefore Hat; [reflexivity|].
  cbn [List.find]. destruct k as [|k].
  - rewrite (Hat a eq_refl). reflexivity.
  - rewrite (Hbefore 0 a ltac:(lia) eq_refl). apply IH.
    + intros i x Hi Hx. apply (Hbefore (S i) x); [lia|exact Hx].
    + intros y Hy. apply Hat. exact Hy.
Qed.

Lemma lower_bound_first (P : Partition) (s : list PartitionKeyRange) :
  (forall i j x y, i <= j -> s !! i = Some x -> s !! j = Some y ->
                   scan_range_before P y = true -> scan_range_before P x = true) ->
  s !! lower_bound s (scan_range_before P) = first_not_before P s.
Proof.
  intros Hmono. unfold first_not_before. symmetry. apply find_lookup_first.
  - intros i x Hi Hx.
    assert (scan_range_before P x = true) as Hc.
    { apply (lower_bound_loop_before s (scan_range_before P) (length s) 0 (length s) Hmono)
        with (i := i); [lia|simpl; lia|intros; lia|exact Hi|exact Hx]. }
    unfold scan_range_before in Hc. apply andb_true_iff in Hc as [He Hle].
    apply negb_true_iff in He. rewrite He. simpl.
    rewrite str_le_not_lt in Hle. apply negb_true_iff in Hle. exact Hle.
  - intros y Hy. apply lower_bound_found in Hy. unfold scan_range_before in Hy.
    destruct (str_empty (end_ y)); [reflexivity|]. simpl in *.
    rewrite str_le_not_lt in Hy. apply negb_false_iff in Hy. exact Hy.
Qed.

(** On a sequence that the comparator partitions, an element keeps a
    partition alive as the code computes it exactly when it does so as the
    specification words it. *)
Lemma bucket_keeps_alive_first (b : RangeBoundsAndPartitionKeyRanges) (P : Partition) :
  (forall i j x y, i <= j -> ascending_ranges b !! i = Some x ->
                   ascending_ranges b !! j = Some y ->
                   scan_range_before P y = true -> scan_range_before P x = true) ->
  bucket_keeps_alive b P <-> keeps_alive_spec b P.
Proof.
  intros Hmono. unfold bucket_keeps_alive, keeps_alive_spec.
  rewrite (lower_bound_first P _ Hmono). split.
  - intros (r & Hr & _ & Hend). eauto.
  - intros (r & Hr & Hend). exists r. split; [exact Hr|]. split; [|exact Hend].
    unfold first_not_before in Hr. apply find_some in Hr as [_ Hr].
    apply orb_true_iff in Hr as [Hr|Hr]; [left; apply str_empty_spec, Hr|right; exact Hr].
Qed.

(** C4. In every state of a pruner, [ShouldPrune] returns true exactly
    when no range that remains intersects the partition, the ranges of the
    elements that are skipped being left aside: an element is skipped when
    both its lower range bound is set and differs from the partition's
    range key start and its upper range bound is set and differs from the
    partition's range key end.  An element that is not skipped keeps the
    partition alive exactly when the search finds a range, the first one in
    ascending order whose end is empty or greater than the partition's
    start key, and the partition's end key is empty or greater than the
    start of that range. *)
Theorem ShouldPrune_iff `{C : Collaborators} (p : pruner) (P : Partition) :
  reachable p ->
  (ShouldPrune p P = true <->
   forall b, In b p ->
     bucket_skipped b P \/
     forall r, In r (partition_key_ranges b) -> ~ intersects r P) /\
  (ShouldPrune p P = true <->
   forall b, In b p -> bucket_skipped b P \/ ~ keeps_alive_spec b P).
Proof.
  intros Hp.
  pose proof (reachable_sorted p Hp) as Hs. pose proof (reachable_ends p Hp) as He.
  unfold cursor_sorted in Hs. unfold cursor_ends_ascending in He.
  rewrite forallb_forall in Hs, He.
  assert (forall b, In b p ->
            forall i j x y, i <= j -> ascending_ranges b !! i = Some x ->
              ascending_ranges b !! j = Some y ->
              scan_range_before P y = true -> scan_range_before P x = true) as Hmono.
  { intros b Hb. apply scan_range_before_partitions_ends; [apply Hs|apply He]; exact Hb. }
  split.
  - rewrite ShouldPrune_binary_search. split; intros H b Hb.
    + destruct (H b Hb) as [Hskip|Hna]; [left; exact Hskip|]. right. intros r Hr Hi.
      apply Hna, (keeps_alive_intersects_partitioned b P (Hs b Hb) (Hmono b Hb)).
      exists r. split; [unfold ascending_ranges; apply in_rev in Hr; exact Hr|exact Hi].
    + destruct (H b Hb) as [Hskip|Hni]; [left; exact Hskip|]. right. intros Ha.
      apply (keeps_alive_intersects_partitioned b P (Hs b Hb) (Hmono b Hb)) in Ha
        as (r & Hr & Hi).
      apply (Hni r); [apply in_rev; exact Hr|exact Hi].
  - rewrite ShouldPrune_binary_search. split; intros H b Hb.
    + destruct (H b Hb) as [Hskip|Hna]; [left; exact Hskip|]. right. intros Ha.
      apply Hna, (bucket_keeps_alive_first b P (Hmono b Hb)), Ha.
    + destruct (H b Hb) as [Hskip|Hna]; [left; exact Hskip|]. right. intros Ha.
      apply Hna, (bucket_keeps_alive_first b P (Hmono b Hb)), Ha.
Qed.

(** ** Examples of the further properties *)

Lemma RemovePartitionKeyRange_below_next_witness :
  RemovePartitionKeyRange [x00] Example.two_ranges = Example.two_ranges.
Proof.
  apply (RemovePartitionKeyRange_below_next [x00] Example.two_ranges); [discriminate|].
  intros b r [<- |[]] [= <-]. reflexivity.
Defined.

Lemma RemovePartitionKeyRange_past_all_witness :
  NumRangesRemaining (RemovePartitionKeyRange [x01] Example.two_ranges) = 0 /\
  HasMorePartitionKeyRanges (RemovePartitionKeyRange [x01] Example.two_ranges) = false.
Proof.
  apply (RemovePartitionKeyRange_past_all [x01] Example.two_ranges).
  intros b r [<- |[]] [<- |[<- |[]]]; (split; [reflexivity|split; [discriminate|reflexivity]]).
Defined.

Lemma RemovePartitionKeyRange_idempotent_witness :
  cursor_sorted Example.two_ranges = true /\
  RemovePartitionKeyRange [x00; x00; x00; x00; x03]
    (RemovePartitionKeyRange [x00; x00; x00; x00; x03] Example.two_ranges) =
  RemovePartitionKeyRange [x00; x00; x00; x00; x03] Example.two_ranges.
Proof.
  split; [reflexivity|].
  apply (RemovePartitionKeyRange_idempotent [x00; x00; x00; x00; x03] Example.two_ranges).
  reflexivity.
Defined.

Lemma RemovePartitionKeyRange_compose_witness :
  str_le [x00; x00; x00; x00; x03] [x00; x00; x00; x01; x02] = true /\
  RemovePartitionKeyRange [x00; x00; x00; x01; x02]
    (RemovePartitionKeyRange [x00; x00; x00; x00; x03] Example.two_ranges) =
  RemovePartitionKeyRange [x00; x00; x00; x01; x02] Example.two_ranges.
Proof.
  split; [reflexivity|].
  apply (RemovePartitionKeyRange_compose [x00; x00; x00; x00; x03] [x00; x00; x00; x01; x02]
           Example.two_ranges); [reflexivity|discriminate|reflexivity].
Defined.

Lemma RemovePartitionKeyRange_starts_from_witness :
  In (Example.element [] []
        [Example.range [x00; x00; x00; x01; x01] [x00; x00; x00; x01; x05];
         Example.range [x00; x00; x00; x00; x03] [x00; x00; x00; x00; x05]])
     (RemovePartitionKeyRange [x00; x00; x00; x00; x03] Example.two_ranges) /\
  str_le [x00; x00; x00; x00; x03]
    (start (Example.range [x00; x00; x00; x00; x03] [x00; x00; x00; x00; x05])) = true.
Proof.
  assert (In (Example.element [] []
                [Example.range [x00; x00; x00; x01; x01] [x00; x00; x00; x01; x05];
                 Example.range [x00; x00; x00; x00; x03] [x00; x00; x00; x00; x05]])
             (RemovePartitionKeyRange [x00; x00; x00; x00; x03] Example.two_ranges)) as Hb
    by (left; reflexivity).
  split; [exact Hb|].
  apply (RemovePartitionKeyRange_starts_from [x00; x00; x00; x00; x03] Example.two_ranges
           _ (Example.range [x00; x00; x00; x00; x03] [x00; x00; x00; x00; x05])
           eq_refl Hb).
  right. left. reflexivity.
Defined.

Lemma reachable_ranges_disjoint_witness :
  reachable (C := Example.table) Example.two_ranges /\
  end_ (Example.range [x00; x00; x00; x00; x01] [x00; x00; x00; x00; x05]) <> [] /\
  str_le (end_ (Example.range [x00; x00; x00; x00; x01] [x00; x00; x00; x00; x05]))
         (start (Example.range [x00; x00; x00; x01; x01] [x00; x00; x00; x01; x05])) = true /\
  str_lt (start (Example.range [x00; x00; x00; x00; x01] [x00; x00; x00; x00; x05]))
         (start (Example.range [x00; x00; x00; x01; x01] [x00; x00; x00; x01; x05])) = true.
Proof.
  assert (reachable (C := Example.table) Example.two_ranges) as Hp.
  { apply (reachable_Init (C := Example.table) 1 Example.hashed_table
             (Example.between (Example.key [[x01]]) (Example.key [[x05]])));
      [split; repeat constructor|reflexivity]. }
  split; [exact Hp|].
  apply (reachable_ranges_disjoint (C := Example.table) Example.two_ranges
           (Example.element [] []
              [Example.range [x00; x00; x00; x01; x01] [x00; x00; x00; x01; x05];
               Example.range [x00; x00; x00; x00; x01] [x00; x00; x00; x00; x05]])
           0 1 _ _ Hp); [left; reflexivity|lia|reflexivity|reflexivity].
Defined.

Lemma RemovePartitionKeyRange_proper_witness :
  cursor_proper Example.two_ranges = true /\
  cursor_proper (RemovePartitionKeyRange [x00; x00; x00; x00; x03] Example.two_ranges) = true.
Proof.
  split; [reflexivity|].
  apply (RemovePartitionKeyRange_proper [x00; x00; x00; x00; x03] Example.two_ranges).
  reflexivity.
Defined.

Lemma ShouldPrune_after_Remove_witness :
  ShouldPrune Example.two_ranges
    (Example.partition [] [] [x00; x00; x00; x00; x05] [x00; x00; x00; x01]) = true /\
  ShouldPrune (RemovePartitionKeyRange [x00; x00; x00; x00; x03] Example.two_ranges)
    (Example.partition [] [] [x00; x00; x00; x00; x05] [x00; x00; x00; x01]) = true.
Proof.
  split; [reflexivity|].
  apply (ShouldPrune_after_Remove [x00; x00; x00; x00; x03] Example.two_ranges
           (Example.partition [] [] [x00; x00; x00; x00; x05] [x00; x00; x00; x01]));
    reflexivity.
Defined.

Lemma ConstructPartitionKeyRanges_proper_witness :
  ConstructPartitionKeyRanges (C := Example.table) 1 (Example.up_to [x00; x00; x00; x01])
    [Example.two_buckets] {| lower := [x01]; upper := [x05] |} =
    Ok [Example.range [x00; x00; x00; x00; x01] [x00; x00; x00; x00; x05]] /\
  forall r, In r [Example.range [x00; x00; x00; x00; x01] [x00; x00; x00; x00; x05]] ->
            proper_range r = true.
Proof.
  split; [reflexivity|].
  apply (ConstructPartitionKeyRanges_proper (C := Example.table) 1
           (Example.up_to [x00; x00; x00; x01]) [Example.two_buckets]
           {| lower := [x01]; upper := [x05] |});
    [repeat constructor|right; reflexivity|reflexivity].
Defined.

Lemma ConstructPartitionKeyRanges_below_upper_bound_witness :
  ConstructPartitionKeyRanges (C := Example.table) 1 (Example.up_to [x00; x00; x00; x01])
    [Example.two_buckets] {| lower := []; upper := [] |} =
    Ok [Example.range [] [x00; x00; x00; x01]] /\
  forall r, In r [Example.range [] [x00; x00; x00; x01]] ->
            below (exclusive_upper_bound_partition_key (Example.up_to [x00; x00; x00; x01])) r.
Proof.
  split; [reflexivity|].
  apply (ConstructPartitionKeyRanges_below_upper_bound (C := Example.table) 1
           (Example.up_to [x00; x00; x00; x01]) [Example.two_buckets]
           {| lower := []; upper := [] |});
    [repeat constructor|left; reflexivity|discriminate|reflexivity].
Defined.

Lemma ConstructPartitionKeyRanges_count_witness :
  length [Example.range [x00; x00; x00; x00] [x00; x00; x00; x01]] <=
    product (map num_surviving (take 1 [[true; false]])) /\
  (exclusive_upper_bound_partition_key (Example.a_equals [x07]) = [] ->
   length [Example.range [x00; x00; x00; x00] [x00; x00; x00; x01]] =
     product (map num_surviving (take 1 [[true; false]]))).
Proof.
  apply (ConstructPartitionKeyRanges_count (C := Example.table) 1 (Example.a_equals [x07])
           [Example.two_buckets] {| lower := []; upper := [] |} [[true; false]]
           [Example.range [x00; x00; x00; x00] [x00; x00; x00; x01]]);
    vm_compute; reflexivity.
Defined.

Lemma ConstructPartitionKeyRanges_bounded_witness :
  length [Example.range [x00; x00; x00; x00] [x00; x00; x00; x01]] <=
    product (map HashDimension.num_buckets [Example.two_buckets]).
Proof.
  apply (ConstructPartitionKeyRanges_bounded (C := Example.table) 1 (Example.a_equals [x07])
           [Example.two_buckets] {| lower := []; upper := [] |}
           [Example.range [x00; x00; x00; x00] [x00; x00; x00; x01]]);
    [repeat constructor; simpl; lia|vm_compute; reflexivity].
Defined.

Lemma PruneHashComponent_equality_witness :
  PruneHashComponent (C := Example.table) Example.two_buckets 1 (Example.a_equals [x07]) =
    Ok [true; false] /\
  length [true; false] = HashDimension.num_buckets Example.two_buckets /\
  exists bucket,
    bucket < HashDimension.num_buckets Example.two_buckets /\
    forall i, [true; false] !! i = Some true <-> i = bucket.
Proof.
  split; [vm_compute; reflexivity|].
  apply (PruneHashComponent_equality (C := Example.table) Example.two_buckets 1
           (Example.a_equals [x07]) [true; false]); [|vm_compute; reflexivity].
  intros id [<- |[]]. eexists. split; [vm_compute; reflexivity|reflexivity].
Defined.

Lemma Init_unconstrained_witness :
  Init (C := Example.table) 1 Example.hashed_table
    (Example.from_to [x00; x00; x00; x00; x03] [x00; x00; x00; x01]) =
  Ok [Example.element [] []
        [Example.range [x00; x00; x00; x00; x03] [x00; x00; x00; x01]]].
Proof.
  apply (Init_unconstrained (C := Example.table) 1 Example.hashed_table
           (Example.from_to [x00; x00; x00; x00; x03] [x00; x00; x00; x01]));
    [reflexivity|reflexivity|reflexivity|].
  intros d [<- |[]]. reflexivity.
Defined.

Lemma scan_range_bounds_whole_key_witness :
  scan_range_bounds (C := Example.table) 1 Example.hashed_table
    (Example.between (Example.key [[x01]]) (Example.key [[x05]])) = Ok ([x01], [x05]).
Proof.
  apply (scan_range_bounds_whole_key (C := Example.table) 1 Example.hashed_table
           (Example.between (Example.key [[x01]]) (Example.key [[x05]])));
    [discriminate|reflexivity|reflexivity].
Defined.

Lemma scan_range_lower_from_primary_key_witness :
  exists range_upper,
    scan_range_bounds (C := Example.table) 2 Example.hashed_table
      (Example.between (Example.key [[x01]; [x00]]) (Example.key [[x05]; [x01]])) =
    Ok ([x01], range_upper).
Proof.
  apply (scan_range_lower_from_primary_key (C := Example.table) 2 Example.hashed_table
           (Example.between (Example.key [[x01]; [x00]]) (Example.key [[x05]; [x01]]))
           (Example.key [[x01]; [x00]]));
    [reflexivity|simpl; lia|simpl; lia|reflexivity|reflexivity|].
  intros up [= <-]. reflexivity.
Defined.

Lemma Init_from_lower_bound_partition_key_witness :
  Init (C := Example.table) 1 Example.hashed_table
    (Example.from_to [x00; x00; x00; x00; x03] [x00; x00; x00; x01]) =
    Ok [Example.element [] []
          [Example.range [x00; x00; x00; x00; x03] [x00; x00; x00; x01]]] /\
  str_le [x00; x00; x00; x00; x03]
    (start (Example.range [x00; x00; x00; x00; x03] [x00; x00; x00; x01])) = true.
Proof.
  split; [reflexivity|].
  apply (Init_from_lower_bound_partition_key (C := Example.table) 1 Example.hashed_table
           (Example.from_to [x00; x00; x00; x00; x03] [x00; x00; x00; x01])
           [Example.element [] []
              [Example.range [x00; x00; x00; x00; x03] [x00; x00; x00; x01]]]
           (Example.element [] []
              [Example.range [x00; x00; x00; x00; x03] [x00; x00; x00; x01]]));
    [split; repeat constructor|discriminate|reflexivity|left; reflexivity|left; reflexivity].
Defined.

Lemma Init_below_upper_bound_partition_key_witness :
  Init (C := Example.table) 1 Example.hashed_table
    (Example.from_to [x00; x00; x00; x00; x03] [x00; x00; x00; x01]) =
    Ok [Example.element [] []
          [Example.range [x00; x00; x00; x00; x03] [x00; x00; x00; x01]]] /\
  below [x00; x00; x00; x01]
    (Example.range [x00; x00; x00; x00; x03] [x00; x00; x00; x01]).
Proof.
  split; [reflexivity|].
  apply (Init_below_upper_bound_partition_key (C := Example.table) 1 Example.hashed_table
           (Example.from_to [x00; x00; x00; x00; x03] [x00; x00; x00; x01]) [] []
           [Example.element [] []
              [Example.range [x00; x00; x00; x00; x03] [x00; x00; x00; x01]]]
           (Example.element [] []
              [Example.range [x00; x00; x00; x00; x03] [x00; x00; x00; x01]]));
    [split; repeat constructor|discriminate|reflexivity|left; reflexivity|constructor
    |reflexivity|left; reflexivity|left; reflexivity].
Defined.

Lemma ShouldPrune_no_intersection_witness :
  ShouldPrune Example.two_ranges
    (Example.partition [] [] [x00; x00; x00; x00; x05] [x00; x00; x00; x01]) = true <->
  forall b r, In b Example.two_ranges ->
    belongs_to_other_range (range_bounds b)
      (Example.partition [] [] [x00; x00; x00; x00; x05] [x00; x00; x00; x01]) = false ->
    In r (partition_key_ranges b) ->
    ~ intersects r (Example.partition [] [] [x00; x00; x00; x00; x05] [x00; x00; x00; x01]).
Proof.
  apply (ShouldPrune_no_intersection Example.two_ranges
           (Example.partition [] [] [x00; x00; x00; x00; x05] [x00; x00; x00; x01]));
    reflexivity.
Defined.

Lemma PruneHashComponent_buckets_witness :
  PruneHashComponent (C := Example.hashing_table) Example.three_buckets 1
    (Example.a_in [[x07]; [x09]]) = Ok [true; true; false] /\
  length [true; true; false] = HashDimension.num_buckets Example.three_buckets /\
  forall i,
    [true; true; false] !! i = Some true <->
    exists combination,
      In combination (value_combinations [[[x07]; [x09]]]) /\
      HashValueForEncodedColumns (Collaborators := Example.hashing_table)
        (encode_combination (C := Example.hashing_table) 1
           (HashDimension.column_ids Example.three_buckets) combination [])
        Example.three_buckets = i.
Proof.
  split; [vm_compute; reflexivity|].
  apply (PruneHashComponent_buckets (C := Example.hashing_table) Example.three_buckets 1
           (Example.a_in [[x07]; [x09]]) [[[x07]; [x09]]] [true; true; false]);
    [|vm_compute; reflexivity].
  constructor; [|constructor]. eexists. split; [vm_compute; reflexivity|].
  right. split; reflexivity.
Defined.

Lemma ShouldPrune_iff_witness :
  reachable (C := Example.table) Example.two_ranges /\
  (ShouldPrune Example.two_ranges
     (Example.partition [] [] [x00; x00; x00; x00; x05] [x00; x00; x00; x01]) = true <->
   forall b, In b Example.two_ranges ->
     bucket_skipped b
       (Example.partition [] [] [x00; x00; x00; x00; x05] [x00; x00; x00; x01]) \/
     forall r, In r (partition_key_ranges b) ->
       ~ intersects r
           (Example.partition [] [] [x00; x00; x00; x00; x05] [x00; x00; x00; x01])) /\
  (ShouldPrune Example.two_ranges
     (Example.partition [] [] [x00; x00; x00; x00; x05] [x00; x00; x00; x01]) = true <->
   forall b, In b Example.two_ranges ->
     bucket_skipped b
       (Example.partition [] [] [x00; x00; x00; x00; x05] [x00; x00; x00; x01]) \/
     ~ keeps_alive_spec b
         (Example.partition [] [] [x00; x00; x00; x00; x05] [x00; x00; x00; x01])).
Proof.
  assert (reachable (C := Example.table) Example.two_ranges) as Hp.
  { apply (reachable_Init (C := Example.table) 1 Example.hashed_table
             (Example.between (Example.key [[x01]]) (Example.key [[x05]])));
      [split; repeat constructor|reflexivity]. }
  split; [exact Hp|].
  apply (ShouldPrune_iff (C := Example.table) Example.two_ranges
           (Example.partition [] [] [x00; x00; x00; x00; x05] [x00; x00; x00; x01]) Hp).
Defined.
